(** * Pelita game master: turn scheduler and position noiser

    A shallow embedding of [pelita/game_master.py] (Python 2): the
    [GameMaster] controller with its [game_state] dictionary, the generator
    [_play_bot_iterator] that [play_step] and [play_round] resume, and
    [UniverseNoiser.uniform_noise].

    The modules [datamodel] and [graph] are imported by the source and are
    not part of it; their operations are the fields of the classes
    [Datamodel] and [Graph] below.  Exceptions are values of [exn]; a
    method that can raise returns a [result] which carries the controller
    as the raise left it, because Python mutates the object in place.

    The module [LibPelita] embeds the part of [pelita/libpelita.py] that
    reads the team arguments of a game and builds the command lines of
    the player processes. *)

From Stdlib Require Import ZArith Lia Ascii String.
From stdpp Require Import base option list gmap.

Local Open Scope Z_scope.

(** ** Python values *)

(** Positions and moves are pairs of integers, [(x, y)] and [(dx, dy)]. *)
Definition pos : Type := Z * Z.
Definition move : Type := Z * Z.

Inductive exn : Type :=
| IllegalMoveException
| PlayerTimeout
| PlayerDisconnected
| GameFinished
| StopIteration
| IndexError
| ValueError
| AttributeError.

#[global] Instance exn_eq_dec : EqDecision exn.
Proof. solve_decision. Defined.

(** [l[i]] for a Python list: a negative index counts from the end, and an
    index outside [-len, len) raises IndexError (here [None]). *)
Definition py_index {A} (l : list A) (i : Z) : option nat :=
  let n := Z.of_nat (length l) in
  if decide (0 <= i < n) then Some (Z.to_nat i)
  else if decide (- n <= i < 0) then Some (Z.to_nat (n + i))
  else None.

Definition py_get {A} (l : list A) (i : Z) : option A :=
  k ← py_index l i; l !! k.

(** [l[i] = x]. *)
Definition py_set {A} (l : list A) (i : Z) (x : A) : option (list A) :=
  k ← py_index l i; Some (<[k := x]> l).

(** [l.remove(x)]: drops the first occurrence, ValueError ([None]) when
    there is none. *)
Fixpoint py_remove {A} `{EqDecision A} (x : A) (l : list A) : option (list A) :=
  match l with
  | [] => None
  | y :: l' => if decide (y = x) then Some l' else cons y <$> py_remove x l'
  end.

(** [random.choice(seq)] on the raw draw [r]: IndexError ([None]) on an
    empty sequence, else the element at [r] reduced to the length. *)
Definition py_choice {A} (r : nat) (seq : list A) : option A :=
  match seq with
  | [] => None
  | _ => seq !! (r `mod` length seq)%nat
  end.

(** ** The universe, as this module uses it *)

Module Bot.
Record t : Type := mk
  { index : Z; team_index : Z; current_pos : pos; noisy : bool }.

(** [b.current_pos = p; b.noisy = True]. *)
Definition set_noised (p : pos) (b : t) : t :=
  {| index := index b; team_index := team_index b;
     current_pos := p; noisy := true |}.
End Bot.

Module Team.
Record t : Type := mk
  { index : Z; name : string; score : Z; bots : list Z }.

Definition set_name (n : string) (tm : t) : t :=
  {| index := index tm; name := n; score := score tm; bots := bots tm |}.
End Team.

Record CTFUniverse (Maze : Type) : Type := mkUniverse
  { maze : Maze; teams : list Team.t; bots : list Bot.t }.

Arguments mkUniverse {Maze} _ _ _.
Arguments maze {Maze} _.
Arguments teams {Maze} _.
Arguments bots {Maze} _.

Definition set_teams {Maze} (ts : list Team.t) (u : CTFUniverse Maze) :=
  {| maze := maze u; teams := ts; bots := bots u |}.

Definition set_bots {Maze} (bs : list Bot.t) (u : CTFUniverse Maze) :=
  {| maze := maze u; teams := teams u; bots := bs |}.

(** The event diff that [move_bot] returns. *)
Record MoveState (Event : Type) : Type := mkMoveState
  { ms_bot_moved : list Event;
    ms_food_eaten : list Event;
    ms_bot_destroyed : list Event }.

Arguments mkMoveState {Event} _ _ _.
Arguments ms_bot_moved {Event} _.
Arguments ms_food_eaten {Event} _.
Arguments ms_bot_destroyed {Event} _.

(** Operations of [pelita.datamodel] on a universe.  [move_bot] answers
    [None] for IllegalMoveException and leaves the universe as it was in
    that case; [get_legal_moves] is the dictionary from legal moves to the
    positions they lead to; [enemy_food] lists the food a team has yet to
    eat. *)
Class Datamodel (Maze Event : Type) : Type :=
  { stop : move;
    move_bot : CTFUniverse Maze -> Z -> move ->
               option (CTFUniverse Maze * MoveState Event);
    get_legal_moves : CTFUniverse Maze -> pos -> gmap move pos;
    enemy_food : CTFUniverse Maze -> Z -> list pos }.

(** Operations of [pelita.graph.AdjacencyList].  [a_star] answers [None]
    for NoPathException; [pos_within] is the set of cells at graph
    distance at most the given radius. *)
Class Graph (Adjacency : Type) : Type :=
  { a_star : Adjacency -> pos -> pos -> option (list pos);
    pos_within : Adjacency -> pos -> Z -> gset pos }.

Definition MAX_TIMEOUTS : Z := 5.

(** ** The game state dictionary *)

Record GameState (Event : Type) : Type := mkGameState
  { bot_moved : list Event;
    food_eaten : list Event;
    bot_destroyed : list Event;
    timeout_teams : list Z;
    bot_id : option Z;
    round_index : option Z;
    running_time : Z;
    finished : bool;
    team_time : list Z;
    team_wins : option Z;
    game_draw : option bool }.

Arguments mkGameState {Event} _ _ _ _ _ _ _ _ _ _ _.
Arguments bot_moved {Event} _.
Arguments food_eaten {Event} _.
Arguments bot_destroyed {Event} _.
Arguments timeout_teams {Event} _.
Arguments bot_id {Event} _.
Arguments round_index {Event} _.
Arguments running_time {Event} _.
Arguments finished {Event} _.
Arguments team_time {Event} _.
Arguments team_wins {Event} _.
Arguments game_draw {Event} _.

Section GameStateUpdates.
Context {Event : Type}.
Implicit Type gs : GameState Event.

Definition set_events (m f d : list Event) gs :=
  mkGameState m f d (timeout_teams gs) (bot_id gs) (round_index gs)
    (running_time gs) (finished gs) (team_time gs) (team_wins gs)
    (game_draw gs).

Definition set_timeout_teams (x : list Z) gs :=
  mkGameState (bot_moved gs) (food_eaten gs) (bot_destroyed gs) x
    (bot_id gs) (round_index gs) (running_time gs) (finished gs)
    (team_time gs) (team_wins gs) (game_draw gs).

Definition set_bot_id (x : option Z) gs :=
  mkGameState (bot_moved gs) (food_eaten gs) (bot_destroyed gs)
    (timeout_teams gs) x (round_index gs) (running_time gs) (finished gs)
    (team_time gs) (team_wins gs) (game_draw gs).

Definition set_round_index (x : option Z) gs :=
  mkGameState (bot_moved gs) (food_eaten gs) (bot_destroyed gs)
    (timeout_teams gs) (bot_id gs) x (running_time gs) (finished gs)
    (team_time gs) (team_wins gs) (game_draw gs).

Definition set_running_time (x : Z) gs :=
  mkGameState (bot_moved gs) (food_eaten gs) (bot_destroyed gs)
    (timeout_teams gs) (bot_id gs) (round_index gs) x (finished gs)
    (team_time gs) (team_wins gs) (game_draw gs).

Definition set_finished (x : bool) gs :=
  mkGameState (bot_moved gs) (food_eaten gs) (bot_destroyed gs)
    (timeout_teams gs) (bot_id gs) (round_index gs) (running_time gs) x
    (team_time gs) (team_wins gs) (game_draw gs).

Definition set_team_time (x : list Z) gs :=
  mkGameState (bot_moved gs) (food_eaten gs) (bot_destroyed gs)
    (timeout_teams gs) (bot_id gs) (round_index gs) (running_time gs)
    (finished gs) x (team_wins gs) (game_draw gs).

Definition set_team_wins (x : option Z) gs :=
  mkGameState (bot_moved gs) (food_eaten gs) (bot_destroyed gs)
    (timeout_teams gs) (bot_id gs) (round_index gs) (running_time gs)
    (finished gs) (team_time gs) x (game_draw gs).

Definition set_game_draw (x : option bool) gs :=
  mkGameState (bot_moved gs) (food_eaten gs) (bot_destroyed gs)
    (timeout_teams gs) (bot_id gs) (round_index gs) (running_time gs)
    (finished gs) (team_time gs) (team_wins gs) x.

(** [for k, v in move_state.iteritems(): game_state[k] += v]. *)
Definition merge_move_state (ms : MoveState Event) gs :=
  set_events (bot_moved gs ++ ms_bot_moved ms)
    (food_eaten gs ++ ms_food_eaten ms)
    (bot_destroyed gs ++ ms_bot_destroyed ms) gs.

(** The dictionary that [__init__] builds. *)
Definition initial_game_state : GameState Event :=
  {| bot_moved := []; food_eaten := []; bot_destroyed := [];
     timeout_teams := [0; 0]; bot_id := None; round_index := None;
     running_time := 0; finished := false; team_time := [0; 0];
     team_wins := None; game_draw := None |}.

End GameStateUpdates.

(** ** The noiser *)

Record UniverseNoiser (Adjacency : Type) : Type := mkNoiser
  { adjacency : Adjacency; noise_radius : Z; sight_distance : Z }.

Arguments mkNoiser {Adjacency} _ _ _.
Arguments adjacency {Adjacency} _.
Arguments noise_radius {Adjacency} _.
Arguments sight_distance {Adjacency} _.

(** Modelled from the spec: [CTFUniverse.enemy_bots] is in
    [pelita.datamodel]; the spec calls its result the opponents of the
    mover's team.  The bots are returned by reference, so the model returns
    their places in [universe.bots]. *)
Definition enemy_bots {Maze} (u : CTFUniverse Maze) (team_index : Z)
  : list nat :=
  (filter (λ ib, Bot.team_index ib.2 ≠ team_index) (imap pair (bots u))).*1.

(** [distance is None or distance > self.sight_distance], where
    [distance] is the length of the path that [a_star] found. *)
Definition out_of_sight (distance : option nat) (sight : Z) : bool :=
  match distance with
  | None => true
  | Some n => bool_decide (Z.of_nat n > sight)
  end.

Section Noiser.
Context {Maze Adjacency : Type} {GR : Graph Adjacency}.
Implicit Type u : CTFUniverse Maze.

(** The stream of raw draws of Python's random generator; [d] counts the
    draws made so far. *)
Variable rand : nat -> nat.

(** The body of [for b in bots_to_noise].  [k] is the place of the mover
    [bot] and [i] the place of the enemy [b]; both are read from the
    universe under modification, as the references of the source are.
    The answer is the universe ([None] for the IndexError of
    [random.choice] on an empty list) and the number of draws made. *)
Fixpoint noise_loop (nz : UniverseNoiser Adjacency) (k : nat)
    (bots_to_noise : list nat) (d : nat) u : option (CTFUniverse Maze) * nat :=
  match bots_to_noise with
  | [] => (Some u, d)
  | i :: rest =>
    match bots u !! k, bots u !! i with
    | Some bot, Some b =>
      let distance :=
        length <$> a_star (adjacency nz) (Bot.current_pos bot)
                     (Bot.current_pos b) in
      if out_of_sight distance (sight_distance nz) then
        let possible_positions :=
          elements (pos_within (adjacency nz) (Bot.current_pos b)
                      (noise_radius nz)) in
        match py_choice (rand d) possible_positions with
        | None => (None, S d)
        | Some p =>
          noise_loop nz k rest (S d)
            (set_bots (<[i := Bot.set_noised p b]> (bots u)) u)
        end
      else noise_loop nz k rest d u
    | _, _ => (None, d)
    end
  end.

Definition uniform_noise (nz : UniverseNoiser Adjacency) (d : nat) u
    (bot_index : Z) : option (CTFUniverse Maze) * nat :=
  match py_index (bots u) bot_index with
  | None => (None, d)
  | Some k =>
    match bots u !! k with
    | None => (None, d)
    | Some bot => noise_loop nz k (enemy_bots u (Bot.team_index bot)) d u
    end
  end.

End Noiser.

(** ** The controller *)

(** Teams and viewers are objects of other modules; the controller holds
    references to them, here handles. *)
Definition TeamPlayer : Type := nat.
Definition Viewer : Type := nat.

(** What [player_team._get_move] does: it returns a move, or raises
    PlayerTimeout or PlayerDisconnected. *)
Inductive AgentReply : Type :=
| ReplyMove (m : move)
| ReplyTimeout
| ReplyDisconnected.

(** The lines written to [sys.stderr] and [sys.stdout], by their
    arguments. *)
Inductive Line : Type :=
| MsgTimeout (count team bot : Z) (disqualified : bool)
| MsgDisconnected (team bot : Z)
| MsgWon (winner loser : string) (winner_score loser_score : Z)
| MsgDraw (name0 name1 : string) (score0 score1 : Z).

(** The generator object that [_play_bot_iterator ()] returns: not yet
    started, suspended at the [yield] with the list iterator of
    [for bot in self.universe.bots] at place [k], or exhausted. *)
Inductive Gen : Type :=
| GenFresh
| GenAt (k : nat)
| GenDone.

(** A call received by a viewer, with the copies it was given. *)
Inductive ViewerCall (Maze Event : Type) : Type :=
| SetInitial (v : Viewer) (u : CTFUniverse Maze)
| Observe (v : Viewer) (u : CTFUniverse Maze) (gs : GameState Event).

Arguments SetInitial {Maze Event} _ _.
Arguments Observe {Maze Event} _ _ _.

(** The fields of [GameMaster], followed by the state of the world around
    it that the model threads along: the number of bot turns started
    ([turns]), the number of draws taken from the random generator
    ([draws]), the calls made to the viewers, the lines printed and the
    number of calls of [set_initial] started ([initials]). *)
Record GameMaster (Maze Event Adjacency : Type) : Type := mkGameMaster
  { universe : CTFUniverse Maze;
    number_bots : Z;
    game_time : Z;
    noiser : option (UniverseNoiser Adjacency);
    player_teams : list TeamPlayer;
    player_teams_timeouts : list Z;
    viewers : list Viewer;
    initial_delay : Z;
    _step_iter : option Gen;
    game_state : GameState Event;
    turns : nat;
    draws : nat;
    viewer_calls : list (ViewerCall Maze Event);
    console : list Line;
    initials : nat }.

Arguments mkGameMaster {Maze Event Adjacency} _ _ _ _ _ _ _ _ _ _ _ _ _ _ _.
Arguments universe {Maze Event Adjacency} _.
Arguments number_bots {Maze Event Adjacency} _.
Arguments game_time {Maze Event Adjacency} _.
Arguments noiser {Maze Event Adjacency} _.
Arguments player_teams {Maze Event Adjacency} _.
Arguments player_teams_timeouts {Maze Event Adjacency} _.
Arguments viewers {Maze Event Adjacency} _.
Arguments initial_delay {Maze Event Adjacency} _.
Arguments _step_iter {Maze Event Adjacency} _.
Arguments game_state {Maze Event Adjacency} _.
Arguments turns {Maze Event Adjacency} _.
Arguments draws {Maze Event Adjacency} _.
Arguments viewer_calls {Maze Event Adjacency} _.
Arguments console {Maze Event Adjacency} _.
Arguments initials {Maze Event Adjacency} _.

(** The world outside the controller: the raw draws of the random
    generator, the answer of a team to the [n]-th turn's [_get_move], the
    two durations measured with [time.time ()] in that turn, in clock
    ticks, and what a team raises, if anything, when the [n]-th call of
    [set_initial] gives it its bot ids ([_set_bot_ids]) and the initial
    universe ([_set_initial]). *)
Record Env (Maze : Type) : Type := mkEnv
  { rand : nat -> nat;
    get_move : nat -> TeamPlayer -> Z -> CTFUniverse Maze -> AgentReply;
    team_time_needed : nat -> Z;
    turn_time : nat -> Z;
    _set_bot_ids : nat -> TeamPlayer -> list Z -> option exn;
    _set_initial : nat -> TeamPlayer -> CTFUniverse Maze -> option exn }.

Arguments mkEnv {Maze} _ _ _ _ _ _.
Arguments rand {Maze} _ _.
Arguments get_move {Maze} _ _ _ _ _.
Arguments team_time_needed {Maze} _ _.
Arguments turn_time {Maze} _ _.
Arguments _set_bot_ids {Maze} _ _ _ _.
Arguments _set_initial {Maze} _ _ _ _.

(** A method either returns a value or raises; a raise leaves the
    controller [S] behind, as the in-place updates made it. *)
Inductive result (S A : Type) : Type :=
| Ok (a : A)
| Raise (e : exn) (s : S).

Arguments Ok {S A} _.
Arguments Raise {S A} _ _.

#[global] Instance result_bind {S} : MBind (result S) :=
  λ A B (k : A -> result S B) (r : result S A),
    match r with Ok a => k a | Raise e s => Raise e s end.

(** The controller a call leaves behind, whichever way it ended. *)
Definition state_of {S} (r : result S S) : S :=
  match r with Ok s => s | Raise _ s => s end.

Definition not_none {A} (o : option A) : bool :=
  match o with Some _ => true | None => false end.

(** [x >= n] in Python 2, where [None] is smaller than every integer. *)
Definition py2_ge (x : option Z) (n : Z) : bool :=
  match x with None => false | Some r => bool_decide (r >= n) end.

Section Controller.
Context {Maze Event Adjacency : Type}.
Context {DM : Datamodel Maze Event} {GR : Graph Adjacency}.

#[local] Abbreviation GM := (GameMaster Maze Event Adjacency).
Implicit Type gm : GM.

Definition set_universe (x : CTFUniverse Maze) gm : GM :=
  mkGameMaster x (number_bots gm) (game_time gm) (noiser gm)
    (player_teams gm) (player_teams_timeouts gm) (viewers gm)
    (initial_delay gm) (_step_iter gm) (game_state gm) (turns gm) (draws gm)
    (viewer_calls gm) (console gm) (initials gm).

Definition set_player_teams (x : list TeamPlayer) (y : list Z) gm : GM :=
  mkGameMaster (universe gm) (number_bots gm) (game_time gm) (noiser gm)
    x y (viewers gm) (initial_delay gm) (_step_iter gm) (game_state gm)
    (turns gm) (draws gm) (viewer_calls gm) (console gm) (initials gm).

Definition set_viewers (x : list Viewer) gm : GM :=
  mkGameMaster (universe gm) (number_bots gm) (game_time gm) (noiser gm)
    (player_teams gm) (player_teams_timeouts gm) x (initial_delay gm)
    (_step_iter gm) (game_state gm) (turns gm) (draws gm) (viewer_calls gm)
    (console gm) (initials gm).

Definition set_step_iter (x : option Gen) gm : GM :=
  mkGameMaster (universe gm) (number_bots gm) (game_time gm) (noiser gm)
    (player_teams gm) (player_teams_timeouts gm) (viewers gm)
    (initial_delay gm) x (game_state gm) (turns gm) (draws gm)
    (viewer_calls gm) (console gm) (initials gm).

Definition set_game_state (x : GameState Event) gm : GM :=
  mkGameMaster (universe gm) (number_bots gm) (game_time gm) (noiser gm)
    (player_teams gm) (player_teams_timeouts gm) (viewers gm)
    (initial_delay gm) (_step_iter gm) x (turns gm) (draws gm)
    (viewer_calls gm) (console gm) (initials gm).

Definition set_turns (x : nat) gm : GM :=
  mkGameMaster (universe gm) (number_bots gm) (game_time gm) (noiser gm)
    (player_teams gm) (player_teams_timeouts gm) (viewers gm)
    (initial_delay gm) (_step_iter gm) (game_state gm) x (draws gm)
    (viewer_calls gm) (console gm) (initials gm).

Definition set_draws (x : nat) gm : GM :=
  mkGameMaster (universe gm) (number_bots gm) (game_time gm) (noiser gm)
    (player_teams gm) (player_teams_timeouts gm) (viewers gm)
    (initial_delay gm) (_step_iter gm) (game_state gm) (turns gm) x
    (viewer_calls gm) (console gm) (initials gm).

Definition set_viewer_calls (x : list (ViewerCall Maze Event)) gm : GM :=
  mkGameMaster (universe gm) (number_bots gm) (game_time gm) (noiser gm)
    (player_teams gm) (player_teams_timeouts gm) (viewers gm)
    (initial_delay gm) (_step_iter gm) (game_state gm) (turns gm) (draws gm)
    x (console gm) (initials gm).

Definition set_console (x : list Line) gm : GM :=
  mkGameMaster (universe gm) (number_bots gm) (game_time gm) (noiser gm)
    (player_teams gm) (player_teams_timeouts gm) (viewers gm)
    (initial_delay gm) (_step_iter gm) (game_state gm) (turns gm) (draws gm)
    (viewer_calls gm) x (initials gm).

Definition set_initials (x : nat) gm : GM :=
  mkGameMaster (universe gm) (number_bots gm) (game_time gm) (noiser gm)
    (player_teams gm) (player_teams_timeouts gm) (viewers gm)
    (initial_delay gm) (_step_iter gm) (game_state gm) (turns gm) (draws gm)
    (viewer_calls gm) (console gm) x.

(** [self.game_state[...] = ...]. *)
Definition upd (f : GameState Event -> GameState Event) gm : GM :=
  set_game_state (f (game_state gm)) gm.

Definition write (l : Line) gm : GM := set_console (console gm ++ [l]) gm.

(** [__init__], given the universe that [datamodel.create_CTFUniverse]
    built from the layout and, when [noise] is set, the adjacency list of
    its maze. *)
Definition init (u : CTFUniverse Maze) (number_bots game_time : Z)
    (noise : option Adjacency) (initial_delay : Z) : GM :=
  {| universe := u; number_bots := number_bots; game_time := game_time;
     noiser := (λ a, mkNoiser a 5 5) <$> noise;
     player_teams := []; player_teams_timeouts := []; viewers := [];
     initial_delay := initial_delay; _step_iter := None;
     game_state := initial_game_state;
     turns := 0%nat; draws := 0%nat; viewer_calls := []; console := [];
     initials := 0%nat |}.

Definition register_team (team : TeamPlayer) (team_name : string) gm
  : result GM GM :=
  let gm := set_player_teams (player_teams gm ++ [team])
              (player_teams_timeouts gm ++ [0]) gm in
  let team_idx := (length (player_teams gm) - 1)%nat in
  if decide (team_name = EmptyString) then Ok gm
  else match teams (universe gm) !! team_idx with
       | None => Raise IndexError gm
       | Some tm =>
         Ok (set_universe
               (set_teams (<[team_idx := Team.set_name team_name tm]>
                             (teams (universe gm))) (universe gm)) gm)
       end.

Definition register_viewer (viewer : Viewer) gm : GM :=
  set_viewers (viewers gm ++ [viewer]) gm.

(** Every viewer gets its own copy of the universe and of the game state;
    a copy is the value at the time of the call. *)
Definition update_viewers gm : GM :=
  set_viewer_calls
    (viewer_calls gm
       ++ map (λ viewer, Observe viewer (universe gm) (game_state gm))
            (viewers gm)) gm.

(** The world outside: draws, team answers and clock readings. *)
Variable env : Env Maze.

(** [for team_idx, team in enumerate(self.player_teams)] of [set_initial],
    from the place [team_idx] on: the team is given the bot ids of the
    universe team at its place and a copy of the universe.  The two calls
    go into the team object and leave the controller as it is; what they
    raise is not caught, and neither is the IndexError of
    [self.universe.teams[team_idx]].  [None] when the loop ends. *)
Fixpoint tell_teams (n : nat) (u : CTFUniverse Maze) (team_idx : nat)
    (player_teams : list TeamPlayer) : option exn :=
  match player_teams with
  | [] => None
  | team :: player_teams =>
    match teams u !! team_idx with
    | None => Some IndexError
    | Some tm =>
      match _set_bot_ids env n team (Team.bots tm) with
      | Some e => Some e
      | None =>
        match _set_initial env n team u with
        | Some e => Some e
        | None => tell_teams n u (S team_idx) player_teams
        end
      end
    end
  end.

(** [set_initial] is the [n]-th call of its kind to start, for
    [n = initials gm].  With more teams registered than the universe has,
    the loop over the teams raises IndexError; with fewer the explicit
    check does. *)
Definition set_initial gm : result GM GM :=
  let n := initials gm in
  let gm := set_initials (S n) gm in
  match tell_teams n (universe gm) 0 (player_teams gm) with
  | Some e => Raise e gm
  | None =>
    if decide (length (player_teams gm) ≠ length (teams (universe gm))) then
      Raise IndexError gm
    else
      Ok (set_viewer_calls
            (viewer_calls gm
               ++ map (λ viewer, SetInitial viewer (universe gm)) (viewers gm))
            gm)
  end.

Definition prepare_next_round gm : GM :=
  if finished (game_state gm) then gm
  else
    let gm := upd (set_bot_id None) gm in
    match round_index (game_state gm) with
    | None => upd (set_round_index (Some 0)) gm
    | Some r =>
      if decide (r < game_time gm)
      then upd (set_round_index (Some (r + 1))) gm
      else upd (set_finished true) gm
    end.

(** A list of food positions is true when it is not empty. *)
Definition truthy {A} (l : list A) : bool :=
  match l with [] => false | _ => true end.

Definition check_finished gm : GM :=
  let gm := upd (set_finished false) gm in
  let gm :=
    if not_none (team_wins (game_state gm))
       || not_none (game_draw (game_state gm))
    then upd (set_finished true) gm else gm in
  if py2_ge (round_index (game_state gm)) (game_time gm) then
    upd (set_bot_id None) (upd (set_finished true) gm)
  else
    let food_left :=
      map (λ team, enemy_food (universe gm) (Team.index team))
        (teams (universe gm)) in
    if negb (forallb truthy food_left) then upd (set_finished true) gm
    else gm.

Definition check_winner gm : result GM GM :=
  if negb (finished (game_state gm)) then Ok gm
  else if not_none (team_wins (game_state gm))
          || not_none (game_draw (game_state gm))
  then Ok gm
  else
    match py_get (teams (universe gm)) 0, py_get (teams (universe gm)) 1 with
    | Some t0, Some t1 =>
      if decide (Team.score t0 > Team.score t1)
      then Ok (upd (set_team_wins (Some 0)) gm)
      else if decide (Team.score t0 < Team.score t1)
      then Ok (upd (set_team_wins (Some 1)) gm)
      else Ok (upd (set_game_draw (Some true)) gm)
    | _, _ => Raise IndexError gm
    end.

Definition print_possible_winner gm : result GM GM :=
  match team_wins (game_state gm) with
  | Some winning_team =>
    match py_get (teams (universe gm)) winning_team,
          py_get (teams (universe gm)) (1 - winning_team) with
    | Some winner, Some loser =>
      Ok (write (MsgWon (Team.name winner) (Team.name loser)
                   (Team.score winner) (Team.score loser)) gm)
    | _, _ => Raise IndexError gm
    end
  | None =>
    if not_none (game_draw (game_state gm)) then
      match py_get (teams (universe gm)) 0,
            py_get (teams (universe gm)) 1 with
      | Some t0, Some t1 =>
        Ok (write (MsgDraw (Team.name t0) (Team.name t1)
                     (Team.score t0) (Team.score t1)) gm)
      | _, _ => Raise IndexError gm
      end
    else Ok gm
  end.

(** The body of [try] in [_play_bot]: copy the universe, noise the copy,
    ask the team, account its time, apply the move and merge the events.
    The team's PlayerTimeout and PlayerDisconnected and the
    IllegalMoveException of [move_bot] come out as raises, for the
    handlers below. *)
Definition play_bot_try (n : nat) (bot : Bot.t) (player_team : TeamPlayer) gm
  : result GM GM :=
  let universe_copy := universe gm in
  noised ←
    match noiser gm with
    | None => Ok (universe_copy, gm)
    | Some nz =>
      match uniform_noise (rand env) nz (draws gm) universe_copy
              (Bot.index bot) with
      | (Some u', d) => Ok (u', set_draws d gm)
      | (None, d) => Raise IndexError (set_draws d gm)
      end
    end;
  let '(universe_copy, gm) := noised in
  match get_move env n player_team (Bot.index bot) universe_copy with
  | ReplyTimeout => Raise PlayerTimeout gm
  | ReplyDisconnected => Raise PlayerDisconnected gm
  | ReplyMove move =>
    let tt := team_time (game_state gm) in
    match py_get tt (Bot.team_index bot) with
    | None => Raise IndexError gm
    | Some t =>
      match py_set tt (Bot.team_index bot)
              (t + team_time_needed env n) with
      | None => Raise IndexError gm
      | Some tt' =>
        let gm := upd (set_team_time tt') gm in
        match move_bot (universe gm) (Bot.index bot) move with
        | None => Raise IllegalMoveException gm
        | Some (u', move_state) =>
          Ok (upd (merge_move_state move_state) (set_universe u' gm))
        end
      end
    end
  end.

(** [moves = get_legal_moves(bot.current_pos).keys(); moves.remove(stop);
    if not moves: moves = [stop]]: the list [random.choice] draws from,
    or [None] for the ValueError of [remove]. *)
Definition fallback_moves (u : CTFUniverse Maze) (bot : Bot.t)
  : option (list move) :=
  moves ← py_remove stop
            (map_to_list (get_legal_moves u (Bot.current_pos bot))).*1;
  Some (if truthy moves then moves else [stop]).

(** The handler of [except (IllegalMoveException, PlayerTimeout)]. *)
Definition play_bot_recover (bot : Bot.t) gm : result GM GM :=
  let ti := Bot.team_index bot in
  let tts := timeout_teams (game_state gm) in
  match py_get tts ti with
  | None => Raise IndexError gm
  | Some n =>
    match py_set tts ti (n + 1) with
    | None => Raise IndexError gm
    | Some tts' =>
      let gm := upd (set_timeout_teams tts') gm in
      let gm :=
        if decide (n + 1 = MAX_TIMEOUTS) then
          let other_team_idx := 1 - ti in
          write (MsgTimeout (n + 1) ti (Bot.index bot) true)
            (upd (set_team_wins (Some other_team_idx)) gm)
        else write (MsgTimeout (n + 1) ti (Bot.index bot) false) gm in
      match fallback_moves (universe gm) bot with
      | None => Raise ValueError gm
      | Some moves =>
        let r := rand env (draws gm) in
        let gm := set_draws (S (draws gm)) gm in
        match py_choice r moves with
        | None => Raise IndexError gm
        | Some move =>
          match move_bot (universe gm) (Bot.index bot) move with
          | None => Raise IllegalMoveException gm
          | Some (u', move_state) =>
            Ok (upd (merge_move_state move_state) (set_universe u' gm))
          end
        end
      end
    end
  end.

(** The handler of [except PlayerDisconnected]. *)
Definition play_bot_disconnected (bot : Bot.t) gm : GM :=
  let other_team_idx := 1 - Bot.team_index bot in
  write (MsgDisconnected (Bot.team_index bot) (Bot.index bot))
    (upd (set_team_wins (Some other_team_idx)) gm).

(** The first four assignments of [_play_bot]; the turn that starts is
    counted. *)
Definition play_bot_begin (bot : Bot.t) gm : GM :=
  upd (set_events [] [] [])
    (upd (set_bot_id (Some (Bot.index bot))) (set_turns (S (turns gm)) gm)).

(** [_play_bot] is the [n]-th turn to start, for [n = turns gm]. *)
Definition _play_bot (bot : Bot.t) gm : result GM GM :=
  let n := turns gm in
  let gm := play_bot_begin bot gm in
  match py_get (player_teams gm) (Bot.team_index bot) with
  | None => Raise IndexError gm
  | Some player_team =>
    match play_bot_try n bot player_team gm with
    | Ok gm => Ok gm
    | Raise IllegalMoveException gm | Raise PlayerTimeout gm =>
      play_bot_recover bot gm
    | Raise PlayerDisconnected gm => Ok (play_bot_disconnected bot gm)
    | Raise e gm => Raise e gm
    end
  end.

(** The exception with which the [try] block of the turn of [bot] ends,
    if it does: PlayerTimeout and PlayerDisconnected come from the team,
    IllegalMoveException from [move_bot] on the move the team returned. *)
Definition turn_failure (bot : Bot.t) gm : option exn :=
  player_team ← py_get (player_teams gm) (Bot.team_index bot);
  match play_bot_try (turns gm) bot player_team (play_bot_begin bot gm) with
  | Ok _ => None
  | Raise e _ => Some e
  end.

(** ** The generator and its drivers *)

(** An exception that leaves the generator also ends it: the reference in
    [_step_iter] then points to an exhausted generator. *)
Definition ends (r : result GM GM) : result GM GM :=
  match r with
  | Ok gm => Ok gm
  | Raise e gm => Raise e (set_step_iter (Some GenDone) gm)
  end.

(** [self.check_finished(); self.check_winner();
    self.print_possible_winner()], as both ends of a round run them. *)
Definition finish_checks gm : result GM GM :=
  gm ← check_winner (check_finished gm);
  print_possible_winner gm.

(** The end of [_play_bot_iterator], after the loop over the bots. *)
Definition round_end gm : result GM GM :=
  gm ← finish_checks gm;
  Raise StopIteration
    (if finished (game_state gm) then update_viewers gm else gm).

(** [for bot in self.universe.bots] with its list iterator at place [k]:
    play the bot there and suspend at [yield], or leave the loop.  The
    bots are objects that [move_bot] updates in place, so the iterator
    reads the list of the universe as it is when the loop resumes. *)
Definition round_loop (k : nat) gm : result GM GM :=
  match bots (universe gm) !! k with
  | Some bot =>
    let n := turns gm in
    gm ← _play_bot bot gm;
    let gm :=
      upd (λ gs, set_running_time (running_time gs + turn_time env n) gs) gm in
    Ok (set_step_iter (Some (GenAt (S k))) (update_viewers gm))
  | None => round_end gm
  end.

(** The start of [_play_bot_iterator], up to the loop. *)
Definition round_start gm : result GM GM :=
  let gm := prepare_next_round gm in
  gm ←
    (if negb (finished (game_state gm)) then finish_checks gm else Ok gm);
  if finished (game_state gm) then Raise GameFinished (update_viewers gm)
  else round_loop 0 gm.

(** [self._step_iter.next ()]: the generator runs to its next [yield]
    ([Ok]) or ends with StopIteration, GameFinished or whatever the turn
    raised.  [next] on [None] is an AttributeError, which the drivers
    exclude. *)
Definition next gm : result GM GM :=
  match _step_iter gm with
  | None => Raise AttributeError gm
  | Some GenFresh => ends (round_start gm)
  | Some (GenAt k) => ends (round_loop k gm)
  | Some GenDone => Raise StopIteration gm
  end.

(** [if self._step_iter is None: self._step_iter = self._play_bot_iterator()]. *)
Definition ensure_step_iter gm : GM :=
  match _step_iter gm with
  | None => set_step_iter (Some GenFresh) gm
  | Some _ => gm
  end.

(** [while True: self._step_iter.next ()] inside [try], with at most
    [fuel] resumptions; [None] when they are used up. *)
Fixpoint play_round_loop (fuel : nat) gm : option (result GM GM) :=
  match fuel with
  | O => None
  | S fuel =>
    match next gm with
    | Ok gm => play_round_loop fuel gm
    | Raise StopIteration gm => Some (Ok (set_step_iter None gm))
    | Raise GameFinished gm => Some (Ok gm)
    | Raise e gm => Some (Raise e gm)
    end
  end.

Definition play_round (fuel : nat) gm : option (result GM GM) :=
  if finished (game_state gm) then Some (Ok gm)
  else play_round_loop fuel (ensure_step_iter gm).

(** [play_step] calls itself after StopIteration; [fuel] bounds the
    depth of these calls. *)
Fixpoint play_step (fuel : nat) gm : option (result GM GM) :=
  if finished (game_state gm) then Some (Ok gm)
  else
    match next (ensure_step_iter gm) with
    | Ok gm => Some (Ok gm)
    | Raise StopIteration gm =>
      match fuel with
      | O => None
      | S fuel => play_step fuel (set_step_iter None gm)
      end
    | Raise GameFinished gm => Some (Ok gm)
    | Raise e gm => Some (Raise e gm)
    end.

(** [while not self.game_state.get("finished"): self.play_round ()]. *)
Fixpoint play_loop (fuel : nat) gm : option (result GM GM) :=
  if finished (game_state gm) then Some (Ok gm)
  else
    match fuel with
    | O => None
    | S fuel' =>
      match play_round fuel gm with
      | Some (Ok gm) => play_loop fuel' gm
      | other => other
      end
    end.

(** [play]: [set_initial], the loop of rounds, and a last call to the
    viewers.  [time.sleep(self.initial_delay)] changes nothing in the
    controller. *)
Definition play (fuel : nat) gm : option (result GM GM) :=
  match set_initial gm with
  | Raise e gm => Some (Raise e gm)
  | Ok gm =>
    match play_loop fuel gm with
    | Some (Ok gm) => Some (Ok (update_viewers gm))
    | other => other
    end
  end.

(** ** Sequences of calls *)

(** The calls a driver makes on a controller. *)
Inductive Call : Type :=
| CallRegisterTeam (team : TeamPlayer) (team_name : string)
| CallRegisterViewer (viewer : Viewer)
| CallSetInitial
| CallPlay (fuel : nat)
| CallPlayRound (fuel : nat)
| CallPlayStep (fuel : nat).

Definition call (c : Call) gm : option (result GM GM) :=
  match c with
  | CallRegisterTeam team team_name => Some (register_team team team_name gm)
  | CallRegisterViewer viewer => Some (Ok (register_viewer viewer gm))
  | CallSetInitial => Some (set_initial gm)
  | CallPlay fuel => play fuel gm
  | CallPlayRound fuel => play_round fuel gm
  | CallPlayStep fuel => play_step fuel gm
  end.

(** Calls made one after the other; a driver that catches what a call
    raises goes on with the controller as the raise left it. *)
Fixpoint run (cs : list Call) gm : option GM :=
  match cs with
  | [] => Some gm
  | c :: cs => r ← call c gm; run cs (state_of r)
  end.

(** The order of round indices: [None], then the integers. *)
Definition round_index_le (x y : option Z) : Prop :=
  match x, y with
  | None, _ => True
  | Some _, None => False
  | Some a, Some b => a <= b
  end.

(** The team answered with a timeout or with a move that [move_bot]
    rejected. *)
Definition rejected_or_timeout (bot : Bot.t) gm : Prop :=
  turn_failure bot gm = Some PlayerTimeout
  \/ turn_failure bot gm = Some IllegalMoveException.

(** What a turn leaves alone: the configuration, the generator, the
    viewers and their calls, and in the game state the round, the running
    time, [finished] and [game_draw]. *)
Definition turn_frame gm gm' : Prop :=
  game_time gm' = game_time gm
  /\ player_teams gm' = player_teams gm
  /\ viewers gm' = viewers gm
  /\ viewer_calls gm' = viewer_calls gm
  /\ _step_iter gm' = _step_iter gm
  /\ round_index (game_state gm') = round_index (game_state gm)
  /\ running_time (game_state gm') = running_time (game_state gm)
  /\ finished (game_state gm') = finished (game_state gm)
  /\ game_draw (game_state gm') = game_draw (game_state gm).

(** A draw is recorded only without a winner and on a finished match. *)
Definition outcome_consistent gm : Prop :=
  game_draw (game_state gm) = None
  \/ (team_wins (game_state gm) = None /\ finished (game_state gm) = true).

(** From a state of the controller to a later one: a consistent outcome
    stays consistent, and the game state of a finished match is kept. *)
Definition outcome_kept gm gm' : Prop :=
  (outcome_consistent gm -> outcome_consistent gm')
  /\ (finished (game_state gm) = true -> game_state gm' = game_state gm).

(** From a state of the controller to a later one: a winner that was
    recorded is still recorded, the same team or another. *)
Definition winner_kept gm gm' : Prop :=
  team_wins (game_state gm) ≠ None -> team_wins (game_state gm') ≠ None.

(** From a state of the controller to a later one: [game_time] is the
    same, the round index has not decreased, and it is still between 0
    and a non-negative [game_time] if it was. *)
Definition rounds_advance gm gm' : Prop :=
  game_time gm' = game_time gm
  /\ round_index_le (round_index (game_state gm))
       (round_index (game_state gm'))
  /\ (0 <= game_time gm ->
      (forall r, round_index (game_state gm) = Some r ->
                 0 <= r <= game_time gm) ->
      forall r, round_index (game_state gm') = Some r ->
                0 <= r <= game_time gm').

(** The rounds that the round index leaves before [game_time], and with
    them the round that a generator in [_step_iter] has yet to end: a
    bound on the calls of [play_round] that [play] makes. *)
Definition rounds_to_go gm : nat :=
  match round_index (game_state gm) with
  | None => Z.to_nat (game_time gm + 1)
  | Some r => Z.to_nat (game_time gm - r)
  end.

Definition rounds_left gm : nat :=
  (rounds_to_go gm + match _step_iter gm with None => 0 | Some _ => 1 end)%nat.

(** [move_bot] moves bots; it neither adds nor removes one. *)
Definition move_bot_keeps_bots : Prop :=
  forall (u u' : CTFUniverse Maze) i mv (ms : MoveState Event),
    move_bot u i mv = Some (u', ms) -> length (bots u') = length (bots u).

(** The number of [observe] calls that a viewer has received. *)
Definition observed_by (viewer : Viewer) (c : ViewerCall Maze Event) : bool :=
  match c with
  | Observe v _ _ => bool_decide (v = viewer)
  | SetInitial _ _ => false
  end.

Definition observations (viewer : Viewer) gm : nat :=
  length (filter (λ c, observed_by viewer c = true) (viewer_calls gm)).

(** The number of times a viewer is registered. *)
Definition registrations (viewer : Viewer) gm : nat :=
  length (filter (λ v, v = viewer) (viewers gm)).

(** Every registration of a viewer has received one [observe] call for
    each turn started, and one more if the match is finished. *)
Definition viewers_told gm : Prop :=
  forall viewer,
    observations viewer gm
    = (registrations viewer gm
       * (turns gm + if finished (game_state gm) then 1 else 0))%nat.

(** ** What a turn shows and changes *)

(** The universe that the team of [bot] is given in its turn, with the
    number of draws made by then: the copy of the universe, noised when
    the controller has a noiser.  [None] when the noiser raises. *)
Definition shown_universe (bot : Bot.t) gm : option (CTFUniverse Maze * nat) :=
  match noiser gm with
  | None => Some (universe gm, draws gm)
  | Some nz =>
    match uniform_noise (rand env) nz (draws gm) (universe gm)
            (Bot.index bot) with
    | (Some u', d) => Some (u', d)
    | (None, _) => None
    end
  end.

(** The event lists of the game state are those of a move. *)
Definition events_of (ms : MoveState Event) (gs : GameState Event) : Prop :=
  bot_moved gs = ms_bot_moved ms
  /\ food_eaten gs = ms_food_eaten ms
  /\ bot_destroyed gs = ms_bot_destroyed ms.

(** From a state of the controller to a later one: every team has its
    count of timeouts still, and no count has decreased. *)
Definition timeouts_grow gm gm' : Prop :=
  length (timeout_teams (game_state gm'))
  = length (timeout_teams (game_state gm))
  /\ forall i n n',
       timeout_teams (game_state gm) !! i = Some n ->
       timeout_teams (game_state gm') !! i = Some n' -> n <= n'.

(** ** The summary line *)

(** The lines that [print_possible_winner] prints. *)
Definition is_summary (l : Line) : bool :=
  match l with
  | MsgWon _ _ _ _ | MsgDraw _ _ _ _ => true
  | MsgTimeout _ _ _ _ | MsgDisconnected _ _ => false
  end.

Definition summaries gm : nat :=
  length (filter (λ l, is_summary l = true) (console gm)).

(** No summary line so far, or one and the match is finished. *)
Definition summary_once gm : Prop :=
  summaries gm = 0%nat
  \/ (summaries gm = 1%nat /\ finished (game_state gm) = true).

Definition summary_kept gm gm' : Prop := summary_once gm -> summary_once gm'.

(** A match that is not finished is in a round before [game_time]. *)
Definition rounds_pending gm : Prop :=
  match round_index (game_state gm) with
  | None => True
  | Some r => finished (game_state gm) = false -> r < game_time gm
  end.

(** A finished match has a winner or is a draw. *)
Definition outcome_known gm : Prop :=
  finished (game_state gm) = true ->
  team_wins (game_state gm) ≠ None \/ game_draw (game_state gm) ≠ None.

(** A match between rounds or inside one, with its summary line printed
    if and only if it is finished. *)
Definition match_invariant gm : Prop :=
  rounds_pending gm /\ outcome_known gm
  /\ summaries gm = (if finished (game_state gm) then 1 else 0)%nat.

(** The turns that the round of the generator in [_step_iter] has yet to
    play. *)
Definition turns_left gm : nat :=
  match _step_iter gm with
  | Some (GenAt k) => (length (bots (universe gm)) - k)%nat
  | Some GenDone => 0%nat
  | Some GenFresh | None => length (bots (universe gm))
  end.

(** The place in [universe.bots] of the bot whose turn is next: the
    place of the generator, or the first place when a round is about to
    begin. *)
Definition next_place gm : nat :=
  match _step_iter gm with
  | Some (GenAt k) =>
    if decide (k < length (bots (universe gm)))%nat then k else 0%nat
  | _ => 0%nat
  end.

(** The controller after the registration of teams, one after the
    other; a raise of [register_team] is caught. *)
Definition register_teams (ts : list (TeamPlayer * string)) gm
  : GameMaster Maze Event Adjacency :=
  foldl (λ gm t, state_of (register_team t.1 t.2 gm)) gm ts.

End Controller.

(** ** A small universe to run the controller on

    A corridor of the cells [(0,0)] to [(5,0)].  A bot may stop, step east
    or step west inside the corridor; the maze is the food left, each
    piece with the team that owns it; a bot that steps on a piece of the
    other team eats it and scores. *)
Module Toy.

Definition Maze : Type := list (Z * pos).
Definition Event : Type := (Z * pos)%type.
Definition Adjacency : Type := Z.

Definition stand : move := (0, 0).
Definition east : move := (1, 0).
Definition west : move := (-1, 0).

Definition in_corridor (p : pos) : bool :=
  bool_decide (0 <= p.1 <= 5 ∧ p.2 = 0).

Definition legal_moves (u : CTFUniverse Maze) (p : pos) : gmap move pos :=
  if in_corridor p then
    list_to_map
      ((stand, p)
         :: (if decide (p.1 < 5) then [(east, (p.1 + 1, p.2))] else [])
         ++ (if decide (0 < p.1) then [(west, (p.1 - 1, p.2))] else []))
  else ∅.

Definition food_for (u : CTFUniverse Maze) (team_index : Z) : list pos :=
  (filter (λ f, f.1 ≠ team_index) (maze u)).*2.

Definition add_score (team_index : Z) (tm : Team.t) : Team.t :=
  if decide (Team.index tm = team_index)
  then Team.mk (Team.index tm) (Team.name tm) (Team.score tm + 1) (Team.bots tm)
  else tm.

Definition apply_move (u : CTFUniverse Maze) (bot_index : Z) (mv : move)
  : option (CTFUniverse Maze * MoveState Event) :=
  k ← py_index (bots u) bot_index;
  bot ← bots u !! k;
  new_pos ← legal_moves u (Bot.current_pos bot) !! mv;
  let bot' := Bot.mk (Bot.index bot) (Bot.team_index bot) new_pos (Bot.noisy bot) in
  let eaten :=
    bool_decide (new_pos ∈ food_for u (Bot.team_index bot)) in
  let maze' :=
    if eaten then filter (λ f, f.2 ≠ new_pos ∨ f.1 = Bot.team_index bot) (maze u)
    else maze u in
  let teams' :=
    if eaten then add_score (Bot.team_index bot) <$> teams u else teams u in
  Some (mkUniverse maze' teams' (<[k := bot']> (bots u)),
        mkMoveState [(bot_index, new_pos)]
          (if eaten then [(bot_index, new_pos)] else []) []).

Definition datamodel : Datamodel Maze Event :=
  {| stop := stand;
     move_bot := apply_move;
     get_legal_moves := legal_moves;
     enemy_food := food_for |}.

(** A universe where a bot must keep moving: standing still is not among
    the legal moves. *)
Definition restless : Datamodel Maze Event :=
  {| stop := stand;
     move_bot := apply_move;
     get_legal_moves := λ u p, delete stand (legal_moves u p);
     enemy_food := food_for |}.

(** The corridor as a graph; the adjacency list is its last column. *)
Definition path (a : Adjacency) (p q : pos) : option (list pos) :=
  if bool_decide (0 <= p.1 <= a ∧ p.2 = 0 ∧ 0 <= q.1 <= a ∧ q.2 = 0) then
    Some ((λ i : nat, (if decide (p.1 <= q.1) then p.1 + Z.of_nat i + 1
                       else p.1 - Z.of_nat i - 1, 0))
            <$> seq 0 (Z.to_nat (Z.abs (q.1 - p.1))))
  else None.

Definition within (a : Adjacency) (p : pos) (r : Z) : gset pos :=
  if bool_decide (0 <= p.1 <= a ∧ p.2 = 0) then
    list_to_set
      (filter (λ c : pos, Z.abs (c.1 - p.1) <= r)
         ((λ i : nat, (Z.of_nat i, 0)) <$> seq 0 (Z.to_nat (a + 1))))
  else ∅.

Definition graph : Graph Adjacency :=
  {| a_star := path; pos_within := within |}.

(** Two teams of one bot each, at the two ends of the corridor, and one
    piece of food for each team. *)
Definition universe0 : CTFUniverse Maze :=
  {| maze := [(0, (1, 0)); (1, (4, 0))];
     teams := [Team.mk 0 "left" 0 [0]; Team.mk 1 "right" 0 [1]];
     bots := [Bot.mk 0 0 (0, 0) false; Bot.mk 1 1 (5, 0) false] |}.

Definition bot0 : Bot.t := Bot.mk 0 0 (0, 0) false.
Definition bot1 : Bot.t := Bot.mk 1 1 (5, 0) false.

(** A controller on [universe0] with the noiser, the teams [0] and [1]
    and the viewer [7] registered. *)
Definition controller (game_time : Z) : GameMaster Maze Event Adjacency :=
  register_viewer 7%nat
    (state_of
       (register_team 1%nat ""
          (state_of
             (register_team 0%nat "" (init universe0 2 game_time (Some 5) 0))))).

(** Worlds in which every team stands still, every team times out, every
    team is disconnected, and team [0] alone times out.  The [n]-th draw
    of the random generator is [n]; a call to a team takes one tick and a
    turn two; the teams take their bot ids and the initial universe
    without a failure. *)
Definition env_stand : Env Maze :=
  mkEnv (λ n, n) (λ _ _ _ _, ReplyMove stand) (λ _, 1) (λ _, 2)
    (λ _ _ _, None) (λ _ _ _, None).

Definition env_timeout : Env Maze :=
  mkEnv (λ n, n) (λ _ _ _ _, ReplyTimeout) (λ _, 1) (λ _, 2)
    (λ _ _ _, None) (λ _ _ _, None).

Definition env_disconnected : Env Maze :=
  mkEnv (λ n, n) (λ _ _ _ _, ReplyDisconnected) (λ _, 1) (λ _, 2)
    (λ _ _ _, None) (λ _ _ _, None).

Definition env_left_late : Env Maze :=
  mkEnv (λ n, n)
    (λ _ team _ _,
       if decide (team = 0%nat) then ReplyTimeout else ReplyMove stand)
    (λ _, 1) (λ _, 2) (λ _ _ _, None) (λ _ _ _, None).

(** A world in which team [1] is gone when the first call of
    [set_initial] sends it the universe, and is back for the next call. *)
Definition env_right_absent : Env Maze :=
  mkEnv (λ n, n) (λ _ _ _ _, ReplyMove stand) (λ _, 1) (λ _, 2)
    (λ _ _ _, None)
    (λ n team _,
       if decide (n = 0%nat /\ team = 1%nat) then Some PlayerDisconnected
       else None).

(** The controller after four rounds against [env_left_late]: team [0]
    has four timeouts. *)
Definition after_four_rounds : option (GameMaster Maze Event Adjacency) :=
  run (DM := datamodel) (GR := graph) env_left_late
    (replicate 8 (CallPlayStep 1)) (controller 10).

Definition four_timeouts : GameMaster Maze Event Adjacency :=
  default (controller 10) after_four_rounds.

(** The bot at place [k] of the universe of a controller. *)
Definition bot_at (gm : GameMaster Maze Event Adjacency) (k : nat) : Bot.t :=
  default bot0 (bots (universe gm) !! k).

(** The controller that a call leaves behind. *)
Definition left_by (o : option (result (GameMaster Maze Event Adjacency)
                                  (GameMaster Maze Event Adjacency)))
  : GameMaster Maze Event Adjacency :=
  match o with Some r => state_of r | None => controller 0 end.

(** A match of one round in which both teams stand still, run by
    [play]. *)
Definition played : GameMaster Maze Event Adjacency :=
  left_by (play (DM := datamodel) (GR := graph) env_stand 20 (controller 1)).

(** A finished match that the left team leads two to one, before the
    winner is determined. *)
Definition finished_match : GameMaster Maze Event Adjacency :=
  upd (set_finished true)
    (set_universe
       (set_teams [Team.mk 0 "left" 2 [0]; Team.mk 1 "right" 1 [1]] universe0)
       (controller 10)).

(** A noiser that sees two steps far and scatters by one. *)
Definition short_sighted : UniverseNoiser Adjacency := mkNoiser 5 1 2.

(** The controller after the turn of the first bot, in a given world. *)
Definition turn_of (env : Env Maze) : GameMaster Maze Event Adjacency :=
  state_of
    (_play_bot (DM := datamodel) (GR := graph) env bot0 (controller 10)).

(** The controller after one step and after one round of a match in
    which both teams stand still. *)
Definition stepped : GameMaster Maze Event Adjacency :=
  left_by (play_step (DM := datamodel) (GR := graph) env_stand 1
             (controller 10)).

Definition round_played : GameMaster Maze Event Adjacency :=
  left_by (play_round (DM := datamodel) (GR := graph) env_stand 5
             (controller 10)).

(** The only round of a match of no rounds that the left team leads two
    to one, and the controller after the checks that end it. *)
Definition last_round : GameMaster Maze Event Adjacency :=
  prepare_next_round
    (set_universe
       (set_teams [Team.mk 0 "left" 2 [0]; Team.mk 1 "right" 1 [1]] universe0)
       (controller 0)).

Definition checked : GameMaster Maze Event Adjacency :=
  state_of (finish_checks (DM := datamodel) last_round).

(** The controller after the first step of a match in which every team
    is disconnected, and after the round that the step began. *)
Definition disqualified : GameMaster Maze Event Adjacency :=
  left_by (play_step (DM := datamodel) (GR := graph) env_disconnected 1
             (controller 10)).


End Toy.

(** * Team specifications ([pelita/libpelita.py])

    The functions of [libpelita] that turn the team arguments of
    [run_game] into the command lines of the player processes.  Strings
    are sequences of bytes; the characters looked for, [@] and [://], are
    ASCII, so the functions act alike on the UTF-8 form of a Python 3
    string. *)

Module LibPelita.

(** ** Python strings *)

(** [s.startswith(p)]. *)
Fixpoint startswith (p s : string) : bool :=
  match p, s with
  | EmptyString, _ => true
  | String a p', String b s' => bool_decide (a = b) && startswith p' s'
  | String _ _, EmptyString => false
  end.

(** [needle in hay]. *)
Fixpoint contains (needle hay : string) : bool :=
  startswith needle hay
  || match hay with
     | EmptyString => false
     | String _ hay' => contains needle hay'
     end.

(** [s.split(sep)] for a separator of one character: the pieces between
    the occurrences of [sep], one more than there are occurrences. *)
Fixpoint split (sep : ascii) (s : string) : list string :=
  match s with
  | EmptyString => [EmptyString]
  | String c s' =>
    if decide (c = sep) then EmptyString :: split sep s'
    else match split sep s' with
         | piece :: pieces => String c piece :: pieces
         | [] => [String c EmptyString]
         end
  end.

(** [s.count(sep)] and [sep.join(pieces)], for a separator of one
    character. *)
Fixpoint count (sep : ascii) (s : string) : nat :=
  match s with
  | EmptyString => 0
  | String c s' => (if decide (c = sep) then 1 else 0) + count sep s'
  end.

Fixpoint join (sep : ascii) (pieces : list string) : string :=
  match pieces with
  | [] => EmptyString
  | [piece] => piece
  | piece :: pieces => String.append piece (String sep (join sep pieces))
  end.

(** ** Results *)

Inductive error : Type :=
| ValueError (msg : string)
| RuntimeError (msg : string).

Inductive outcome (A : Type) : Type :=
| Returns (a : A)
| Raises (e : error).

Arguments Returns {A} _.
Arguments Raises {A} _.

#[global] Instance outcome_bind : MBind outcome :=
  λ A B (k : A -> outcome B) (r : outcome A),
    match r with Returns a => k a | Raises e => Raises e end.

(** ** [firstNN] *)

(** [next(filter(lambda x: x is not None, args), None)]. *)
Definition firstNN {A} (args : list (option A)) : option A :=
  default None (head (filter is_Some args)).

(** ** The team specifications *)

Module ModuleSpec.
Record t : Type := mk { prefix : option string; module : string }.
End ModuleSpec.

(** The argument that [run_game] gets for a team: a move function, or a
    string. *)
Inductive TeamArg : Type :=
| MoveFunction (f : nat)
| Str (s : string).

Module TeamSpec.
Record t : Type := mk { module : option ModuleSpec.t; address : TeamArg }.
End TeamSpec.

(** The tuple assignment [prefix, module = module.split("@")] raises
    ValueError unless there are exactly two pieces; [module] is then
    still the argument, which the message of the new ValueError shows. *)
Definition strip_module_prefix (module : string) : outcome ModuleSpec.t :=
  if contains "@" module then
    match split "@"%char module with
    | [prefix; module'] => Returns (ModuleSpec.mk (Some prefix) module')
    | _ =>
      Raises (ValueError
                (String.append "Bad module definition: "
                   (String.append module ".")))
    end
  else Returns (ModuleSpec.mk None module).

Definition prepare_team (team_spec : TeamArg) : outcome TeamSpec.t :=
  match team_spec with
  | MoveFunction f => Returns (TeamSpec.mk None (MoveFunction f))
  | Str s =>
    if contains "://" s then Returns (TeamSpec.mk None (Str s))
    else
      module ← strip_module_prefix s;
      Returns (TeamSpec.mk (Some module) (Str "tcp://127.0.0.1"))
  end.

(** ** The player processes *)

Inductive Runner : Type :=
| DefaultRunner
| BinRunner.

(** The dictionary [defined_runners]. *)
Definition defined_runners (prefix : string) : option Runner :=
  if decide (prefix = "py"%string) then Some DefaultRunner
  else if decide (prefix = "bin"%string) then Some BinRunner
  else None.

(** [get_python_process], given [sys.executable]. *)
Definition get_python_process (executable : option string) : outcome string :=
  match executable with
  | Some py_proc =>
    if decide (py_proc = EmptyString)
    then Raises (RuntimeError "Cannot retrieve current Python executable.")
    else Returns py_proc
  | None => Raises (RuntimeError "Cannot retrieve current Python executable.")
  end.

(** [runner(team_spec).call_args(addr)], with [color] set on the
    runner. *)
Definition call_args (executable : option string) (runner : Runner)
    (team_spec color addr : string) : outcome (list string) :=
  match runner with
  | DefaultRunner =>
    py_proc ← get_python_process executable;
    Returns [py_proc; "-m"; "pelita.scripts.pelita_player"; team_spec; addr;
             "--color"; color]%string
  | BinRunner => Returns [team_spec; addr]
  end.

(** [call_pelita_player] up to the call of [subprocess.Popen]: the
    command line of the process that it starts. *)
Definition call_pelita_player (executable : option string)
    (module_spec : ModuleSpec.t) (address color : string)
  : outcome (list string) :=
  runner ←
    match ModuleSpec.prefix module_spec with
    | Some prefix =>
      match defined_runners prefix with
      | Some runner => Returns runner
      | None =>
        Raises (ValueError
                  (String.append "Unknown runner: " (String.append prefix ":")))
      end
    | None => Returns DefaultRunner
    end;
  call_args executable runner (ModuleSpec.module module_spec) color address.

End LibPelita.

(** * Properties *)

(** ** Python lists *)

Lemma py_index_lt {A} (l : list A) i k :
  py_index l i = Some k -> (k < length l)%nat.
Proof.
  unfold py_index. repeat case_decide; intros [= <-]; lia.
Qed.

Lemma py_get_Some_index {A} (l : list A) i x :
  py_get l i = Some x -> exists k, py_index l i = Some k /\ l !! k = Some x.
Proof.
  unfold py_get. destruct (py_index l i) as [k|]; simpl; [eauto | done].
Qed.

Lemma py_get_set {A} (l : list A) i x y :
  py_get l i = Some x -> exists l', py_set l i y = Some l' /\ py_get l' i = Some y.
Proof.
  intros (k & Hk & _)%py_get_Some_index.
  unfold py_set, py_get. rewrite Hk. simpl. eexists; split; [done|].
  pose proof (py_index_lt _ _ _ Hk) as Hlt.
  assert (py_index (<[k:=y]> l) i = Some k) as ->.
  { unfold py_index in *. by rewrite length_insert. }
  simpl. by apply list_lookup_insert_eq.
Qed.

Lemma py_remove_Some {A} `{EqDecision A} (x : A) l :
  x ∈ l -> exists l', py_remove x l = Some l'.
Proof.
  induction l as [|y l IH]; [by intros ?%elem_of_nil|].
  intros Hin. simpl. case_decide as Hyx; [eauto|].
  apply elem_of_cons in Hin as [-> | Hin]; [done|].
  destruct (IH Hin) as [l' ->]. simpl. eauto.
Qed.

Lemma py_remove_None {A} `{EqDecision A} (x : A) l :
  x ∉ l -> py_remove x l = None.
Proof.
  induction l as [|y l IH]; [done|].
  intros [Hne Hnin]%not_elem_of_cons. simpl.
  case_decide; [congruence|]. by rewrite IH.
Qed.

(** On a list without duplicates, what [remove] leaves is the rest. *)
Lemma py_remove_NoDup {A} `{EqDecision A} (x : A) l l' :
  NoDup l -> py_remove x l = Some l' ->
  forall y, y ∈ l' <-> y ∈ l /\ y ≠ x.
Proof.
  revert l'. induction l as [|z l IH]; [done|].
  intros l' Hnd Hrem y. apply NoDup_cons in Hnd as [Hz Hnd].
  simpl in Hrem. rewrite elem_of_cons. case_decide as Hzx.
  - injection Hrem as <-. subst z. split.
    + intros Hy. split; [by right | by intros ->].
    + by intros [[-> | Hy] Hne].
  - destruct (py_remove x l) as [l''|] eqn:E; [|done].
    injection Hrem as <-. rewrite elem_of_cons, (IH _ Hnd eq_refl y).
    split.
    + intros [-> | [Hy Hne]]; [by split; [left|] | by split; [right|]].
    + intros [[-> | Hy] Hne]; [by left | by right].
Qed.

Lemma py_choice_elem {A} (r : nat) (seq : list A) :
  seq ≠ [] -> exists x, py_choice r seq = Some x /\ x ∈ seq.
Proof.
  destruct seq as [|a seq]; [done|]. intros _. unfold py_choice.
  destruct ((a :: seq) !! (r `mod` length (a :: seq))%nat) as [x|] eqn:E.
  - exists x. split; [done|]. by eapply list_elem_of_lookup_2.
  - apply lookup_ge_None in E.
    pose proof (Nat.mod_upper_bound r (length (a :: seq))). simpl in *. lia.
Qed.

Lemma py_choice_Some_elem {A} (r : nat) (seq : list A) x :
  py_choice r seq = Some x -> x ∈ seq.
Proof.
  destruct seq as [|a seq]; [done|]. unfold py_choice.
  intros H. by eapply list_elem_of_lookup_2.
Qed.

(** On a list without duplicates [random.choice] picks by the residue of
    the raw draw alone, and every element has a residue of its own: equal
    shares for the elements when the residues have equal shares. *)
Lemma py_choice_uniform {A} (l : list A) (x : A) :
  NoDup l -> x ∈ l ->
  exists j, (j < length l)%nat
    /\ forall r, py_choice r l = Some x <-> (r `mod` length l)%nat = j.
Proof.
  intros Hnd (j & Hj)%list_elem_of_lookup_1. exists j.
  pose proof (lookup_lt_Some _ _ _ Hj) as Hlt. split; [done|].
  intros r. destruct l as [|a l]; [done|]. unfold py_choice. split.
  - intros Hr. by eapply NoDup_lookup.
  - by intros ->.
Qed.

Example py_get_from_the_end : py_get [10; 20; 30] (-1) = Some 30.
Proof. reflexivity. Qed.

Example py_get_out_of_range : py_get [10; 20; 30] 3 = None.
Proof. reflexivity. Qed.

Example py_remove_first : py_remove 2 [1; 2; 3; 2] = Some [1; 3; 2].
Proof. reflexivity. Qed.

Example py_choice_by_residue : py_choice 7 [10; 20; 30] = Some 20.
Proof. reflexivity. Qed.

Section Properties.
Context {Maze Event Adjacency : Type}.
Context {DM : Datamodel Maze Event} {GR : Graph Adjacency}.
Variable env : Env Maze.

Implicit Type gm : GameMaster Maze Event Adjacency.

(** ** What the small methods change *)

Lemma not_none_true {A} (o : option A) : not_none o = true <-> o ≠ None.
Proof. destruct o; simpl; split; congruence. Qed.

Lemma forallb_truthy_false {A B} (f : A -> list B) (l : list A) :
  forallb truthy (map f l) = false <-> exists x, x ∈ l /\ length (f x) = 0%nat.
Proof.
  induction l as [|a l IH]; simpl.
  - split; [done | by intros (x & ?%elem_of_nil & _)].
  - rewrite andb_false_iff, IH. split.
    + intros [Ha | (x & Hx & Hlen)].
      * exists a. split; [left|]. by destruct (f a).
      * exists x. split; [by right | done].
    + intros (x & [-> | Hx]%elem_of_cons & Hlen).
      * left. by destruct (f a).
      * right. eauto.
Qed.

(** [check_winner] writes [team_wins] or [game_draw] and nothing else. *)
Lemma check_winner_shape gm :
  exists tw gd,
    state_of (check_winner gm)
    = upd (set_game_draw gd) (upd (set_team_wins tw) gm).
Proof.
  exists (team_wins (game_state (state_of (check_winner gm)))),
         (game_draw (game_state (state_of (check_winner gm)))).
  unfold check_winner.
  destruct gm as [u nb gt nz pt ptt vs dl it gs tn dr vc cs].
  destruct gs as [bm fe bd tt bi ri rt fin tmt tw gd]. cbn.
  destruct fin; cbn; [|done].
  destruct (not_none tw || not_none gd); cbn; [done|].
  destruct (py_get (teams u) 0); cbn; [|done].
  destruct (py_get (teams u) 1); cbn; [|done].
  repeat case_decide; done.
Qed.

(** [print_possible_winner] prints and nothing else. *)
Lemma print_possible_winner_shape gm :
  exists c, state_of (print_possible_winner gm) = set_console c gm.
Proof.
  exists (console (state_of (print_possible_winner gm))).
  unfold print_possible_winner.
  destruct gm as [u nb gt nz pt ptt vs dl it gs tn dr vc cs]. cbn.
  destruct (team_wins gs) as [w|]; cbn.
  - destruct (py_get (teams u) w); cbn; [|done].
    destruct (py_get (teams u) (1 - w)); cbn; done.
  - destruct (not_none (game_draw gs)); cbn; [|done].
    destruct (py_get (teams u) 0); cbn; [|done].
    destruct (py_get (teams u) 1); cbn; done.
Qed.

(** [set_initial] counts the call and, when it returns, has told the
    viewers; it changes nothing else. *)
Lemma set_initial_Ok gm gm' :
  set_initial env gm = Ok gm' ->
  gm' = set_viewer_calls
          (viewer_calls gm
             ++ map (λ viewer, SetInitial viewer (universe gm)) (viewers gm))
          (set_initials (S (initials gm)) gm).
Proof.
  unfold set_initial. cbn. destruct (tell_teams _ _ _ _ _); [done|].
  case_decide; [done|]. by intros [= <-].
Qed.

Lemma set_initial_Raise gm e gm' :
  set_initial env gm = Raise e gm' -> gm' = set_initials (S (initials gm)) gm.
Proof.
  unfold set_initial. cbn. destruct (tell_teams _ _ _ _ _); [by intros [= _ <-]|].
  case_decide; [by intros [= _ <-] | done].
Qed.

Lemma set_initial_state gm :
  exists vc,
    state_of (set_initial env gm)
    = set_viewer_calls vc (set_initials (S (initials gm)) gm).
Proof.
  destruct (set_initial env gm) as [gm'|e gm'] eqn:Hi; cbn.
  - apply set_initial_Ok in Hi as ->. eauto.
  - apply set_initial_Raise in Hi as ->. exists (viewer_calls gm).
    by destruct gm.
Qed.

Lemma state_of_bind (r : result (GameMaster Maze Event Adjacency) (GameMaster Maze Event Adjacency))
    (k : GameMaster Maze Event Adjacency -> result (GameMaster Maze Event Adjacency) (GameMaster Maze Event Adjacency)) :
  state_of (r ≫= k)
  = match r with Ok gm => state_of (k gm) | Raise _ gm => gm end.
Proof. by destruct r. Qed.

(** The checks at the ends of a round: past [check_finished], the game
    state changes in [team_wins] and [game_draw] at most. *)
Lemma finish_checks_shape gm :
  exists tw gd c,
    state_of (finish_checks gm)
    = set_console c
        (upd (set_game_draw gd) (upd (set_team_wins tw) (check_finished gm))).
Proof.
  unfold finish_checks.
  destruct (check_winner_shape (check_finished gm)) as (tw & gd & Hw).
  rewrite state_of_bind.
  destruct (check_winner (check_finished gm)) as [gm1|e gm1]; cbn in Hw.
  - destruct (print_possible_winner_shape gm1) as (c & Hp).
    exists tw, gd, c. by rewrite Hp, Hw.
  - exists tw, gd, (console (check_finished gm)). rewrite Hw.
    by destruct (check_finished gm).
Qed.

Lemma round_end_state gm :
  state_of (round_end gm)
  = let gm1 := state_of (finish_checks gm) in
    match finish_checks gm with
    | Ok _ => if finished (game_state gm1) then update_viewers gm1 else gm1
    | Raise _ _ => gm1
    end.
Proof. unfold round_end. by destruct (finish_checks gm). Qed.

(** When [check_finished] leaves [finished] true. *)
Lemma check_finished_true gm :
  finished (game_state (check_finished gm)) = true <->
    (team_wins (game_state gm) ≠ None \/ game_draw (game_state gm) ≠ None)
    \/ (exists r, round_index (game_state gm) = Some r /\ game_time gm <= r)
    \/ (exists team, team ∈ teams (universe gm)
          /\ length (enemy_food (universe gm) (Team.index team)) = 0%nat).
Proof.
  unfold check_finished.
  destruct gm as [u nb gt nz pt ptt vs dl it gs tn dr vc cs].
  destruct gs as [bm fe bd tt bi ri rt fin tmt tw gd]. cbn.
  rewrite <- (forallb_truthy_false (λ team, enemy_food u (Team.index team))).
  destruct tw as [w|], gd as [g|], ri as [r|]; cbn;
    repeat case_bool_decide; cbn;
    try destruct (forallb _ _) eqn:E; cbn;
    (split; [intros ? | intros [[?|?]|[(r' & ? & ?)|?]]]);
    try done; try (left; left; done); try (left; right; done);
    try (right; left; eexists; split; [done | lia]);
    try (right; right; done);
    try (simplify_eq; lia).
Qed.

(** A recorded winner makes the next [check_finished] finish the match. *)
Lemma check_finished_winner gm :
  team_wins (game_state gm) ≠ None ->
  finished (game_state (check_finished gm)) = true.
Proof. intros Hw. apply check_finished_true. by left; left. Qed.

Lemma round_end_finished gm :
  finished (game_state (state_of (round_end gm)))
  = finished (game_state (check_finished gm)).
Proof.
  rewrite round_end_state.
  destruct (finish_checks_shape gm) as (tw & gd & c & ->).
  destruct (finish_checks gm); cbn; [|done].
  by destruct (finished (game_state (check_finished gm))) eqn:E;
    cbn -[check_finished]; rewrite E.
Qed.

(** C4.  [check_finished] leaves [finished] true exactly when a winner or a
    draw is already recorded, or the round index has reached [game_time],
    or some team has no food left to eat; and this is the value of
    [finished] with which the generator ends a round. *)
Theorem check_finished_iff gm :
  (finished (game_state (check_finished gm)) = true <->
     (team_wins (game_state gm) ≠ None \/ game_draw (game_state gm) ≠ None)
     \/ (exists r, round_index (game_state gm) = Some r /\ game_time gm <= r)
     \/ (exists team, team ∈ teams (universe gm)
           /\ length (enemy_food (universe gm) (Team.index team)) = 0%nat))
  /\ finished (game_state (state_of (round_end gm)))
     = finished (game_state (check_finished gm)).
Proof. split; [apply check_finished_true | apply round_end_finished]. Qed.

(** C3.  [check_winner] does nothing while the match is not finished and
    nothing when a winner (a disqualification included) or a draw is
    already recorded; otherwise it returns with the team of the strictly
    higher score in [team_wins] and no draw, or, for equal scores, with
    [game_draw] set and no winner, and with nothing else changed in the
    game state, the universe or the output.  Once it has decided, a
    further call changes nothing. *)
Theorem check_winner_spec gm :
  (finished (game_state gm) = false -> check_winner gm = Ok gm)
  /\ (team_wins (game_state gm) ≠ None \/ game_draw (game_state gm) ≠ None ->
      check_winner gm = Ok gm)
  /\ (forall t0 t1,
        finished (game_state gm) = true ->
        team_wins (game_state gm) = None ->
        game_draw (game_state gm) = None ->
        py_get (teams (universe gm)) 0 = Some t0 ->
        py_get (teams (universe gm)) 1 = Some t1 ->
        exists gm',
          check_winner gm = Ok gm'
          /\ (Team.score t0 > Team.score t1 ->
              team_wins (game_state gm') = Some 0
              /\ game_draw (game_state gm') = None)
          /\ (Team.score t0 < Team.score t1 ->
              team_wins (game_state gm') = Some 1
              /\ game_draw (game_state gm') = None)
          /\ (Team.score t0 = Team.score t1 ->
              team_wins (game_state gm') = None
              /\ game_draw (game_state gm') = Some true)
          /\ finished (game_state gm') = true
          /\ round_index (game_state gm') = round_index (game_state gm)
          /\ bot_id (game_state gm') = bot_id (game_state gm)
          /\ timeout_teams (game_state gm') = timeout_teams (game_state gm)
          /\ universe gm' = universe gm
          /\ console gm' = console gm)
  /\ (forall gm', check_winner gm = Ok gm' -> check_winner gm' = Ok gm').
Proof.
  unfold check_winner. split; [|split; [|split]].
  - by intros ->.
  - intros Hset. destruct (finished (game_state gm)); cbn; [|done].
    destruct Hset as [H%not_none_true | H%not_none_true]; rewrite H; cbn;
      [done | by rewrite orb_true_r].
  - intros t0 t1 Hf Hw Hd -> ->. rewrite Hf, Hw, Hd. cbn.
    repeat case_decide; eexists; (split; [done|]); cbn;
      rewrite ?Hf, ?Hw, ?Hd; repeat split; (done || lia).
  - intros gm'.
    destruct (finished (game_state gm)) eqn:Hf; cbn.
    2:{ intros [= <-]. by rewrite Hf. }
    destruct (not_none (team_wins (game_state gm))
              || not_none (game_draw (game_state gm))) eqn:Hn; cbn.
    { intros [= <-]. by rewrite Hf, Hn. }
    destruct (py_get (teams (universe gm)) 0); [|done].
    destruct (py_get (teams (universe gm)) 1); [|done].
    repeat case_decide; intros [= <-]; cbn; rewrite Hf; cbn;
      by rewrite ?orb_true_r.
Qed.

(** ** A single turn *)

(** The keys of the dictionary of legal moves, as [keys()] lists them. *)
Lemma legal_keys u p (mv : move) :
  mv ∈ (map_to_list (get_legal_moves u p)).*1
  <-> mv ∈ dom (get_legal_moves u p).
Proof.
  rewrite elem_of_dom, list_elem_of_fmap. split.
  - intros ([m q] & -> & Hin%elem_of_map_to_list). by exists q.
  - intros [q Hq]. exists (mv, q). split; [done|].
    by apply elem_of_map_to_list.
Qed.

Lemma fallback_moves_None u bot :
  stop ∉ dom (get_legal_moves u (Bot.current_pos bot)) <->
  fallback_moves u bot = None.
Proof.
  unfold fallback_moves. rewrite <- legal_keys. split.
  - intros H. by rewrite (py_remove_None _ _ H).
  - intros H Hin. apply (py_remove_Some stop) in Hin as [l' Hl'].
    by rewrite Hl' in H.
Qed.

(** Every move that the recovery may draw is legal, and is not [stop]
    when another legal move exists. *)
Lemma fallback_moves_Some u bot moves :
  fallback_moves u bot = Some moves ->
  moves ≠ []
  /\ forall mv, mv ∈ moves ->
       mv ∈ dom (get_legal_moves u (Bot.current_pos bot))
       /\ ((exists m', m' ∈ dom (get_legal_moves u (Bot.current_pos bot))
                       /\ m' ≠ stop) -> mv ≠ stop).
Proof.
  unfold fallback_moves. set (p := Bot.current_pos bot).
  destruct (py_remove stop (map_to_list (get_legal_moves u p)).*1)
    as [l'|] eqn:Hrem; [|done].
  cbn. intros [= <-].
  pose proof (py_remove_NoDup stop _ _
                (NoDup_fst_map_to_list (get_legal_moves u p)) Hrem) as Hl'.
  assert (stop ∈ dom (get_legal_moves u p)) as Hstop.
  { destruct (decide (stop ∈ dom (get_legal_moves u p))) as [|Hn]; [done|].
    apply (fallback_moves_None u bot) in Hn. unfold fallback_moves in Hn.
    fold p in Hn. by rewrite Hrem in Hn. }
  destruct l' as [|m0 l']; cbn.
  - split; [done|]. intros mv ->%list_elem_of_singleton. split; [done|].
    intros (m' & Hm' & Hne). exfalso.
    apply legal_keys in Hm'. by apply (elem_of_nil m'), Hl'.
  - split; [done|]. intros mv Hmv. apply Hl' in Hmv as [Hmv Hne].
    split; [by apply legal_keys | done].
Qed.

(** A raise of the [try] block leaves the universe and the game state as
    they were, the time account of the team and the draws apart. *)
Lemma play_bot_try_Raise n bot player_team gm e gm1 :
  play_bot_try env n bot player_team gm = Raise e gm1 ->
  exists d tt, gm1 = set_draws d (upd (set_team_time tt) gm).
Proof.
  unfold play_bot_try.
  assert (forall d, set_draws d gm
            = set_draws d (upd (set_team_time (team_time (game_state gm))) gm))
    as Heta by (intros; by destruct gm as [? ? ? ? ? ? ? ? ? []]).
  assert (gm = set_draws (draws gm) gm) as Hd by (by destruct gm).
  destruct (noiser gm) as [nz|]; cbn.
  - destruct (uniform_noise _ _ _ _ _) as [[u'|] d]; cbn.
    + destruct (get_move _ _ _ _ _); cbn.
      * destruct (py_get _ _); cbn; [|intros [= <- <-]; eauto].
        destruct (py_set _ _ _) as [tt'|]; cbn; [|intros [= <- <-]; eauto].
        destruct (move_bot _ _ _) as [[]|]; [done|].
        intros [= <- <-]. exists d, tt'. by destruct gm as [? ? ? ? ? ? ? ? ? []].
      * intros [= <- <-]; eauto.
      * intros [= <- <-]; eauto.
    + intros [= <- <-]; eauto.
  - destruct (get_move _ _ _ _ _); cbn.
    + destruct (py_get _ _); cbn; [|intros [= <- <-]; rewrite Hd; eauto].
      destruct (py_set _ _ _) as [tt'|]; cbn;
        [|intros [= <- <-]; rewrite Hd; eauto].
      destruct (move_bot _ _ _) as [[]|]; [done|].
      intros [= <- <-]. exists (draws gm), tt'.
      by destruct gm as [? ? ? ? ? ? ? ? ? []].
    + intros [= <- <-]; rewrite Hd; eauto.
    + intros [= <- <-]; rewrite Hd; eauto.
Qed.

(** How [_play_bot] continues after a failure of the [try] block. *)
Lemma play_bot_failure bot gm e :
  turn_failure env bot gm = Some e ->
  exists d tt,
    let gm1 := set_draws d (upd (set_team_time tt) (play_bot_begin bot gm)) in
    _play_bot env bot gm
    = match e with
      | IllegalMoveException | PlayerTimeout => play_bot_recover env bot gm1
      | PlayerDisconnected => Ok (play_bot_disconnected bot gm1)
      | _ => Raise e gm1
      end.
Proof.
  unfold turn_failure, _play_bot.
  replace (player_teams (play_bot_begin bot gm)) with (player_teams gm)
    by done.
  destruct (py_get (player_teams gm) (Bot.team_index bot)) as [pt|]; [|done].
  cbn -[play_bot_begin play_bot_try].
  destruct (play_bot_try _ _ _ _ _) as [|e' gm1] eqn:Htry; [done|].
  intros [= ->]. apply play_bot_try_Raise in Htry as (d & tt & ->).
  exists d, tt. by destruct e.
Qed.

(** What a completed recovery did. *)
Lemma play_bot_recover_Ok bot gm gm' :
  play_bot_recover env bot gm = Ok gm' ->
  exists n moves mv ms,
    py_get (timeout_teams (game_state gm)) (Bot.team_index bot) = Some n
    /\ py_get (timeout_teams (game_state gm')) (Bot.team_index bot)
       = Some (n + 1)
    /\ fallback_moves (universe gm) bot = Some moves
    /\ py_choice (rand env (draws gm)) moves = Some mv
    /\ move_bot (universe gm) (Bot.index bot) mv = Some (universe gm', ms)
    /\ team_wins (game_state gm')
       = (if decide (n + 1 = MAX_TIMEOUTS)
          then Some (1 - Bot.team_index bot)
          else team_wins (game_state gm))
    /\ finished (game_state gm') = finished (game_state gm).
Proof.
  unfold play_bot_recover.
  destruct (py_get _ _) as [n|] eqn:Hn; [|done].
  destruct (py_get_set _ _ _ (n + 1) Hn) as (tts' & -> & Hget).
  cbn -[fallback_moves].
  set (gm1 := if decide (n + 1 = MAX_TIMEOUTS) then _ else _).
  assert (universe gm1 = universe gm) as Hu by (subst gm1; by case_decide).
  assert (draws gm1 = draws gm) as Hd by (subst gm1; by case_decide).
  assert (timeout_teams (game_state gm1) = tts') as Ht
    by (subst gm1; by case_decide).
  assert (team_wins (game_state gm1)
          = if decide (n + 1 = MAX_TIMEOUTS)
            then Some (1 - Bot.team_index bot)
            else team_wins (game_state gm)) as Hw
    by (subst gm1; by case_decide).
  assert (finished (game_state gm1) = finished (game_state gm)) as Hf
    by (subst gm1; by case_decide).
  clearbody gm1. rewrite Hu, Hd.
  destruct (fallback_moves _ _) as [moves|]; [|done].
  destruct (py_choice _ _) as [mv|] eqn:Hch; [|done]. cbn.
  destruct (move_bot _ _ _) as [[u' ms]|] eqn:Hmv; [|done].
  intros [= <-]. exists n, moves, mv, ms. cbn. rewrite Ht, Hw, Hf. done.
Qed.

(** A recovery that raises has not touched the universe. *)
Lemma play_bot_recover_Raise bot gm e gm' :
  play_bot_recover env bot gm = Raise e gm' -> universe gm' = universe gm.
Proof.
  unfold play_bot_recover.
  destruct (py_get _ _) as [n|]; [|by intros [= <- <-]].
  destruct (py_set _ _ _) as [tts'|]; [|by intros [= <- <-]].
  cbn -[fallback_moves].
  set (gm1 := if decide (n + 1 = MAX_TIMEOUTS) then _ else _).
  assert (universe gm1 = universe gm) as Hu by (subst gm1; by case_decide).
  clearbody gm1.
  destruct (fallback_moves _ _) as [moves|]; [|by intros [= <- <-]].
  destruct (py_choice _ _) as [mv|]; [|by intros [= <- <-]]. cbn.
  destruct (move_bot _ _ _) as [[u' ms]|]; [done | by intros [= <- <-]].
Qed.

(** The recovery completes when the count of the team exists, [stop] is
    legal and [move_bot] accepts the legal moves. *)
Lemma play_bot_recover_total bot gm :
  is_Some (py_get (timeout_teams (game_state gm)) (Bot.team_index bot)) ->
  stop ∈ dom (get_legal_moves (universe gm) (Bot.current_pos bot)) ->
  (forall mv, mv ∈ dom (get_legal_moves (universe gm) (Bot.current_pos bot)) ->
              is_Some (move_bot (universe gm) (Bot.index bot) mv)) ->
  exists gm', play_bot_recover env bot gm = Ok gm'.
Proof.
  intros [n Hn] Hstop Hacc. unfold play_bot_recover. rewrite Hn.
  destruct (py_get_set _ _ _ (n + 1) Hn) as (tts' & -> & _).
  cbn -[fallback_moves].
  set (gm1 := if decide (n + 1 = MAX_TIMEOUTS) then _ else _).
  assert (universe gm1 = universe gm) as Hu by (subst gm1; by case_decide).
  clearbody gm1. rewrite Hu.
  destruct (fallback_moves (universe gm) bot) as [moves|] eqn:Hfb.
  2:{ by apply fallback_moves_None in Hfb. }
  apply fallback_moves_Some in Hfb as [Hne Hlegal].
  destruct (py_choice_elem (rand env (draws gm1)) moves Hne) as (mv & -> & Hin).
  cbn.
  destruct (Hacc mv) as [[u' ms] ->]; [by apply Hlegal|]. eauto.
Qed.

(** Without [stop] among the legal moves the recovery raises. *)
Lemma play_bot_recover_no_stop bot gm :
  stop ∉ dom (get_legal_moves (universe gm) (Bot.current_pos bot)) ->
  exists e gm',
    play_bot_recover env bot gm = Raise e gm'
    /\ (is_Some (py_get (timeout_teams (game_state gm)) (Bot.team_index bot))
        -> e = ValueError).
Proof.
  intros Hstop%fallback_moves_None. unfold play_bot_recover.
  destruct (py_get _ _) as [n|] eqn:Hn.
  2:{ eexists _, _. split; [done|]. by intros [? ?]. }
  destruct (py_get_set _ _ _ (n + 1) Hn) as (tts' & -> & _).
  cbn -[fallback_moves].
  set (gm1 := if decide (n + 1 = MAX_TIMEOUTS) then _ else _).
  assert (universe gm1 = universe gm) as Hu by (subst gm1; by case_decide).
  clearbody gm1. rewrite Hu, Hstop. eauto.
Qed.

Lemma play_bot_recovers bot gm :
  rejected_or_timeout env bot gm ->
  exists d tt,
    _play_bot env bot gm
    = play_bot_recover env bot
        (set_draws d (upd (set_team_time tt) (play_bot_begin bot gm))).
Proof.
  intros [H|H]; apply play_bot_failure in H as (d & tt & H); eauto.
Qed.

(** C8.  After a timeout or a rejected move, a turn that completes has
    applied a move that is legal at the position of the bot, and that is
    not [stop] when another legal move exists; and the turn completes when
    [stop] is legal and [move_bot] accepts the legal moves. *)
Theorem fallback_move_legal bot gm :
  rejected_or_timeout env bot gm ->
  let legal := dom (get_legal_moves (universe gm) (Bot.current_pos bot)) in
  (forall gm',
     _play_bot env bot gm = Ok gm' ->
     exists mv ms,
       mv ∈ legal
       /\ move_bot (universe gm) (Bot.index bot) mv = Some (universe gm', ms)
       /\ ((exists m', m' ∈ legal /\ m' ≠ stop) -> mv ≠ stop))
  /\ (is_Some (py_get (timeout_teams (game_state gm)) (Bot.team_index bot)) ->
      stop ∈ legal ->
      (forall mv, mv ∈ legal ->
                  is_Some (move_bot (universe gm) (Bot.index bot) mv)) ->
      exists gm', _play_bot env bot gm = Ok gm').
Proof.
  intros (d & tt & Hplay)%play_bot_recovers legal. rewrite Hplay. split.
  - intros gm' Hrec.
    apply play_bot_recover_Ok in Hrec
      as (n' & moves & mv & ms & _ & _ & Hfb & Hch & Hmv & _).
    cbn in Hfb, Hmv. exists mv, ms.
    apply fallback_moves_Some in Hfb as [_ Hlegal].
    apply py_choice_Some_elem, Hlegal in Hch as [? ?]. done.
  - intros Hn Hstop Hacc. by apply play_bot_recover_total.
Qed.

(** C10.  After a timeout or a rejected move, a turn at a position where
    [stop] is not legal raises (the ValueError of [remove], when the count
    of the team exists) and applies no move; so a turn that completes had
    [stop] among the legal moves. *)
Theorem recovery_needs_stop bot gm :
  rejected_or_timeout env bot gm ->
  let legal := dom (get_legal_moves (universe gm) (Bot.current_pos bot)) in
  (stop ∉ legal ->
   exists e gm',
     _play_bot env bot gm = Raise e gm'
     /\ universe gm' = universe gm
     /\ (is_Some (py_get (timeout_teams (game_state gm)) (Bot.team_index bot))
         -> e = ValueError))
  /\ (forall gm', _play_bot env bot gm = Ok gm' -> stop ∈ legal).
Proof.
  intros (d & tt & Hplay)%play_bot_recovers legal. rewrite Hplay. split.
  - intros Hstop.
    destruct (play_bot_recover_no_stop bot
                (set_draws d (upd (set_team_time tt) (play_bot_begin bot gm))))
      as (e & gm' & Hrec & He); [done|].
    exists e, gm'. rewrite Hrec. split; [done|].
    split; [|done]. by apply play_bot_recover_Raise in Hrec.
  - intros gm' Hrec. destruct (decide (stop ∈ legal)) as [|Hn]; [done|].
    destruct (play_bot_recover_no_stop bot
                (set_draws d (upd (set_team_time tt) (play_bot_begin bot gm))))
      as (e & gm'' & Hrec' & _); [done|]. congruence.
Qed.

(** ** The noiser *)

Lemma enemy_bots_elem (u : CTFUniverse Maze) ti i :
  i ∈ enemy_bots u ti
  <-> exists b, bots u !! i = Some b /\ Bot.team_index b ≠ ti.
Proof.
  unfold enemy_bots. rewrite list_elem_of_fmap. split.
  - intros ([j b] & -> & [Hp Hin]%list_elem_of_filter).
    apply elem_of_lookup_imap in Hin as (j' & b' & [= -> ->] & Hb). eauto.
  - intros (b & Hb & Hti). exists (i, b). split; [done|].
    apply list_elem_of_filter. split; [done|].
    apply elem_of_lookup_imap. eauto.
Qed.

Lemma enemy_bots_NoDup (u : CTFUniverse Maze) ti : NoDup (enemy_bots u ti).
Proof.
  unfold enemy_bots.
  eapply sublist_NoDup; [|apply fmap_sublist, sublist_filter].
  rewrite fmap_imap.
  rewrite (imap_ext _ (λ j _, id j)) by done.
  rewrite (imap_seq_0 (bots u) id), list_fmap_id. apply NoDup_seq.
Qed.

(** The loop of [uniform_noise] on the places [todo], none of them the
    place [k] of the mover: a bot outside [todo] is left alone; a bot in
    [todo] is left alone when a path of at most [sight_distance] steps
    leads to it, and is otherwise put on a cell that [random.choice] drew
    among the cells within [noise_radius], and marked. *)
Lemma noise_loop_spec (rnd : nat -> nat) nz k (mover : Bot.t) todo :
  NoDup todo -> k ∉ todo ->
  forall d (u u' : CTFUniverse Maze) d',
    bots u !! k = Some mover ->
    noise_loop rnd nz k todo d u = (Some u', d') ->
    (d <= d')%nat
    /\ length (bots u') = length (bots u)
    /\ (forall i, i ∉ todo -> bots u' !! i = bots u !! i)
    /\ forall i b, i ∈ todo -> bots u !! i = Some b ->
         let cells := pos_within (adjacency nz) (Bot.current_pos b)
                        (noise_radius nz) in
         if out_of_sight
              (length <$> a_star (adjacency nz) (Bot.current_pos mover)
                            (Bot.current_pos b)) (sight_distance nz)
         then exists r p, (d <= r < d')%nat
                /\ py_choice (rnd r) (elements cells) = Some p
                /\ p ∈ cells
                /\ bots u' !! i = Some (Bot.set_noised p b)
         else bots u' !! i = Some b.
Proof.
  induction todo as [|j todo IH]; intros Hnd Hk d u u' d' Hmover.
  - cbn. intros [= <- <-]. repeat split; [lia | by intros ? ? ?%elem_of_nil].
  - apply NoDup_cons in Hnd as [Hj Hnd].
    apply not_elem_of_cons in Hk as [Hkj Hk].
    cbn -[out_of_sight]. rewrite Hmover.
    destruct (bots u !! j) as [bj|] eqn:Hbj; [|done].
    destruct (out_of_sight _ _) eqn:Hsight.
    + destruct (py_choice _ _) as [p|] eqn:Hp; [|done].
      intros Hloop.
      apply IH in Hloop as (Hd & Hlen & Hout & Hin); [|done|done|].
      2:{ cbn. by rewrite list_lookup_insert_ne. }
      cbn in Hlen, Hout, Hin. rewrite length_insert in Hlen.
      split; [lia|]. split; [done|]. split.
      * intros i [Hij Hi]%not_elem_of_cons.
        rewrite Hout by done. by apply list_lookup_insert_ne.
      * intros i b [->|Hi]%elem_of_cons Hb.
        -- rewrite Hbj in Hb. injection Hb as <-. rewrite Hsight.
           exists d, p. split; [lia|]. split; [done|]. split.
           { apply elem_of_elements. by eapply py_choice_Some_elem. }
           rewrite Hout by done. apply list_lookup_insert_eq.
           by eapply lookup_lt_Some.
        -- assert (j ≠ i) as Hji by (by intros ->).
           specialize (Hin i b Hi). rewrite list_lookup_insert_ne in Hin by done.
           specialize (Hin Hb). revert Hin. case_match; [|done].
           intros (r & q & ? & ? & ? & ?). exists r, q.
           split; [lia | done].
    + intros Hloop.
      apply IH in Hloop as (Hd & Hlen & Hout & Hin); [|done|done|done].
      split; [done|]. split; [done|]. split.
      * intros i [Hij Hi]%not_elem_of_cons. by apply Hout.
      * intros i b [->|Hi]%elem_of_cons Hb.
        -- rewrite Hbj in Hb. injection Hb as <-. rewrite Hsight.
           by rewrite Hout.
        -- by apply Hin.
Qed.

(** The loop completes when the cells within [noise_radius] of every bot
    to noise are not empty. *)
Lemma noise_loop_total (rnd : nat -> nat) nz k (mover : Bot.t) todo :
  NoDup todo -> k ∉ todo ->
  forall d (u : CTFUniverse Maze),
    bots u !! k = Some mover ->
    (forall i b, i ∈ todo -> bots u !! i = Some b ->
       pos_within (adjacency nz) (Bot.current_pos b) (noise_radius nz) ≠ ∅) ->
    (forall i, i ∈ todo -> is_Some (bots u !! i)) ->
    exists u' d', noise_loop rnd nz k todo d u = (Some u', d').
Proof.
  induction todo as [|j todo IH]; intros Hnd Hk d u Hmover Hcells Hsome.
  - cbn. eauto.
  - apply NoDup_cons in Hnd as [Hj Hnd].
    apply not_elem_of_cons in Hk as [Hkj Hk].
    cbn -[out_of_sight]. rewrite Hmover.
    destruct (Hsome j) as [bj Hbj]; [by left|]. rewrite Hbj.
    assert (forall bs' i, i ∈ todo -> <[j:=bs']> (bots u) !! i = bots u !! i)
      as Hne.
    { intros bs' i Hi. apply list_lookup_insert_ne. by intros ->. }
    destruct (out_of_sight _ _).
    + destruct (py_choice_elem (rnd d)
                  (elements (pos_within (adjacency nz) (Bot.current_pos bj)
                               (noise_radius nz)))) as (p & -> & _).
      { intros Hel%elements_empty_inv%leibniz_equiv.
        by eapply Hcells; [left|..]. }
      apply IH; try done.
      * cbn. by rewrite list_lookup_insert_ne.
      * intros i b Hi. cbn. rewrite Hne by done. apply Hcells. by right.
      * intros i Hi. cbn. rewrite Hne by done. apply Hsome. by right.
    + apply IH; try done.
      * intros i b Hi. apply Hcells. by right.
      * intros i Hi. apply Hsome. by right.
Qed.

Lemma out_of_sight_false (o : option (list pos)) sight :
  out_of_sight (length <$> o) sight = false
  <-> exists path, o = Some path /\ Z.of_nat (length path) <= sight.
Proof.
  destruct o as [path|]; cbn.
  - rewrite bool_decide_eq_false. split.
    + intros H. exists path. split; [done | lia].
    + intros (? & [= <-] & ?). lia.
  - split; [done | by intros (? & ? & ?)].
Qed.

(** C7.  In the universe that [uniform_noise] returns for a mover, an
    opponent to which a path of at most [sight_distance] steps leads is
    as in the snapshot, true position and mark; an opponent without a path
    or with a longer one has [noisy] set and has for position the cell
    that [random.choice] drew among the cells within [noise_radius] of its
    true position, and is otherwise the same bot of the same team.  The
    call returns when these sets of cells are not empty.
    The draw is uniform in that it picks by the residue of the raw draw,
    and every cell of the set has one residue of its own. *)
Theorem uniform_noise_spec (rnd : nat -> nat) nz d (u : CTFUniverse Maze)
    bot_index mover :
  py_get (bots u) bot_index = Some mover ->
  let path_to (b : Bot.t) :=
    a_star (adjacency nz) (Bot.current_pos mover) (Bot.current_pos b) in
  let cells (b : Bot.t) :=
    pos_within (adjacency nz) (Bot.current_pos b) (noise_radius nz) in
  (forall u' d',
     uniform_noise rnd nz d u bot_index = (Some u', d') ->
     forall i b,
       bots u !! i = Some b ->
       Bot.team_index b ≠ Bot.team_index mover ->
       ((exists path, path_to b = Some path
                      /\ Z.of_nat (length path) <= sight_distance nz) ->
        bots u' !! i = Some b)
       /\ (path_to b = None
           \/ (exists path, path_to b = Some path
                            /\ Z.of_nat (length path) > sight_distance nz) ->
           exists r p b',
             (d <= r < d')%nat
             /\ py_choice (rnd r) (elements (cells b)) = Some p
             /\ p ∈ cells b
             /\ bots u' !! i = Some b'
             /\ Bot.current_pos b' = p
             /\ Bot.noisy b' = true
             /\ Bot.index b' = Bot.index b
             /\ Bot.team_index b' = Bot.team_index b))
  /\ ((forall b, b ∈ bots u -> Bot.team_index b ≠ Bot.team_index mover ->
                 cells b ≠ ∅) ->
      exists u' d', uniform_noise rnd nz d u bot_index = (Some u', d'))
  /\ (forall b cell,
        cell ∈ cells b ->
        exists j,
          (j < length (elements (cells b)))%nat
          /\ forall r, py_choice r (elements (cells b)) = Some cell
                       <-> (r `mod` length (elements (cells b)))%nat = j).
Proof.
  intros (k & Hk & Hmover)%py_get_Some_index path_to cells.
  unfold uniform_noise. rewrite Hk, Hmover.
  assert (k ∉ enemy_bots u (Bot.team_index mover)) as Hnotin.
  { intros (b & Hb & Hne)%enemy_bots_elem. congruence. }
  split; [|split].
  - intros u' d' Hloop i b Hb Hteam.
    eapply noise_loop_spec in Hloop as (_ & _ & _ & Hin);
      [|apply enemy_bots_NoDup|done|done].
    specialize (Hin i b). cbn zeta in Hin.
    split.
    + intros Hvis%out_of_sight_false. fold (path_to b) in Hin.
      rewrite Hvis in Hin. apply Hin; [|done]. apply enemy_bots_elem. eauto.
    + intros Hinv.
      assert (out_of_sight (length <$> path_to b) (sight_distance nz) = true)
        as Hout.
      { destruct Hinv as [-> | (path & -> & Hlong)]; [done|].
        cbn. apply bool_decide_eq_true. lia. }
      fold (path_to b) in Hin. rewrite Hout in Hin.
      destruct Hin as (r & p & Hr & Hp & Hcell & Hb'); [|done|].
      { apply enemy_bots_elem. eauto. }
      exists r, p, (Bot.set_noised p b). do 4 (split; [done|]). done.
  - intros Hcells. eapply noise_loop_total; [apply enemy_bots_NoDup|done..| |].
    + intros i b (b' & Hb' & Hne)%enemy_bots_elem Hb.
      rewrite Hb in Hb'. injection Hb' as <-.
      apply Hcells; [|done]. by eapply list_elem_of_lookup_2.
    + intros i (b & -> & _)%enemy_bots_elem. eauto.
  - intros b cell Hcell.
    apply py_choice_uniform; [apply NoDup_elements | by apply elem_of_elements].
Qed.

(** ** The generator *)

Lemma play_bot_try_frame n bot player_team gm :
  turn_frame gm (state_of (play_bot_try env n bot player_team gm))
  /\ turns (state_of (play_bot_try env n bot player_team gm)) = turns gm.
Proof.
  unfold play_bot_try.
  destruct (noiser gm) as [nz|]; cbn.
  - destruct (uniform_noise _ _ _ _ _) as [[u'|] d]; cbn; [|done].
    destruct (get_move _ _ _ _ _); cbn; [|done..].
    destruct (py_get _ _); cbn; [|done].
    destruct (py_set _ _ _); cbn; [|done].
    by destruct (move_bot _ _ _) as [[]|].
  - destruct (get_move _ _ _ _ _); cbn; [|done..].
    destruct (py_get _ _); cbn; [|done].
    destruct (py_set _ _ _); cbn; [|done].
    by destruct (move_bot _ _ _) as [[]|].
Qed.

Lemma play_bot_recover_frame bot gm :
  turn_frame gm (state_of (play_bot_recover env bot gm))
  /\ turns (state_of (play_bot_recover env bot gm)) = turns gm.
Proof.
  unfold play_bot_recover.
  destruct (py_get _ _) as [n|]; [|done].
  destruct (py_set _ _ _) as [tts'|]; [|done].
  cbn -[fallback_moves].
  set (gm1 := if decide (n + 1 = MAX_TIMEOUTS) then _ else _).
  assert (turn_frame gm gm1 /\ turns gm1 = turns gm) as Hfr
    by (subst gm1; by case_decide).
  clearbody gm1.
  destruct (fallback_moves _ _) as [moves|]; [|done].
  destruct (py_choice _ _) as [mv|]; [|done]. cbn.
  by destruct (move_bot _ _ _) as [[u' ms]|].
Qed.

#[local] Instance turn_frame_preorder :
  PreOrder (@turn_frame Maze Event Adjacency).
Proof.
  split.
  - by intros gm.
  - intros gm1 gm2 gm3 H12 H23. unfold turn_frame in *.
    destruct_and!. repeat split; congruence.
Qed.

Lemma play_bot_frame bot gm :
  turn_frame gm (state_of (_play_bot env bot gm))
  /\ turns (state_of (_play_bot env bot gm)) = S (turns gm).
Proof.
  unfold _play_bot.
  replace (player_teams (play_bot_begin bot gm)) with (player_teams gm)
    by done.
  destruct (py_get (player_teams gm) (Bot.team_index bot)) as [pt|]; [|done].
  cbn -[play_bot_begin play_bot_try].
  destruct (play_bot_try_frame (turns gm) bot pt (play_bot_begin bot gm))
    as [Htry Htn].
  assert (turn_frame gm (play_bot_begin bot gm)) as Hbegin by done.
  destruct (play_bot_try _ _ _ _ _) as [gm1|e gm1]; cbn in Htry, Htn.
  { split; [by etrans | done]. }
  assert (turn_frame gm gm1) as Hfr by (by etrans).
  destruct (play_bot_recover_frame bot gm1) as [Hrec Hrn].
  destruct e; cbn; (split; [by etrans | congruence]).
Qed.


(** A generator that suspends at [yield] has played a turn of a match
    that is not finished. *)
Lemma round_loop_Ok k gm gm' :
  round_loop env k gm = Ok gm' ->
  exists bot gm1,
    bots (universe gm) !! k = Some bot
    /\ _play_bot env bot gm = Ok gm1
    /\ gm' = set_step_iter (Some (GenAt (S k)))
               (update_viewers
                  (upd (λ gs, set_running_time
                                (running_time gs + turn_time env (turns gm)) gs)
                     gm1)).
Proof.
  unfold round_loop, round_end.
  destruct (bots (universe gm) !! k) as [bot|].
  - destruct (_play_bot env bot gm) as [gm1|] eqn:Hplay; [|done].
    cbn. intros [= <-]. eauto.
  - by destruct (finish_checks gm).
Qed.

(** What the checks at the ends of a round leave alone. *)
Lemma prepare_next_round_quiet gm :
  let gm' := prepare_next_round gm in
  game_time gm' = game_time gm /\ turns gm' = turns gm
  /\ viewers gm' = viewers gm /\ viewer_calls gm' = viewer_calls gm.
Proof.
  unfold prepare_next_round. destruct (finished (game_state gm)); [done|].
  cbn. destruct (round_index (game_state gm)); [|done]. by case_decide.
Qed.

Lemma check_finished_quiet gm :
  let gm' := check_finished gm in
  game_time gm' = game_time gm /\ turns gm' = turns gm
  /\ viewers gm' = viewers gm /\ viewer_calls gm' = viewer_calls gm
  /\ round_index (game_state gm') = round_index (game_state gm)
  /\ team_wins (game_state gm') = team_wins (game_state gm)
  /\ game_draw (game_state gm') = game_draw (game_state gm).
Proof.
  unfold check_finished. cbn.
  destruct (not_none _ || not_none _); cbn;
    destruct (py2_ge _ _); cbn; try done;
    by destruct (negb _).
Qed.

Lemma finish_checks_quiet gm :
  let gm' := state_of (finish_checks gm) in
  game_time gm' = game_time gm /\ turns gm' = turns gm
  /\ viewers gm' = viewers gm /\ viewer_calls gm' = viewer_calls gm
  /\ round_index (game_state gm') = round_index (game_state gm).
Proof.
  destruct (finish_checks_shape gm) as (tw & gd & c & ->). cbn.
  by destruct (check_finished_quiet gm) as (-> & -> & -> & -> & -> & _).
Qed.

Lemma ends_Ok (r : result (GameMaster Maze Event Adjacency) (GameMaster Maze Event Adjacency)) gm' :
  ends r = Ok gm' -> r = Ok gm'.
Proof. by destruct r. Qed.

(** A resumption that reaches [yield] has played one turn and told every
    viewer once, with the universe and the game state as the turn left
    them. *)
Lemma next_Ok gm gm' :
  finished (game_state gm) = false ->
  next env gm = Ok gm' ->
  finished (game_state gm') = false
  /\ turns gm' = S (turns gm)
  /\ viewers gm' = viewers gm
  /\ viewer_calls gm'
     = viewer_calls gm
         ++ map (λ viewer, Observe viewer (universe gm') (game_state gm'))
              (viewers gm).
Proof.
  intros Hf. unfold next.
  assert (forall k gm0,
            finished (game_state gm0) = false ->
            turns gm0 = turns gm -> viewers gm0 = viewers gm ->
            viewer_calls gm0 = viewer_calls gm ->
            round_loop env k gm0 = Ok gm' ->
            finished (game_state gm') = false
            /\ turns gm' = S (turns gm)
            /\ viewers gm' = viewers gm
            /\ viewer_calls gm'
               = viewer_calls gm
                   ++ map (λ viewer,
                             Observe viewer (universe gm') (game_state gm'))
                        (viewers gm)) as Hloop.
  { intros k gm0 Hf0 Ht Hv Hc (bot & gm1 & _ & Hplay & ->)%round_loop_Ok.
    destruct (play_bot_frame bot gm0) as [Hfr Htn]. rewrite Hplay in Hfr, Htn.
    cbn in Hfr, Htn. unfold turn_frame in Hfr. destruct_and!.
    cbn. repeat split; congruence. }
  destruct (_step_iter gm) as [[|k|]|]; try done.
  - intros Hs%ends_Ok. unfold round_start in Hs.
    destruct (prepare_next_round_quiet gm) as (_ & Ht1 & Hv1 & Hc1).
    set (gm1 := prepare_next_round gm) in *. clearbody gm1. cbn zeta in *.
    destruct (finished (game_state gm1)) eqn:Hf1; cbn in Hs.
    { by rewrite Hf1 in Hs. }
    destruct (finish_checks_quiet gm1) as (_ & Ht2 & Hv2 & Hc2 & _).
    destruct (finish_checks gm1) as [gm2|]; [|done]. cbn in *.
    destruct (finished (game_state gm2)) eqn:Hf2; [done|].
    eapply Hloop; [done|congruence..|done].
  - intros Hs%ends_Ok. by eapply Hloop.
Qed.

(** A turn raises nothing that the drivers take for the end of a round. *)
Lemma play_bot_Raise bot gm e gm' :
  _play_bot env bot gm = Raise e gm' ->
  e = IndexError \/ e = ValueError \/ e = IllegalMoveException.
Proof.
  unfold _play_bot.
  destruct (py_get _ _) as [pt|]; [|intros [= <- _]; by left].
  cbn -[play_bot_begin].
  assert (forall gm1 e1 gm2,
            play_bot_recover env bot gm1 = Raise e1 gm2 ->
            e1 = IndexError \/ e1 = ValueError \/ e1 = IllegalMoveException)
    as Hrec.
  { intros gm1 e1 gm2. unfold play_bot_recover.
    destruct (py_get _ _) as [n|]; [|intros [= <- _]; by left].
    destruct (py_set _ _ _) as [tts'|]; [|intros [= <- _]; by left].
    cbn -[fallback_moves].
    destruct (fallback_moves _ _) as [moves|]; [|intros [= <- _]; auto].
    destruct (py_choice _ _) as [mv|]; [|intros [= <- _]; auto]. cbn.
    destruct (move_bot _ _ _) as [[u' ms]|]; [done | intros [= <- _]; auto]. }
  assert (forall gm1 e1 gm2,
            play_bot_try env (turns gm) bot pt gm1 = Raise e1 gm2 ->
            e1 = IndexError \/ e1 = PlayerTimeout \/ e1 = PlayerDisconnected
            \/ e1 = IllegalMoveException) as Htry.
  { intros gm1 e1 gm2. unfold play_bot_try.
    destruct (noiser gm1) as [nz|]; cbn.
    - destruct (uniform_noise _ _ _ _ _) as [[u'|] d]; cbn;
        [|intros [= <- _]; auto].
      destruct (get_move _ _ _ _ _); cbn; [|intros [= <- _]; auto..].
      destruct (py_get _ _); cbn; [|intros [= <- _]; auto].
      destruct (py_set _ _ _); cbn; [|intros [= <- _]; auto].
      destruct (move_bot _ _ _) as [[]|]; [done | intros [= <- _]; auto].
    - destruct (get_move _ _ _ _ _); cbn; [|intros [= <- _]; auto..].
      destruct (py_get _ _); cbn; [|intros [= <- _]; auto].
      destruct (py_set _ _ _); cbn; [|intros [= <- _]; auto].
      destruct (move_bot _ _ _) as [[]|]; [done | intros [= <- _]; auto]. }
  destruct (play_bot_try _ _ _ _ _) as [|e1 gm1] eqn:Ht; [done|].
  apply Htry in Ht as [-> | [-> | [-> | ->]]]; try done.
  - intros [= <- _]. by left.
  - apply Hrec.
  - apply Hrec.
Qed.

Lemma finish_checks_Raise gm e gm' :
  finish_checks gm = Raise e gm' -> e = IndexError.
Proof.
  unfold finish_checks, check_winner, print_possible_winner.
  generalize (check_finished gm). intros gm0.
  destruct (negb _); cbn.
  2: destruct (_ || _); cbn.
  3: destruct (py_get _ 0); [|by intros [= <- _]].
  3: destruct (py_get _ 1); [|by intros [= <- _]].
  3: repeat case_decide; cbn.
  all: repeat (match goal with
               | |- context [match ?x with _ => _ end] => destruct x; cbn
               end);
    try done; by intros [= <- _].
Qed.

(** A generator that ends with StopIteration or GameFinished has played
    no turn, and has told every viewer once if the match is finished. *)
Lemma next_end gm e gm' :
  finished (game_state gm) = false ->
  next env gm = Raise e gm' ->
  e = StopIteration \/ e = GameFinished ->
  turns gm' = turns gm
  /\ viewers gm' = viewers gm
  /\ viewer_calls gm'
     = viewer_calls gm
         ++ (if finished (game_state gm')
             then map (λ viewer,
                         Observe viewer (universe gm') (game_state gm'))
                    (viewers gm)
             else []).
Proof.
  intros Hf. unfold next.
  assert (forall k gm0,
            finished (game_state gm0) = false ->
            turns gm0 = turns gm -> viewers gm0 = viewers gm ->
            viewer_calls gm0 = viewer_calls gm ->
            ends (round_loop env k gm0) = Raise e gm' ->
            e = StopIteration \/ e = GameFinished ->
            turns gm' = turns gm
            /\ viewers gm' = viewers gm
            /\ viewer_calls gm'
               = viewer_calls gm
                   ++ (if finished (game_state gm')
                       then map (λ viewer,
                                   Observe viewer (universe gm')
                                     (game_state gm'))
                              (viewers gm)
                       else [])) as Hloop.
  { intros k gm0 Hf0 Ht Hv Hc. unfold round_loop.
    destruct (bots (universe gm0) !! k) as [bot|].
    - destruct (_play_bot env bot gm0) as [|e1 gm1] eqn:Hplay; cbn; [done|].
      intros [= <- _] He. apply play_bot_Raise in Hplay.
      destruct He as [-> | ->], Hplay as [?|[?|?]]; done.
    - unfold round_end.
      destruct (finish_checks_quiet gm0) as (_ & Ht2 & Hv2 & Hc2 & _).
      destruct (finish_checks gm0) as [gm1|e1 gm1] eqn:Hfc; cbn in *.
      + intros [= <- <-] _.
        destruct (finished (game_state gm1)) eqn:Hf1; cbn; rewrite Hf1.
        * rewrite Ht2, Hv2, Hc2, Ht, Hv, Hc. done.
        * rewrite Ht2, Hv2, Hc2, Ht, Hv, Hc. by rewrite app_nil_r.
      + intros [= <- _] He. apply finish_checks_Raise in Hfc.
        destruct He as [-> | ->]; done. }
  destruct (_step_iter gm) as [[|k|]|]; try done.
  - unfold round_start.
    destruct (prepare_next_round_quiet gm) as (_ & Ht1 & Hv1 & Hc1).
    set (gm1 := prepare_next_round gm) in *. clearbody gm1. cbn zeta in *.
    destruct (finished (game_state gm1)) eqn:Hf1; cbn.
    { rewrite Hf1. cbn. intros [= <- <-] _. cbn. rewrite Hf1.
      rewrite Ht1, Hv1, Hc1. done. }
    destruct (finish_checks_quiet gm1) as (_ & Ht2 & Hv2 & Hc2 & _).
    destruct (finish_checks gm1) as [gm2|e2 gm2] eqn:Hfc; cbn in *.
    + destruct (finished (game_state gm2)) eqn:Hf2.
      * cbn. intros [= <- <-] _. cbn. rewrite Hf2.
        rewrite Ht2, Hv2, Hc2, Ht1, Hv1, Hc1. done.
      * intros Hr He. eapply Hloop; [done|congruence..|done|done].
    + intros [= <- _] He. apply finish_checks_Raise in Hfc.
      destruct He as [-> | ->]; done.
  - intros Hr He. by eapply Hloop.
  - intros [= <- <-] _. rewrite Hf. by rewrite app_nil_r.
  - intros [= <- _] [?|?]; done.
Qed.

Section Preserved.
Variable R : GameMaster Maze Event Adjacency -> GameMaster Maze Event Adjacency -> Prop.
Context {R_preorder : PreOrder R}.
Hypothesis R_prepare : forall gm,
  finished (game_state gm) = false -> R gm (prepare_next_round gm).
Hypothesis R_checks : forall gm,
  finished (game_state gm) = false -> R gm (state_of (finish_checks gm)).
Hypothesis R_viewers : forall gm, R gm (update_viewers gm).
Hypothesis R_turn : forall gm bot,
  finished (game_state gm) = false -> R gm (state_of (_play_bot env bot gm)).
Hypothesis R_clock : forall gm n,
  finished (game_state gm) = false ->
  R gm (upd (λ gs, set_running_time (running_time gs + turn_time env n) gs)
          gm).
Hypothesis R_iter : forall gm x, R gm (set_step_iter x gm).

Lemma ends_keeps gm r : R gm (state_of r) -> R gm (state_of (ends r)).
Proof. destruct r; cbn; [done|]. intros H. by etrans. Qed.

Lemma if_viewers_keeps gm (b : bool) :
  R gm (if b then update_viewers gm else gm).
Proof. by destruct b. Qed.

Lemma round_end_keeps gm :
  finished (game_state gm) = false -> R gm (state_of (round_end gm)).
Proof.
  intros Hf. rewrite round_end_state. cbn zeta.
  pose proof (R_checks gm Hf) as Hc.
  destruct (finish_checks gm); cbn in *; [|done].
  etrans; [done|]. apply if_viewers_keeps.
Qed.

Lemma round_loop_keeps k gm :
  finished (game_state gm) = false -> R gm (state_of (round_loop env k gm)).
Proof.
  intros Hf. unfold round_loop.
  destruct (bots (universe gm) !! k) as [bot|]; [|by apply round_end_keeps].
  pose proof (R_turn gm bot Hf) as Ht.
  destruct (play_bot_frame bot gm) as [Hfr _].
  destruct (_play_bot env bot gm) as [gm1|e gm1]; cbn in *; [|done].
  assert (finished (game_state gm1) = false) as Hf1.
  { unfold turn_frame in Hfr. destruct_and!. congruence. }
  etrans; [done|]. etrans; [by apply R_clock|]. etrans; [apply R_viewers|].
  apply R_iter.
Qed.

Lemma round_start_keeps gm :
  finished (game_state gm) = false -> R gm (state_of (round_start env gm)).
Proof.
  intros Hf. unfold round_start.
  pose proof (R_prepare gm Hf) as Hp.
  set (gm1 := prepare_next_round gm) in *. clearbody gm1.
  destruct (finished (game_state gm1)) eqn:Hf1; cbn.
  - rewrite Hf1. cbn. by etrans.
  - pose proof (R_checks gm1 Hf1) as Hc.
    destruct (finish_checks gm1) as [gm2|e gm2]; cbn in *; [|by etrans].
    destruct (finished (game_state gm2)) eqn:Hf2; cbn.
    + etrans; [done|]. by etrans.
    + etrans; [done|]. etrans; [done|]. by apply round_loop_keeps.
Qed.

Lemma next_keeps gm :
  finished (game_state gm) = false -> R gm (state_of (next env gm)).
Proof.
  intros Hf. unfold next.
  destruct (_step_iter gm) as [[|k|]|]; cbn; try done.
  - by apply ends_keeps, round_start_keeps.
  - by apply ends_keeps, round_loop_keeps.
Qed.

Lemma play_round_loop_keeps fuel : forall gm r,
  finished (game_state gm) = false ->
  play_round_loop env fuel gm = Some r -> R gm (state_of r).
Proof.
  induction fuel as [|fuel IH]; intros gm r Hf; [done|]. cbn.
  pose proof (next_keeps gm Hf) as Hn.
  destruct (next env gm) as [gm1|e gm1] eqn:Hnext; cbn in Hn.
  - intros Hr. etrans; [done|]. eapply IH; [|done].
    by apply next_Ok in Hnext as [? _].
  - destruct e; intros [= <-]; cbn; try done. by etrans.
Qed.

Lemma play_round_keeps fuel gm r :
  play_round env fuel gm = Some r -> R gm (state_of r).
Proof.
  unfold play_round. destruct (finished (game_state gm)) eqn:Hf.
  - by intros [= <-].
  - intros Hr. etrans; [|eapply play_round_loop_keeps; [|done]].
    + unfold ensure_step_iter. by destruct (_step_iter gm).
    + unfold ensure_step_iter. by destruct (_step_iter gm).
Qed.

Lemma play_step_keeps fuel : forall gm r,
  play_step env fuel gm = Some r -> R gm (state_of r).
Proof.
  induction fuel as [|fuel IH]; intros gm r; cbn;
    destruct (finished (game_state gm)) eqn:Hf; try by intros [= <-].
  all: assert (R gm (ensure_step_iter gm)) as He
         by (unfold ensure_step_iter; by destruct (_step_iter gm)).
  all: assert (finished (game_state (ensure_step_iter gm)) = false) as Hf'
         by (unfold ensure_step_iter; by destruct (_step_iter gm)).
  all: pose proof (next_keeps _ Hf') as Hn.
  all: destruct (next env (ensure_step_iter gm)) as [gm1|e gm1]; cbn in Hn.
  all: try (intros [= <-]; cbn; by trans (ensure_step_iter gm)).
  - destruct e; try done; intros [= <-]; cbn; by trans (ensure_step_iter gm).
  - destruct e; try (intros [= <-]; cbn; by trans (ensure_step_iter gm)).
    intros Hr%IH. trans (ensure_step_iter gm); [done|].
    trans gm1; [done|]. by trans (set_step_iter None gm1).
Qed.

Lemma play_loop_keeps fuel : forall gm r,
  play_loop env fuel gm = Some r -> R gm (state_of r).
Proof.
  induction fuel as [|fuel IH]; intros gm r; cbn;
    destruct (finished (game_state gm)) eqn:Hf; try by intros [= <-].
  fold (play_round env (S fuel) gm).
  destruct (play_round env (S fuel) gm) as [[gm1|e gm1]|] eqn:Hpr; [| |done].
  - intros Hr%IH. etrans; [|done]. by apply play_round_keeps in Hpr.
  - intros [= <-]. by apply play_round_keeps in Hpr.
Qed.

Hypothesis R_initial : forall gm, R gm (state_of (set_initial env gm)).
Hypothesis R_team : forall gm team team_name,
  R gm (state_of (register_team team team_name gm)).
Hypothesis R_viewer : forall gm viewer, R gm (register_viewer viewer gm).

Lemma play_keeps fuel gm r : play env fuel gm = Some r -> R gm (state_of r).
Proof.
  unfold play. pose proof (R_initial gm) as Hi.
  destruct (set_initial env gm) as [gm1|e gm1]; cbn in Hi; [|by intros [= <-]].
  destruct (play_loop env fuel gm1) as [[gm2|e gm2]|] eqn:Hl; [| |done].
  - apply play_loop_keeps in Hl. intros [= <-]. cbn in *.
    etrans; [done|]. by etrans.
  - apply play_loop_keeps in Hl. intros [= <-]. by etrans.
Qed.

Lemma call_keeps c gm r : call env c gm = Some r -> R gm (state_of r).
Proof.
  destruct c; cbn.
  - intros [= <-]. apply R_team.
  - intros [= <-]. apply R_viewer.
  - intros [= <-]. apply R_initial.
  - apply play_keeps.
  - apply play_round_keeps.
  - apply play_step_keeps.
Qed.

Lemma run_keeps cs : forall gm gm', run env cs gm = Some gm' -> R gm gm'.
Proof.
  induction cs as [|c cs IH]; intros gm gm'; cbn.
  - by intros [= <-].
  - destruct (call env c gm) as [r|] eqn:Hc; [|done]. cbn.
    intros Hr%IH. etrans; [|done]. by eapply call_keeps.
Qed.

End Preserved.

(** ** Invariants of the drivers *)

Lemma prepare_next_round_index gm :
  finished (game_state gm) = false ->
  round_index (game_state (prepare_next_round gm))
  = match round_index (game_state gm) with
    | None => Some 0
    | Some r => if decide (r < game_time gm) then Some (r + 1) else Some r
    end.
Proof.
  intros Hf. unfold prepare_next_round. rewrite Hf. cbn.
  destruct (round_index (game_state gm)) eqn:Hr; [|done].
  case_decide; cbn; by rewrite ?Hr.
Qed.

Lemma round_index_le_refl x : round_index_le x x.
Proof. destruct x; cbn; [lia | done]. Qed.

Lemma round_index_le_trans x y z :
  round_index_le x y -> round_index_le y z -> round_index_le x z.
Proof. destruct x, y, z; cbn; try done; lia. Qed.

#[local] Instance rounds_advance_preorder :
  PreOrder (@rounds_advance Maze Event Adjacency).
Proof.
  split.
  - intros gm. split; [done|]. split; [apply round_index_le_refl | auto].
  - intros gm1 gm2 gm3 (Hg12 & Hle12 & Hb12) (Hg23 & Hle23 & Hb23).
    split; [congruence|]. split; [by eapply round_index_le_trans|].
    intros Hgt Hb. apply Hb23; [by rewrite Hg12 | by apply Hb12].
Qed.

(** A step that keeps [game_time] and the round index. *)
Lemma rounds_advance_same gm gm' :
  game_time gm' = game_time gm ->
  round_index (game_state gm') = round_index (game_state gm) ->
  rounds_advance gm gm'.
Proof.
  intros Hg Hr. split; [done|]. rewrite Hr, Hg.
  split; [apply round_index_le_refl | auto].
Qed.

Lemma rounds_advance_prepare gm :
  finished (game_state gm) = false -> rounds_advance gm (prepare_next_round gm).
Proof.
  intros Hf. destruct (prepare_next_round_quiet gm) as (Hg & _).
  split; [done|]. rewrite Hg, (prepare_next_round_index gm Hf).
  destruct (round_index (game_state gm)) as [r|]; [|split; [done|]].
  - case_decide; cbn.
    + split; [lia|]. intros Hgt Hb r' [= <-]. specialize (Hb r eq_refl). lia.
    + split; [lia|]. auto.
  - intros Hgt _ r [= <-]. lia.
Qed.

Lemma rounds_advance_run cs gm gm' :
  run env cs gm = Some gm' -> rounds_advance gm gm'.
Proof.
  apply (run_keeps rounds_advance).
  - apply rounds_advance_prepare.
  - intros gm0 _.
    destruct (finish_checks_quiet gm0) as (? & _ & _ & _ & ?).
    by apply rounds_advance_same.
  - intros gm0. by apply rounds_advance_same.
  - intros gm0 bot _. destruct (play_bot_frame bot gm0) as [Hfr _].
    unfold turn_frame in Hfr. destruct_and!. by apply rounds_advance_same.
  - intros gm0 n _. by apply rounds_advance_same.
  - intros gm0 x. by apply rounds_advance_same.
  - intros gm0. destruct (set_initial_state gm0) as [vc ->].
    by apply rounds_advance_same.
  - intros gm0 team team_name. unfold register_team. cbn.
    case_decide; [by apply rounds_advance_same|].
    destruct (teams (universe gm0) !! _); by apply rounds_advance_same.
  - intros gm0 viewer. by apply rounds_advance_same.
Qed.

(** C6, as the code has it.  Along every sequence of calls the round
    index never decreases ([None], then the integers from 0) and
    [game_time] is left as it is.  On a controller with a non-negative
    [game_time], started before its first round or at a round index
    between 0 and [game_time], the round index never exceeds [game_time];
    with a negative [game_time] the first round still gets the index 0. *)
Theorem round_index_monotone_bounded cs gm gm' :
  run env cs gm = Some gm' ->
  game_time gm' = game_time gm
  /\ round_index_le (round_index (game_state gm))
       (round_index (game_state gm'))
  /\ (0 <= game_time gm ->
      (forall r, round_index (game_state gm) = Some r ->
                 0 <= r <= game_time gm) ->
      forall r, round_index (game_state gm') = Some r ->
                0 <= r <= game_time gm').
Proof. apply rounds_advance_run. Qed.

#[local] Instance outcome_kept_preorder :
  PreOrder (@outcome_kept Maze Event Adjacency).
Proof.
  split.
  - by intros gm.
  - intros gm1 gm2 gm3 [Hc12 Hf12] [Hc23 Hf23]. split; [auto|].
    intros Hf. rewrite Hf23; [by apply Hf12|]. by rewrite Hf12.
Qed.






(** ** Calls to the viewers *)

Lemma observe_calls_count viewer (u : CTFUniverse Maze)
    (gs : GameState Event) (vs : list Viewer) :
  length (filter (λ c, observed_by viewer c = true)
            (map (λ v, Observe v u gs) vs))
  = length (filter (λ v, v = viewer) vs).
Proof.
  induction vs as [|v vs IH]; [done|].
  rewrite map_cons, !filter_cons.
  destruct (decide (v = viewer)) as [->|Hne].
  - rewrite decide_True by (cbn; by apply bool_decide_eq_true_2).
    cbn [length]. by rewrite IH.
  - by rewrite decide_False by (cbn; by intros ?%bool_decide_eq_true).
Qed.

Lemma initial_calls_count viewer (u : CTFUniverse Maze) (vs : list Viewer) :
  filter (λ c : ViewerCall Maze Event, observed_by viewer c = true)
    (map (λ v, SetInitial v u) vs) = [].
Proof.
  induction vs as [|v vs IH]; [done|].
  by rewrite map_cons, filter_cons_False.
Qed.

Lemma observations_update_viewers viewer gm :
  observations viewer (update_viewers gm)
  = (observations viewer gm + registrations viewer gm)%nat.
Proof.
  unfold observations, registrations, update_viewers. cbn [viewer_calls set_viewer_calls].
  by rewrite filter_app, length_app, observe_calls_count.
Qed.

Lemma registrations_viewers viewer gm gm' :
  viewers gm' = viewers gm ->
  registrations viewer gm' = registrations viewer gm.
Proof. unfold registrations. by intros ->. Qed.

(** The calls that a resumption appended, counted. *)
Lemma observations_appended viewer gm gm' u gs (b : bool) :
  viewers gm' = viewers gm ->
  viewer_calls gm'
  = viewer_calls gm
      ++ (if b then map (λ v, Observe v u gs) (viewers gm) else []) ->
  observations viewer gm'
  = (observations viewer gm
     + if b then registrations viewer gm else 0)%nat.
Proof.
  intros Hv Hc. unfold observations. rewrite Hc, filter_app, length_app.
  f_equal. destruct b; [|done]. apply observe_calls_count.
Qed.

Lemma next_told gm r :
  finished (game_state gm) = false ->
  viewers_told gm ->
  next env gm = r ->
  match r with
  | Ok gm' => viewers_told gm' /\ finished (game_state gm') = false
  | Raise e gm' =>
    e = StopIteration \/ e = GameFinished -> viewers_told gm'
  end.
Proof.
  intros Hf Htold <-. destruct (next env gm) as [gm'|e gm'] eqn:Hn.
  - apply next_Ok in Hn as (Hf' & Ht & Hv & Hc); [|done].
    split; [|done]. intros viewer.
    rewrite (observations_appended viewer gm gm' _ _ true Hv Hc).
    rewrite (registrations_viewers viewer gm gm' Hv), Htold, Ht, Hf, Hf'. lia.
  - intros He. apply next_end in Hn as (Ht & Hv & Hc); [|done..].
    intros viewer.
    rewrite (observations_appended viewer gm gm' _ _ _ Hv Hc).
    rewrite (registrations_viewers viewer gm gm' Hv), Htold, Ht, Hf.
    destruct (finished (game_state gm')); lia.
Qed.

Lemma viewers_told_iter x gm : viewers_told gm -> viewers_told (set_step_iter x gm).
Proof. done. Qed.

Lemma play_round_loop_told fuel : forall gm gm',
  finished (game_state gm) = false ->
  viewers_told gm ->
  play_round_loop env fuel gm = Some (Ok gm') -> viewers_told gm'.
Proof.
  induction fuel as [|fuel IH]; intros gm gm' Hf Htold; [done|]. cbn.
  pose proof (next_told gm _ Hf Htold eq_refl) as Hn.
  destruct (next env gm) as [gm1|e gm1].
  - destruct Hn as [Ht1 Hf1]. by apply IH.
  - destruct e; try done; intros [= <-].
    + apply Hn. by right.
    + apply viewers_told_iter, Hn. by left.
Qed.

Lemma play_round_told fuel gm gm' :
  viewers_told gm -> play_round env fuel gm = Some (Ok gm') -> viewers_told gm'.
Proof.
  intros Htold. unfold play_round.
  destruct (finished (game_state gm)) eqn:Hf; [by intros [= <-]|].
  apply play_round_loop_told.
  - unfold ensure_step_iter. by destruct (_step_iter gm).
  - unfold ensure_step_iter. by destruct (_step_iter gm).
Qed.

Lemma play_step_told fuel : forall gm gm',
  viewers_told gm -> play_step env fuel gm = Some (Ok gm') -> viewers_told gm'.
Proof.
  induction fuel as [|fuel IH]; intros gm gm' Htold; cbn;
    destruct (finished (game_state gm)) eqn:Hf; try by intros [= <-].
  all: assert (viewers_told (ensure_step_iter gm)) as Ht
         by (unfold ensure_step_iter; by destruct (_step_iter gm)).
  all: assert (finished (game_state (ensure_step_iter gm)) = false) as Hf'
         by (unfold ensure_step_iter; by destruct (_step_iter gm)).
  all: pose proof (next_told _ _ Hf' Ht eq_refl) as Hn.
  all: destruct (next env (ensure_step_iter gm)) as [gm1|e gm1].
  all: try (intros [= <-]; by destruct Hn).
  - destruct e; try done. intros [= <-]. apply Hn. by right.
  - destruct e; try done.
    + intros [= <-]. apply Hn. by right.
    + apply IH, viewers_told_iter, Hn. by left.
Qed.

Lemma play_loop_told fuel : forall gm gm',
  viewers_told gm -> play_loop env fuel gm = Some (Ok gm') ->
  viewers_told gm' /\ finished (game_state gm') = true.
Proof.
  induction fuel as [|fuel IH]; intros gm gm' Htold; cbn;
    destruct (finished (game_state gm)) eqn:Hf; try by intros [= <-].
  fold (play_round env (S fuel) gm).
  destruct (play_round env (S fuel) gm) as [[gm1|e gm1]|] eqn:Hpr; try done.
  apply IH. by eapply play_round_told.
Qed.

(** C9, as the code has it.  A resumption of the generator that plays a
    turn calls [observe] once on every registered viewer, with the
    universe and the game state as the turn left them; [play_step] and
    [play_round] keep one call per turn and one more once the match is
    finished; and [play] adds a call of its own, so that it ends with two
    calls after those of the turns. *)
Theorem viewers_told_per_turn gm gm' :
  viewers_told gm ->
  (finished (game_state gm) = false ->
   next env gm = Ok gm' ->
   turns gm' = S (turns gm)
   /\ viewer_calls gm'
      = viewer_calls gm
          ++ map (λ viewer, Observe viewer (universe gm') (game_state gm'))
               (viewers gm))
  /\ (forall fuel,
        play_step env fuel gm = Some (Ok gm')
        \/ play_round env fuel gm = Some (Ok gm') ->
        viewers_told gm')
  /\ (forall fuel,
        play env fuel gm = Some (Ok gm') ->
        forall viewer,
          observations viewer gm'
          = (registrations viewer gm' * (turns gm' + 2))%nat).
Proof.
  intros Htold. split; [|split].
  - intros Hf Hn. by apply next_Ok in Hn as (_ & ? & _ & ?).
  - intros fuel [H|H]; [by eapply play_step_told | by eapply play_round_told].
  - intros fuel. unfold play.
    destruct (set_initial env gm) as [gm1|e gm1] eqn:Hi; [|done].
    apply set_initial_Ok in Hi.
    assert (viewers_told gm1) as Ht1.
    { intros viewer. specialize (Htold viewer). subst gm1.
      unfold observations, registrations in *. cbn.
      rewrite filter_app, length_app, Htold.
      rewrite initial_calls_count. cbn. lia. }
    destruct (play_loop env fuel gm1) as [[gm2|e gm2]|] eqn:Hl; try done.
    apply play_loop_told in Hl as [Ht2 Hf2]; [|done].
    intros [= <-] viewer. rewrite observations_update_viewers, Ht2, Hf2.
    replace (registrations viewer (update_viewers gm2))
      with (registrations viewer gm2) by done.
    replace (turns (update_viewers gm2)) with (turns gm2) by done. lia.
Qed.

End Properties.

(** * Termination of the drivers *)

Section Termination.
Context {Maze Event Adjacency : Type}.
Context {DM : Datamodel Maze Event} {GR : Graph Adjacency}.
Variable env : Env Maze.
Hypothesis keeps_bots : move_bot_keeps_bots.

Implicit Type gm : GameMaster Maze Event Adjacency.

Lemma play_bot_try_bots n bot player_team gm :
  length (bots (universe (state_of (play_bot_try env n bot player_team gm))))
  = length (bots (universe gm)).
Proof.
  unfold play_bot_try.
  destruct (noiser gm) as [nz|]; cbn.
  - destruct (uniform_noise _ _ _ _ _) as [[u'|] d]; cbn; [|done].
    destruct (get_move _ _ _ _ _); cbn; [|done..].
    destruct (py_get _ _); cbn; [|done].
    destruct (py_set _ _ _); cbn; [|done].
    destruct (move_bot _ _ _) as [[u2 ms]|] eqn:Hmv; cbn; [|done].
    by apply keeps_bots in Hmv.
  - destruct (get_move _ _ _ _ _); cbn; [|done..].
    destruct (py_get _ _); cbn; [|done].
    destruct (py_set _ _ _); cbn; [|done].
    destruct (move_bot _ _ _) as [[u2 ms]|] eqn:Hmv; cbn; [|done].
    by apply keeps_bots in Hmv.
Qed.

Lemma play_bot_recover_bots bot gm :
  length (bots (universe (state_of (play_bot_recover env bot gm))))
  = length (bots (universe gm)).
Proof.
  unfold play_bot_recover.
  destruct (py_get _ _) as [n|]; [|done].
  destruct (py_set _ _ _) as [tts'|]; [|done].
  cbn -[fallback_moves].
  set (gm1 := if decide (n + 1 = MAX_TIMEOUTS) then _ else _).
  assert (universe gm1 = universe gm) as Hu by (subst gm1; by case_decide).
  clearbody gm1. rewrite <- Hu.
  destruct (fallback_moves _ _) as [moves|]; [|done].
  destruct (py_choice _ _) as [mv|]; [|done]. cbn.
  destruct (move_bot _ _ _) as [[u' ms]|] eqn:Hmv; cbn; [|done].
  by apply keeps_bots in Hmv.
Qed.

Lemma play_bot_bots bot gm :
  length (bots (universe (state_of (_play_bot env bot gm))))
  = length (bots (universe gm)).
Proof.
  unfold _play_bot.
  replace (player_teams (play_bot_begin bot gm)) with (player_teams gm)
    by done.
  destruct (py_get (player_teams gm) (Bot.team_index bot)) as [pt|]; [|done].
  cbn -[play_bot_begin play_bot_try].
  pose proof (play_bot_try_bots (turns gm) bot pt (play_bot_begin bot gm))
    as Htry.
  destruct (play_bot_try _ _ _ _ _) as [gm1|e gm1]; cbn in Htry; [done|].
  pose proof (play_bot_recover_bots bot gm1) as Hrec.
  destruct e; cbn; congruence.
Qed.

Lemma prepare_next_round_universe gm :
  universe (prepare_next_round gm) = universe gm.
Proof.
  unfold prepare_next_round. destruct (finished (game_state gm)); [done|].
  cbn. destruct (round_index (game_state gm)); [|done].
  case_decide; reflexivity.
Qed.

(** The checks at the ends of a round leave the universe alone. *)
Lemma finish_checks_universe gm :
  universe (state_of (finish_checks gm)) = universe gm
  /\ finished (game_state (state_of (finish_checks gm)))
     = finished (game_state (check_finished gm)).
Proof.
  destruct (finish_checks_shape gm) as (tw & gd & c & ->). cbn.
  split; [|done]. unfold check_finished. cbn.
  destruct (not_none _ || not_none _); cbn;
    destruct (py2_ge _ _); cbn; try done; by destruct (negb _).
Qed.

(** A match that the checks leave unfinished has rounds to go. *)
Lemma unfinished_round_index gm r :
  finished (game_state (state_of (finish_checks gm))) = false ->
  round_index (game_state gm) = Some r -> r < game_time gm.
Proof.
  destruct (finish_checks_universe gm) as [_ ->]. intros Hf Hr.
  destruct (decide (r < game_time gm)) as [|Hge]; [done|].
  assert (finished (game_state (check_finished gm)) = true) as Ht; [|congruence].
  apply check_finished_true. right. left. exists r. split; [done | lia].
Qed.

(** What a round of the generator does to the count of rounds. *)
Lemma round_loop_rounds k gm :
  let gm' := state_of (round_loop env k gm) in
  game_time gm' = game_time gm
  /\ round_index (game_state gm') = round_index (game_state gm)
  /\ length (bots (universe gm')) = length (bots (universe gm)).
Proof.
  unfold round_loop.
  destruct (bots (universe gm) !! k) as [bot|].
  - destruct (play_bot_frame env bot gm) as [Hfr _].
    pose proof (play_bot_bots bot gm) as Hb.
    unfold turn_frame in Hfr. destruct_and!.
    destruct (_play_bot env bot gm) as [gm1|e gm1]; cbn in *; done.
  - rewrite round_end_state. cbn zeta.
    destruct (finish_checks_quiet gm) as (Hg & _ & _ & _ & Hr).
    destruct (finish_checks_universe gm) as [Hu _].
    destruct (finish_checks gm); cbn in *; [|by rewrite Hu].
    destruct (finished _); cbn; by rewrite Hu.
Qed.

Lemma round_loop_GameFinished k gm gm' :
  round_loop env k gm ≠ Raise GameFinished gm'.
Proof.
  unfold round_loop, round_end.
  destruct (bots (universe gm) !! k) as [bot|].
  - destruct (_play_bot env bot gm) as [gm1|e gm1] eqn:Hplay; cbn; [done|].
    apply play_bot_Raise in Hplay. intros [= -> _].
    by destruct Hplay as [?|[?|?]].
  - destruct (finish_checks gm) as [gm1|e gm1] eqn:Hfc; cbn; [done|].
    apply finish_checks_Raise in Hfc. by intros [= -> _].
Qed.

Lemma round_start_rounds gm gm' :
  finished (game_state gm) = false ->
  round_start env gm = Ok gm' \/ round_start env gm = Raise StopIteration gm' ->
  game_time gm' = game_time gm
  /\ length (bots (universe gm')) = length (bots (universe gm))
  /\ (rounds_to_go gm' + 1 <= rounds_to_go gm)%nat.
Proof.
  intros Hf. unfold round_start.
  destruct (prepare_next_round_quiet gm) as (Hg1 & _).
  pose proof (prepare_next_round_index gm Hf) as Hr1.
  pose proof (prepare_next_round_universe gm) as Hu1.
  set (gm1 := prepare_next_round gm) in *. clearbody gm1. cbn zeta in *.
  destruct (finished (game_state gm1)) eqn:Hf1; cbn.
  { rewrite Hf1. cbn. by intros [?|?]. }
  destruct (finish_checks_quiet gm1) as (Hg2 & _ & _ & _ & Hr2).
  destruct (finish_checks_universe gm1) as [Hu2 _].
  pose proof (unfinished_round_index gm1) as Hlt.
  destruct (finish_checks gm1) as [gm2|e gm2] eqn:Hfc; cbn in *.
  2:{ apply finish_checks_Raise in Hfc as ->. by intros [?|?]. }
  destruct (finished (game_state gm2)) eqn:Hf2; [by intros [?|?]|].
  destruct (round_loop_rounds 0 gm2) as (Hg3 & Hr3 & Hb3).
  intros Hres.
  assert (state_of (round_loop env 0 gm2) = gm') as Hst
    by (destruct Hres as [-> | ->]; done).
  rewrite Hst in Hg3, Hr3, Hb3.
  split; [congruence|]. split; [congruence|].
  unfold rounds_to_go. rewrite Hr3, Hr2, Hg3, Hg2, Hg1.
  destruct (round_index (game_state gm)) as [r|].
  - case_decide; rewrite Hr1 in *.
    + specialize (Hlt _ eq_refl eq_refl). lia.
    + specialize (Hlt _ eq_refl eq_refl). lia.
  - rewrite Hr1 in *. specialize (Hlt _ eq_refl eq_refl). lia.
Qed.

Lemma round_start_GameFinished gm gm' :
  round_start env gm = Raise GameFinished gm' ->
  finished (game_state gm') = true.
Proof.
  unfold round_start.
  set (gm1 := prepare_next_round gm). clearbody gm1.
  destruct (finished (game_state gm1)) eqn:Hf1; cbn.
  { rewrite Hf1. by intros [= <-]. }
  destruct (finish_checks gm1) as [gm2|e gm2] eqn:Hfc; cbn.
  - destruct (finished (game_state gm2)) eqn:Hf2; [by intros [= <-]|].
    intros H. by apply round_loop_GameFinished in H.
  - apply finish_checks_Raise in Hfc. by intros [= -> _].
Qed.

(** A resumption that reaches [yield] has moved the list iterator one
    place on, inside the list. *)
Lemma next_Ok_iter gm gm' :
  next env gm = Ok gm' ->
  exists k,
    _step_iter gm' = Some (GenAt (S k))
    /\ (k < length (bots (universe gm)))%nat
    /\ length (bots (universe gm')) = length (bots (universe gm))
    /\ (_step_iter gm = Some (GenAt k)
        \/ (_step_iter gm = Some GenFresh /\ k = 0%nat)).
Proof.
  unfold next.
  assert (forall k gm0,
            round_loop env k gm0 = Ok gm' ->
            _step_iter gm' = Some (GenAt (S k))
            /\ (k < length (bots (universe gm0)))%nat
            /\ length (bots (universe gm')) = length (bots (universe gm0)))
    as Hloop.
  { intros k gm0 Hl. destruct (round_loop_rounds k gm0) as (_ & _ & Hb).
    rewrite Hl in Hb. cbn in Hb.
    apply round_loop_Ok in Hl as (bot & gm1 & Hbot & _ & ->).
    split; [done|]. split; [by eapply lookup_lt_Some | done]. }
  destruct (_step_iter gm) as [[|k|]|]; try done.
  - intros Hs%ends_Ok. unfold round_start in Hs.
    pose proof (prepare_next_round_universe gm) as Hu1.
    set (gm1 := prepare_next_round gm) in *. clearbody gm1.
    destruct (finished (game_state gm1)) eqn:Hf1; cbn in Hs.
    { by rewrite Hf1 in Hs. }
    destruct (finish_checks_universe gm1) as [Hu2 _].
    destruct (finish_checks gm1) as [gm2|]; [|done]. cbn in *.
    destruct (finished (game_state gm2)); [done|].
    apply Hloop in Hs as (? & ? & ?). exists 0%nat.
    rewrite <- Hu1, <- Hu2. split_and!; auto.
  - intros Hs%ends_Ok. apply Hloop in Hs as (? & ? & ?). exists k.
    split_and!; auto.
Qed.

(** A resumption that ends with GameFinished leaves a finished match. *)
Lemma next_GameFinished gm gm' :
  next env gm = Raise GameFinished gm' -> finished (game_state gm') = true.
Proof.
  unfold next. destruct (_step_iter gm) as [[|k|]|]; try done.
  - destruct (round_start env gm) as [|e gm1] eqn:Hs; [done|].
    cbn. intros [= -> <-]. by apply round_start_GameFinished in Hs.
  - destruct (round_loop env k gm) as [|e gm1] eqn:Hl; [done|].
    cbn. intros [= -> <-]. by apply round_loop_GameFinished in Hl.
Qed.

(** A resumption that yields or ends the round has not added to the
    rounds to go, and has taken one off if it began the round. *)
Lemma next_progress gm gm' :
  finished (game_state gm) = false ->
  next env gm = Ok gm' \/ next env gm = Raise StopIteration gm' ->
  game_time gm' = game_time gm
  /\ length (bots (universe gm')) = length (bots (universe gm))
  /\ (rounds_to_go gm'
      + match _step_iter gm with Some GenFresh => 1 | _ => 0 end
      <= rounds_to_go gm)%nat.
Proof.
  intros Hf. unfold next. destruct (_step_iter gm) as [[|k|]|].
  - intros Hres.
    assert (exists gm1,
              (round_start env gm = Ok gm1
               \/ round_start env gm = Raise StopIteration gm1)
              /\ game_time gm' = game_time gm1
              /\ universe gm' = universe gm1
              /\ game_state gm' = game_state gm1) as (gm1 & Hs & Hg & Hu & Hgs).
    { destruct (round_start env gm) as [gm1|e gm1]; cbn in Hres.
      - destruct Hres as [[= <-]|[=]]. eauto 6.
      - destruct Hres as [[=]|[= -> <-]]. eauto 6. }
    apply round_start_rounds in Hs as (Hg1 & Hb1 & Hr1); [|done].
    unfold rounds_to_go in *. rewrite Hg, Hu, Hgs. auto.
  - intros Hres.
    destruct (round_loop_rounds k gm) as (Hg & Hr & Hb).
    assert (game_time gm' = game_time (state_of (round_loop env k gm))
            /\ universe gm' = universe (state_of (round_loop env k gm))
            /\ game_state gm' = game_state (state_of (round_loop env k gm)))
      as (Hg' & Hu' & Hgs').
    { destruct (round_loop env k gm) as [gm1|e gm1]; cbn in Hres.
      - by destruct Hres as [[= <-]|[=]].
      - by destruct Hres as [[=]|[= -> <-]]. }
    unfold rounds_to_go. rewrite Hg', Hu', Hgs', Hg, Hr, Hb.
    split; [done|]. split; [done | lia].
  - intros [[=]|[= <-]]. split; [done|]. split; [done | lia].
  - by intros [[=]|[=]].
Qed.

(** ** Enough fuel *)

Lemma play_round_loop_total fuel : forall gm k,
  _step_iter gm = Some (GenAt k) ->
  (length (bots (universe gm)) - k < fuel)%nat ->
  exists r, play_round_loop env fuel gm = Some r.
Proof.
  induction fuel as [|fuel IH]; intros gm k Hit Hlt; [lia|]. cbn.
  destruct (next env gm) as [gm1|e gm1] eqn:Hn.
  - apply next_Ok_iter in Hn as (k' & Hit' & Hk & Hb & [Hk' | [Hk' _]]);
      [|congruence].
    assert (k' = k) as -> by congruence.
    apply (IH gm1 (S k)); [done | lia].
  - destruct e; eauto.
Qed.

(** [play_round] returns: the resumptions it makes are at most one more
    than there are bots, and one to end the round. *)
Lemma play_round_total gm fuel :
  (length (bots (universe gm)) + 2 <= fuel)%nat ->
  exists r, play_round env fuel gm = Some r.
Proof.
  intros Hfuel. unfold play_round.
  destruct (finished (game_state gm)); [eauto|].
  assert (exists g, _step_iter (ensure_step_iter gm) = Some g
                    /\ universe (ensure_step_iter gm) = universe gm)
    as (g & Hg & Hu).
  { unfold ensure_step_iter.
    destruct (_step_iter gm) as [g|] eqn:Hit; eexists; split; done. }
  set (gm0 := ensure_step_iter gm) in *. clearbody gm0.
  destruct g as [|k|].
  - destruct fuel as [|fuel]; [lia|]. cbn.
    destruct (next env gm0) as [gm1|e gm1] eqn:Hn.
    + apply next_Ok_iter in Hn as (k' & Hit' & Hk & Hb & [Hk' | [_ ->]]);
        [congruence|].
      apply (play_round_loop_total fuel gm1 1); [done|]. rewrite Hb, Hu. lia.
    + destruct e; eauto.
  - apply (play_round_loop_total fuel gm0 k); [done|]. rewrite Hu. lia.
  - destruct fuel as [|fuel]; [lia|]. cbn. unfold next. rewrite Hg. eauto.
Qed.

(** A round that [play_round] completes on an unfinished match finishes
    the match or leaves fewer rounds. *)
Lemma play_round_loop_progress fuel : forall gm gm',
  finished (game_state gm) = false ->
  play_round_loop env fuel gm = Some (Ok gm') ->
  finished (game_state gm') = true
  \/ (_step_iter gm' = None
      /\ game_time gm' = game_time gm
      /\ length (bots (universe gm')) = length (bots (universe gm))
      /\ (rounds_to_go gm'
          + match _step_iter gm with Some GenFresh => 1 | _ => 0 end
          <= rounds_to_go gm)%nat).
Proof.
  induction fuel as [|fuel IH]; intros gm gm' Hf; [done|]. cbn.
  destruct (next env gm) as [gm1|e gm1] eqn:Hn.
  - intros Hl.
    destruct (next_progress gm gm1 Hf) as (Hg & Hb & Hr); [by left|].
    pose proof Hn as (k & Hit & _)%next_Ok_iter.
    apply next_Ok in Hn as (Hf1 & _); [|done].
    apply IH in Hl as [Hfin | (Hit' & Hg' & Hb' & Hr')]; [by left| |done].
    right. rewrite Hit in Hr'. split; [done|].
    split; [congruence|]. split; [congruence | lia].
  - destruct e; try done; intros [= <-].
    + left. by apply next_GameFinished in Hn.
    + right. destruct (next_progress gm gm1 Hf) as (Hg & Hb & Hr);
        [by right|]. done.
Qed.

Lemma play_round_progress fuel gm gm' :
  finished (game_state gm) = false ->
  play_round env fuel gm = Some (Ok gm') ->
  finished (game_state gm') = true
  \/ (game_time gm' = game_time gm
      /\ length (bots (universe gm')) = length (bots (universe gm))
      /\ (rounds_left gm' < rounds_left gm)%nat).
Proof.
  intros Hf. unfold play_round. rewrite Hf. intros Hl.
  apply play_round_loop_progress in Hl as [Hfin | (Hit & Hg & Hb & Hr)];
    [by left | |].
  2:{ unfold ensure_step_iter. by destruct (_step_iter gm). }
  right. unfold rounds_left. rewrite Hit.
  unfold ensure_step_iter in *.
  destruct (_step_iter gm) as [[|k|]|]; cbn in *;
    (split; [done|]; split; [done|]; unfold rounds_to_go in *; cbn in *; lia).
Qed.

Lemma play_loop_total m : forall gm fuel,
  (rounds_left gm < m)%nat ->
  (length (bots (universe gm)) + 2 + m <= fuel)%nat ->
  exists r, play_loop env fuel gm = Some r.
Proof.
  induction m as [|m IH]; intros gm fuel Hm Hfuel; [lia|].
  destruct fuel as [|fuel]; [lia|]. cbn.
  destruct (finished (game_state gm)) eqn:Hf; [eauto|].
  fold (play_round env (S fuel) gm).
  destruct (play_round_total gm (S fuel)) as [r Hr]; [lia|]. rewrite Hr.
  destruct r as [gm1|e gm1]; [|eauto].
  apply play_round_progress in Hr as [Hfin | (Hg & Hb & Hlt)]; [| |done].
  - destruct fuel; cbn; rewrite Hfin; eauto.
  - apply IH; [lia|]. rewrite Hb. lia.
Qed.

(** [play] returns, with a result or with what a turn raised: it makes at
    most one call of [play_round] for each of the rounds left. *)
Lemma play_total gm fuel :
  (length (bots (universe gm)) + rounds_left gm + 3 <= fuel)%nat ->
  exists r, play env fuel gm = Some r.
Proof.
  intros Hfuel. unfold play.
  destruct (set_initial env gm) as [gm1|e gm1] eqn:Hi; [|eauto].
  apply set_initial_Ok in Hi.
  destruct (play_loop_total (S (rounds_left gm)) gm1 fuel) as [r Hr].
  - subst gm1. unfold rounds_left, rounds_to_go. cbn. lia.
  - subst gm1. cbn. lia.
  - rewrite Hr. destruct r; eauto.
Qed.

(** With a bot to play, [play_step] calls itself at most once. *)
Lemma play_step_total gm fuel :
  bots (universe gm) ≠ [] -> (1 <= fuel)%nat ->
  exists r, play_step env fuel gm = Some r.
Proof.
  intros Hbots Hfuel.
  assert (forall f gm0,
            _step_iter gm0 = None ->
            length (bots (universe gm0)) = length (bots (universe gm)) ->
            exists r, play_step env f gm0 = Some r) as Hfresh.
  { intros f gm0 Hit Hb.
    assert (match next env (ensure_step_iter gm0) with
            | Raise StopIteration _ => False
            | _ => True
            end) as Hnext.
    { unfold ensure_step_iter, next. rewrite Hit. cbn. unfold round_start.
      pose proof (prepare_next_round_universe gm0) as Hu1.
      set (gm1 := prepare_next_round (set_step_iter (Some GenFresh) gm0)) in *.
      assert (universe gm1 = universe gm0) as Hu1'.
      { subst gm1. by rewrite prepare_next_round_universe. }
      clearbody gm1.
      destruct (finished (game_state gm1)) eqn:Hf1; cbn.
      { by rewrite Hf1. }
      destruct (finish_checks_universe gm1) as [Hu2 _].
      destruct (finish_checks gm1) as [gm2|e gm2] eqn:Hfc; cbn in *.
      2:{ by apply finish_checks_Raise in Hfc as ->. }
      destruct (finished (game_state gm2)); [done|].
      unfold round_loop.
      destruct (bots (universe gm2) !! 0%nat) as [bot|] eqn:Hbot.
      - destruct (_play_bot env bot gm2) as [|e gm3] eqn:Hplay; cbn; [done|].
        apply play_bot_Raise in Hplay. by destruct Hplay as [->|[->| ->]].
      - apply lookup_ge_None in Hbot. rewrite Hu2, Hu1', Hb in Hbot.
        destruct (bots (universe gm)); [done | cbn in Hbot; lia]. }
    destruct f; cbn; destruct (finished (game_state gm0)); eauto;
      destruct (next env (ensure_step_iter gm0)) as [|[] ?]; by eauto. }
  destruct fuel as [|fuel]; [lia|]. cbn.
  destruct (finished (game_state gm)) eqn:Hf; [eauto|].
  assert (finished (game_state (ensure_step_iter gm)) = false
          /\ universe (ensure_step_iter gm) = universe gm) as [Hf' Hu].
  { unfold ensure_step_iter. by destruct (_step_iter gm). }
  destruct (next env (ensure_step_iter gm)) as [gm1|e gm1] eqn:Hn; [eauto|].
  destruct e; eauto.
  apply Hfresh; [done|].
  destruct (next_progress _ gm1 Hf') as (_ & Hb & _); [by right|].
  cbn. by rewrite Hb, Hu.
Qed.

End Termination.

(** * Registration, turns and rounds *)

Section Registration.
Context {Maze Event Adjacency : Type}.
Context {DM : Datamodel Maze Event} {GR : Graph Adjacency}.
Variable env : Env Maze.

Implicit Type gm : GameMaster Maze Event Adjacency.

Lemma register_team_state team team_name gm :
  let gm' := state_of (register_team team team_name gm) in
  let place := length (player_teams gm) in
  player_teams gm' = player_teams gm ++ [team]
  /\ player_teams_timeouts gm' = player_teams_timeouts gm ++ [0]
  /\ game_state gm' = game_state gm
  /\ viewers gm' = viewers gm
  /\ viewer_calls gm' = viewer_calls gm
  /\ length (teams (universe gm')) = length (teams (universe gm))
  /\ initials gm' = initials gm
  /\ maze (universe gm') = maze (universe gm)
  /\ bots (universe gm') = bots (universe gm)
  /\ (forall j, j ≠ place ->
        teams (universe gm') !! j = teams (universe gm) !! j)
  /\ (forall tm, teams (universe gm) !! place = Some tm ->
        exists tm',
          teams (universe gm') !! place = Some tm'
          /\ Team.name tm'
             = (if decide (team_name = EmptyString) then Team.name tm
                else team_name)
          /\ Team.index tm' = Team.index tm
          /\ Team.score tm' = Team.score tm
          /\ Team.bots tm' = Team.bots tm).
Proof.
  unfold register_team. cbn. rewrite length_app. cbn.
  replace (length (player_teams gm) + 1 - 1)%nat
    with (length (player_teams gm)) by lia.
  case_decide as Hn; cbn.
  { do 10 (split; [done|]). intros tm Htm. by exists tm. }
  destruct (teams (universe gm) !! length (player_teams gm)) as [tm|] eqn:Htm;
    cbn; [|by repeat split].
  do 5 (split; [done|]). split; [apply length_insert|].
  do 3 (split; [done|]). split.
  - intros j Hj. by apply list_lookup_insert_ne.
  - intros tm' [= <-]. eexists. split.
    + apply list_lookup_insert_eq. by eapply lookup_lt_Some.
    + done.
Qed.

(** X1.  Registration of a team: the team and a count of zero are appended
    whether the call returns or raises; it raises, with IndexError, exactly
    when a name is given and the universe has no team at the place of the new
    team; the name given is then the name of the universe team at that place,
    which keeps its index, its score and its bots, and no other team, no bot
    and nothing of the maze is changed. *)
Theorem register_team_registers team team_name gm :
  let r := register_team team team_name gm in
  let place := length (player_teams gm) in
  player_teams (state_of r) = player_teams gm ++ [team]
  /\ player_teams_timeouts (state_of r) = player_teams_timeouts gm ++ [0]
  /\ game_state (state_of r) = game_state gm
  /\ ((exists e gm1, r = Raise e gm1)
      <-> team_name ≠ EmptyString
          /\ (length (teams (universe gm)) <= place)%nat)
  /\ (forall e gm1, r = Raise e gm1 ->
        e = IndexError /\ universe gm1 = universe gm)
  /\ (forall j, j ≠ place ->
        teams (universe (state_of r)) !! j = teams (universe gm) !! j)
  /\ (forall tm, teams (universe gm) !! place = Some tm ->
        exists tm',
          teams (universe (state_of r)) !! place = Some tm'
          /\ Team.name tm'
             = (if decide (team_name = EmptyString) then Team.name tm
                else team_name)
          /\ Team.index tm' = Team.index tm
          /\ Team.score tm' = Team.score tm
          /\ Team.bots tm' = Team.bots tm)
  /\ maze (universe (state_of r)) = maze (universe gm)
  /\ bots (universe (state_of r)) = bots (universe gm).
Proof.
  cbn zeta.
  destruct (register_team_state team team_name gm)
    as (Hp & Ht & Hg & _ & _ & _ & _ & Hm & Hb & Hother & Hplace).
  split; [done|]. split; [done|]. split; [done|].
  split; [|split; [|by repeat split]].
  - unfold register_team. cbn. rewrite length_app. cbn.
    replace (length (player_teams gm) + 1 - 1)%nat
      with (length (player_teams gm)) by lia.
    case_decide as Hn.
    { split; [by intros (e & gm1 & ?) | by intros [? _]]. }
    destruct (teams (universe gm) !! length (player_teams gm)) as [tm|] eqn:Htm.
    + split; [by intros (e & gm1 & ?)|]. intros [_ Hle].
      apply lookup_lt_Some in Htm. lia.
    + split; [|by eauto]. intros _. split; [done|].
      by apply lookup_ge_None in Htm.
  - clear. unfold register_team. cbn.
    case_decide as Hn; [done|].
    destruct (teams (universe gm) !! _) as [tm|]; [done|].
    by intros e gm1 [= <- <-].
Qed.

Lemma register_teams_cons t ts gm :
  register_teams (t :: ts) gm
  = register_teams ts (state_of (register_team t.1 t.2 gm)).
Proof. done. Qed.

Lemma register_teams_state ts : forall gm,
  let gm' := register_teams ts gm in
  player_teams gm' = player_teams gm ++ ts.*1
  /\ player_teams_timeouts gm'
     = player_teams_timeouts gm ++ replicate (length ts) 0
  /\ game_state gm' = game_state gm
  /\ viewers gm' = viewers gm
  /\ viewer_calls gm' = viewer_calls gm
  /\ length (teams (universe gm')) = length (teams (universe gm))
  /\ initials gm' = initials gm
  /\ (forall j, (j < length (player_teams gm))%nat ->
        teams (universe gm') !! j = teams (universe gm) !! j).
Proof.
  induction ts as [|[t name] ts IH]; intros gm; cbn zeta.
  { cbn. rewrite !app_nil_r. by repeat split. }
  rewrite register_teams_cons. cbn [fst snd].
  destruct (register_team_state t name gm)
    as (Hp & Ht & Hg & Hv & Hc & Hl & Hi & _ & _ & Hother & _).
  destruct (IH (state_of (register_team t name gm)))
    as (Hp' & Ht' & Hg' & Hv' & Hc' & Hl' & Hi' & Hother').
  rewrite Hp', Ht', Hg', Hv', Hc', Hl', Hi', Hp, Ht, Hg, Hv, Hc, Hl, Hi.
  rewrite <- !app_assoc. cbn. repeat split.
  intros j Hj. rewrite Hother'.
  - apply Hother. lia.
  - rewrite Hp, length_app. cbn. lia.
Qed.

Lemma register_teams_names ts : forall gm j t name tm,
  ts !! j = Some (t, name) ->
  teams (universe gm) !! (length (player_teams gm) + j)%nat = Some tm ->
  exists tm',
    teams (universe (register_teams ts gm))
      !! (length (player_teams gm) + j)%nat = Some tm'
    /\ Team.name tm'
       = (if decide (name = EmptyString) then Team.name tm else name)
    /\ Team.index tm' = Team.index tm
    /\ Team.score tm' = Team.score tm
    /\ Team.bots tm' = Team.bots tm.
Proof.
  induction ts as [|[t0 name0] ts IH]; intros gm j t name tm; [done|].
  rewrite register_teams_cons. cbn [fst snd].
  destruct (register_team_state t0 name0 gm)
    as (Hp & _ & _ & _ & _ & _ & _ & _ & _ & Hother & Hplace).
  destruct j as [|j]; cbn.
  - intros [= -> ->]. rewrite Nat.add_0_r. intros Htm.
    destruct (register_teams_state ts (state_of (register_team t name gm)))
      as (_ & _ & _ & _ & _ & _ & _ & Hkeep).
    rewrite Hkeep; [by apply Hplace|].
    rewrite Hp, length_app. cbn. lia.
  - intros Hj Htm.
    replace (length (player_teams gm) + S j)%nat
      with (length (player_teams (state_of (register_team t0 name0 gm))) + j)%nat
      in *
      by (rewrite Hp, length_app; cbn; lia).
    apply (IH _ _ t); [done|]. rewrite Hother; [done|].
    rewrite Hp, length_app. cbn. lia.
Qed.

(** The loop of [set_initial] over the teams ends without a raise when
    every team has a universe team at its place and takes its bot ids
    and the universe. *)
Lemma tell_teams_None n (u : CTFUniverse Maze) pts : forall k,
  tell_teams env n u k pts = None
  <-> forall j team, pts !! j = Some team ->
        exists tm, teams u !! (k + j)%nat = Some tm
                   /\ _set_bot_ids env n team (Team.bots tm) = None
                   /\ _set_initial env n team u = None.
Proof.
  induction pts as [|team0 pts IH]; intros k; cbn.
  { split; [by intros _ j team | done]. }
  split.
  - destruct (teams u !! k) as [tm|] eqn:Htm; [|done].
    destruct (_set_bot_ids env n team0 (Team.bots tm)) eqn:Hb; [done|].
    destruct (_set_initial env n team0 u) eqn:Hi; [done|].
    intros Hrest j team. destruct j as [|j]; cbn.
    + intros [= <-]. rewrite Nat.add_0_r. eauto.
    + intros Hj. replace (k + S j)%nat with (S k + j)%nat by lia.
      by apply (IH (S k)).
  - intros Hall. destruct (Hall 0%nat team0 eq_refl) as (tm & Htm & Hb & Hi).
    rewrite Nat.add_0_r in Htm. rewrite Htm, Hb, Hi. apply IH.
    intros j team Hj. replace (S k + j)%nat with (k + S j)%nat by lia.
    by apply Hall.
Qed.

(** The loop raises what the first team that fails raises, or IndexError
    at the first team without a universe team at its place. *)
Lemma tell_teams_Some n (u : CTFUniverse Maze) pts : forall k i team e,
  (forall j team', (j < i)%nat -> pts !! j = Some team' ->
     exists tm, teams u !! (k + j)%nat = Some tm
                /\ _set_bot_ids env n team' (Team.bots tm) = None
                /\ _set_initial env n team' u = None) ->
  pts !! i = Some team ->
  match teams u !! (k + i)%nat with
  | None => e = IndexError
  | Some tm =>
    _set_bot_ids env n team (Team.bots tm) = Some e
    \/ (_set_bot_ids env n team (Team.bots tm) = None
        /\ _set_initial env n team u = Some e)
  end ->
  tell_teams env n u k pts = Some e.
Proof.
  induction pts as [|team0 pts IH]; intros k i team e Hbefore; [done|].
  destruct i as [|i]; cbn.
  - intros [= ->]. rewrite Nat.add_0_r.
    destruct (teams u !! k) as [tm|]; [|by intros ->].
    intros [-> | [-> ->]]; done.
  - intros Hi He.
    destruct (Hbefore 0%nat team0) as (tm & Htm & Hb & Hs); [lia | done |].
    rewrite Nat.add_0_r in Htm. rewrite Htm, Hb, Hs.
    apply (IH (S k) i team); [|done|].
    + intros j team' Hj Hl. replace (S k + j)%nat with (k + S j)%nat by lia.
      apply Hbefore; [lia | done].
    + by replace (S k + i)%nat with (k + S i)%nat by lia.
Qed.

(** X2.  Registration and [set_initial] together. After the registration of
    the teams [ts] on a controller, [set_initial] gives every registered
    team, in the order of registration, the bot ids of the universe team at
    its place and the universe.  It returns exactly when every team takes
    both and the teams registered are as many as the teams of the universe.
    It raises what the first team that fails raises, and IndexError when no
    team fails and the numbers differ; a raise leaves the controller as it
    was, the count of the calls apart, and no viewer has been called.  When
    it returns, every viewer has been given the universe once, in the order
    of registration, and the universe team at the place of a registered team
    carries the name given, if one was. *)
Theorem set_initial_needs_all_teams ts gm :
  let gm1 := register_teams ts gm in
  let n := initials gm in
  let accepts (i : nat) :=
    exists team tm,
      player_teams gm1 !! i = Some team
      /\ teams (universe gm1) !! i = Some tm
      /\ _set_bot_ids env n team (Team.bots tm) = None
      /\ _set_initial env n team (universe gm1) = None in
  ((exists gm', set_initial env gm1 = Ok gm')
   <-> (forall i, (i < length (player_teams gm) + length ts)%nat -> accepts i)
       /\ (length (player_teams gm) + length ts)%nat
          = length (teams (universe gm)))
  /\ (forall i team tm e,
        (forall j, (j < i)%nat -> accepts j) ->
        player_teams gm1 !! i = Some team ->
        teams (universe gm1) !! i = Some tm ->
        _set_bot_ids env n team (Team.bots tm) = Some e
        \/ (_set_bot_ids env n team (Team.bots tm) = None
            /\ _set_initial env n team (universe gm1) = Some e) ->
        set_initial env gm1 = Raise e (set_initials (S n) gm1))
  /\ ((forall i, (i < length (player_teams gm) + length ts)%nat ->
                 (i < length (teams (universe gm)))%nat -> accepts i) ->
      (length (player_teams gm) + length ts)%nat
      ≠ length (teams (universe gm)) ->
      set_initial env gm1 = Raise IndexError (set_initials (S n) gm1))
  /\ (forall e gm', set_initial env gm1 = Raise e gm' ->
        gm' = set_initials (S n) gm1)
  /\ (forall gm', set_initial env gm1 = Ok gm' ->
        viewer_calls gm'
        = viewer_calls gm
            ++ map (λ viewer, SetInitial viewer (universe gm1)) (viewers gm)
        /\ universe gm' = universe gm1
        /\ game_state gm' = game_state gm
        /\ initials gm' = S n
        /\ forall j t name tm,
             ts !! j = Some (t, name) ->
             teams (universe gm) !! (length (player_teams gm) + j)%nat
             = Some tm ->
             exists tm',
               teams (universe gm') !! (length (player_teams gm) + j)%nat
               = Some tm'
               /\ Team.name tm'
                  = (if decide (name = EmptyString) then Team.name tm
                     else name)
               /\ Team.index tm' = Team.index tm
               /\ Team.score tm' = Team.score tm
               /\ Team.bots tm' = Team.bots tm).
Proof.
  cbn zeta.
  destruct (register_teams_state ts gm)
    as (Hp & _ & Hg & Hv & Hc & Hl & Hi & _).
  set (gm1 := register_teams ts gm) in *.
  assert (length (player_teams gm1)
          = (length (player_teams gm) + length ts)%nat) as Hlen
    by (by rewrite Hp, length_app, length_fmap).
  rewrite <- Hlen, <- Hl, <- Hi.
  assert (forall e, tell_teams env (initials gm1) (universe gm1) 0
                      (player_teams gm1) = Some e ->
                    set_initial env gm1
                    = Raise e (set_initials (S (initials gm1)) gm1)) as Hraise.
  { intros e He. unfold set_initial. cbn. by rewrite He. }
  split; [|split; [|split; [|split]]].
  - split.
    + intros [gm' Hok]. unfold set_initial in Hok. cbn in Hok.
      destruct (tell_teams _ _ _ _ _) eqn:Htell; [done|].
      case_decide as Hne; [done|]. split; [|lia].
      intros i [team Hteam]%lookup_lt_is_Some_2.
      destruct (proj1 (tell_teams_None _ _ _ _) Htell i team Hteam)
        as (tm & ? & ? & ?).
      by exists team, tm.
    + intros [Hall Heq]. unfold set_initial. cbn.
      rewrite (proj2 (tell_teams_None _ _ _ 0%nat)).
      * rewrite decide_False by (intros Hne; by apply Hne). eauto.
      * intros j team Hj.
        destruct (Hall j) as (team' & tm & Hteam & ? & ? & ?);
          [by eapply lookup_lt_Some|].
        rewrite Hj in Hteam. injection Hteam as <-. eauto.
  - intros i team tm e Hbefore Hteam Htm He. apply Hraise.
    apply (tell_teams_Some _ _ _ 0%nat i team); [|done|].
    + intros j team' Hj Hj'.
      destruct (Hbefore j Hj) as (team'' & tm' & Hteam' & ? & ? & ?).
      rewrite Hj' in Hteam'. injection Hteam' as <-. eauto.
    + cbn. by rewrite Htm.
  - intros Hall Hne.
    destruct (decide (length (player_teams gm1)
                      < length (teams (universe gm1)))%nat) as [Hlt|Hge].
    + unfold set_initial. cbn.
      rewrite (proj2 (tell_teams_None _ _ _ 0%nat)).
      * by rewrite decide_True.
      * intros j team Hj.
        destruct (Hall j) as (team' & tm & Hteam & ? & ? & ?);
          [by eapply lookup_lt_Some | apply lookup_lt_Some in Hj; lia |].
        rewrite Hj in Hteam. injection Hteam as <-. eauto.
    + apply Hraise.
      destruct (lookup_lt_is_Some_2 (player_teams gm1)
                  (length (teams (universe gm1)))) as [team Hteam]; [lia|].
      apply (tell_teams_Some _ _ _ 0%nat (length (teams (universe gm1))) team);
        [|done|].
      * intros j team' Hj Hj'.
        destruct (Hall j) as (team'' & tm' & Hteam' & ? & ? & ?);
          [by eapply lookup_lt_Some | done |].
        rewrite Hj' in Hteam'. injection Hteam' as <-. eauto.
      * cbn. by rewrite (lookup_ge_None_2 (teams (universe gm1))).
  - intros e gm' Hr. by apply set_initial_Raise in Hr.
  - intros gm' ->%set_initial_Ok. cbn. rewrite Hc, Hv, Hg.
    repeat split. apply register_teams_names.
Qed.

End Registration.

Section Turns.
Context {Maze Event Adjacency : Type}.
Context {DM : Datamodel Maze Event} {GR : Graph Adjacency}.
Variable env : Env Maze.

Implicit Type gm : GameMaster Maze Event Adjacency.

(** ** The turn, case by case *)

Lemma set_draws_same gm : set_draws (draws gm) gm = gm.
Proof. by destruct gm. Qed.

(** The [try] block of a turn, once the team has been shown a universe. *)
Lemma play_bot_try_shown n bot player_team gm shown d :
  shown_universe env bot gm = Some (shown, d) ->
  play_bot_try env n bot player_team gm
  = let gm0 := set_draws d gm in
    match get_move env n player_team (Bot.index bot) shown with
    | ReplyTimeout => Raise PlayerTimeout gm0
    | ReplyDisconnected => Raise PlayerDisconnected gm0
    | ReplyMove mv =>
      match py_get (team_time (game_state gm)) (Bot.team_index bot) with
      | None => Raise IndexError gm0
      | Some t =>
        match py_set (team_time (game_state gm)) (Bot.team_index bot)
                (t + team_time_needed env n) with
        | None => Raise IndexError gm0
        | Some tt' =>
          match move_bot (universe gm) (Bot.index bot) mv with
          | None => Raise IllegalMoveException (upd (set_team_time tt') gm0)
          | Some (u', ms) =>
            Ok (upd (merge_move_state ms)
                  (set_universe u' (upd (set_team_time tt') gm0)))
          end
        end
      end
    end.
Proof.
  unfold shown_universe, play_bot_try.
  destruct (noiser gm) as [nz|].
  - destruct (uniform_noise _ _ _ _ _) as [[u1|] d1]; [|done].
    intros [= -> ->]. cbn.
    destruct (get_move _ _ _ _ _); [|done..].
    destruct (py_get _ _); [|done]. by destruct (py_set _ _ _).
  - intros [= <- <-]. cbn. rewrite set_draws_same.
    destruct (get_move _ _ _ _ _); [|done..].
    destruct (py_get _ _); [|done]. by destruct (py_set _ _ _).
Qed.

(** A [try] block that the noiser lets start has shown the team a
    universe. *)
Lemma play_bot_try_not_shown n bot player_team gm :
  shown_universe env bot gm = None ->
  exists d, play_bot_try env n bot player_team gm
            = Raise IndexError (set_draws d gm).
Proof.
  unfold shown_universe, play_bot_try.
  destruct (noiser gm) as [nz|]; [|done].
  destruct (uniform_noise _ _ _ _ _) as [[u1|] d1]; [done|]. cbn. eauto.
Qed.

(** What a [try] block that completes has done. *)
Lemma play_bot_try_Ok n bot player_team gm gm' :
  play_bot_try env n bot player_team gm = Ok gm' ->
  exists shown d mv t tt' ms,
    shown_universe env bot gm = Some (shown, d)
    /\ get_move env n player_team (Bot.index bot) shown = ReplyMove mv
    /\ py_get (team_time (game_state gm)) (Bot.team_index bot) = Some t
    /\ py_set (team_time (game_state gm)) (Bot.team_index bot)
         (t + team_time_needed env n) = Some tt'
    /\ move_bot (universe gm) (Bot.index bot) mv = Some (universe gm', ms)
    /\ gm' = upd (merge_move_state ms)
               (set_universe (universe gm')
                  (upd (set_team_time tt') (set_draws d gm))).
Proof.
  intros Htry.
  destruct (shown_universe env bot gm) as [[shown d]|] eqn:Hshown.
  2:{ destruct (play_bot_try_not_shown n bot player_team gm) as [d Hd];
        [done|]. by rewrite Hd in Htry. }
  rewrite (play_bot_try_shown _ _ _ _ shown d) in Htry by done.
  cbn zeta in Htry.
  destruct (get_move _ _ _ _ _) as [mv| |] eqn:Hmove; [|done..].
  destruct (py_get (team_time _) _) as [t|] eqn:Ht; [|done].
  destruct (py_set (team_time _) _ _) as [tt'|] eqn:Hset; [|done].
  destruct (move_bot _ _ _) as [[u' ms]|] eqn:Hmv; [|done].
  injection Htry as <-. by exists shown, d, mv, t, tt', ms.
Qed.

(** The three ways in which a turn completes. *)
Lemma play_bot_cases bot gm gm' :
  _play_bot env bot gm = Ok gm' ->
  (turn_failure env bot gm = None
   /\ exists player_team,
        py_get (player_teams gm) (Bot.team_index bot) = Some player_team
        /\ play_bot_try env (turns gm) bot player_team (play_bot_begin bot gm)
           = Ok gm')
  \/ (rejected_or_timeout env bot gm
      /\ exists d tt,
           play_bot_recover env bot
             (set_draws d (upd (set_team_time tt) (play_bot_begin bot gm)))
           = Ok gm')
  \/ (turn_failure env bot gm = Some PlayerDisconnected
      /\ exists d tt,
           gm' = play_bot_disconnected bot
                   (set_draws d
                      (upd (set_team_time tt) (play_bot_begin bot gm)))).
Proof.
  unfold _play_bot, rejected_or_timeout, turn_failure.
  replace (player_teams (play_bot_begin bot gm)) with (player_teams gm)
    by done.
  destruct (py_get (player_teams gm) (Bot.team_index bot)) as [pt|]; [|done].
  cbn -[play_bot_begin play_bot_try].
  destruct (play_bot_try _ _ _ _ _) as [gm1|e gm1] eqn:Htry.
  { intros [= <-]. left. eauto. }
  apply play_bot_try_Raise in Htry as (d & tt & ->).
  destruct e; try done.
  - intros Hrec. right. left. eauto.
  - intros Hrec. right. left. eauto.
  - intros [= <-]. right. right. eauto.
Qed.

(** What a completed recovery leaves: the count of the team one higher,
    the line written, the winner if the count is the limit, one draw, and
    the move applied to the universe with its events appended. *)
Lemma play_bot_recover_shape bot gm gm' :
  play_bot_recover env bot gm = Ok gm' ->
  exists n tts' mv ms,
    py_get (timeout_teams (game_state gm)) (Bot.team_index bot) = Some n
    /\ py_set (timeout_teams (game_state gm)) (Bot.team_index bot) (n + 1)
       = Some tts'
    /\ mv ∈ dom (get_legal_moves (universe gm) (Bot.current_pos bot))
    /\ move_bot (universe gm) (Bot.index bot) mv = Some (universe gm', ms)
    /\ game_state gm'
       = merge_move_state ms
           ((if decide (n + 1 = MAX_TIMEOUTS)
             then set_team_wins (Some (1 - Bot.team_index bot))
             else id)
              (set_timeout_teams tts' (game_state gm)))
    /\ console gm'
       = console gm
           ++ [MsgTimeout (n + 1) (Bot.team_index bot) (Bot.index bot)
                 (bool_decide (n + 1 = MAX_TIMEOUTS))]
    /\ draws gm' = S (draws gm).
Proof.
  unfold play_bot_recover.
  destruct (py_get _ _) as [n|] eqn:Hn; [|done].
  destruct (py_set _ _ _) as [tts'|] eqn:Hset; [|done].
  cbn -[fallback_moves].
  set (gm1 := if decide (n + 1 = MAX_TIMEOUTS) then _ else _).
  assert (universe gm1 = universe gm) as Hu by (subst gm1; by case_decide).
  assert (draws gm1 = draws gm) as Hd by (subst gm1; by case_decide).
  assert (game_state gm1
          = (if decide (n + 1 = MAX_TIMEOUTS)
             then set_team_wins (Some (1 - Bot.team_index bot))
             else id)
              (set_timeout_teams tts' (game_state gm))) as Hg
    by (subst gm1; by case_decide).
  assert (console gm1
          = console gm
              ++ [MsgTimeout (n + 1) (Bot.team_index bot) (Bot.index bot)
                    (bool_decide (n + 1 = MAX_TIMEOUTS))]) as Hc.
  { subst gm1. case_decide; cbn.
    - by rewrite bool_decide_eq_true_2.
    - by rewrite bool_decide_eq_false_2. }
  clearbody gm1. rewrite Hu, Hd.
  destruct (fallback_moves _ _) as [moves|] eqn:Hfb; [|done].
  destruct (py_choice _ _) as [mv|] eqn:Hch; [|done]. cbn.
  destruct (move_bot _ _ _) as [[u' ms]|] eqn:Hmv; [|done].
  intros [= <-]. exists n, tts', mv, ms. cbn. rewrite Hg, Hc.
  split; [done|]. split; [done|]. split; [|done].
  apply fallback_moves_Some in Hfb as [_ Hlegal].
  apply Hlegal. by eapply py_choice_Some_elem.
Qed.

Lemma events_of_merge (ms : MoveState Event) (gs : GameState Event) :
  bot_moved gs = [] -> food_eaten gs = [] -> bot_destroyed gs = [] ->
  events_of ms (merge_move_state ms gs).
Proof. unfold events_of. cbn. by intros -> -> ->. Qed.

Lemma play_bot_bot_id bot gm gm' :
  _play_bot env bot gm = Ok gm' ->
  bot_id (game_state gm') = Some (Bot.index bot).
Proof.
  intros [(_ & pt & _ & Htry) | [(_ & d & tt & Hrec) | (_ & d & tt & ->)]]
    %play_bot_cases.
  - by apply play_bot_try_Ok in Htry
      as (shown & d & mv & t & tt' & ms & _ & _ & _ & _ & _ & ->).
  - apply play_bot_recover_shape in Hrec
      as (n & tts' & mv & ms & _ & _ & _ & _ & -> & _ & _).
    by case_decide.
  - done.
Qed.

(** X3.  A turn in which the team answers with a move that [move_bot] accepts.
    The move is applied to the universe of the controller, not to the noised
    copy that the team was shown; the event lists of the game state are those
    of this move; the time needed is added to the account of the team; the
    counts of timeouts, the winner and the console are as before. *)
Theorem accepted_move_applied bot gm player_team shown d mv t u' ms :
  py_get (player_teams gm) (Bot.team_index bot) = Some player_team ->
  shown_universe env bot gm = Some (shown, d) ->
  get_move env (turns gm) player_team (Bot.index bot) shown = ReplyMove mv ->
  py_get (team_time (game_state gm)) (Bot.team_index bot) = Some t ->
  move_bot (universe gm) (Bot.index bot) mv = Some (u', ms) ->
  exists gm',
    _play_bot env bot gm = Ok gm'
    /\ universe gm' = u'
    /\ events_of ms (game_state gm')
    /\ bot_id (game_state gm') = Some (Bot.index bot)
    /\ py_get (team_time (game_state gm')) (Bot.team_index bot)
       = Some (t + team_time_needed env (turns gm))
    /\ timeout_teams (game_state gm') = timeout_teams (game_state gm)
    /\ team_wins (game_state gm') = team_wins (game_state gm)
    /\ finished (game_state gm') = finished (game_state gm)
    /\ console gm' = console gm
    /\ draws gm' = d.
Proof.
  intros Hpt Hshown Hmove Ht Hmv. unfold _play_bot.
  replace (player_teams (play_bot_begin bot gm)) with (player_teams gm)
    by done.
  rewrite Hpt. cbn -[play_bot_begin play_bot_try].
  rewrite (play_bot_try_shown _ _ _ _ shown d) by done.
  cbn -[play_bot_begin]. rewrite Hmove.
  replace (team_time (game_state (play_bot_begin bot gm)))
    with (team_time (game_state gm)) by done.
  rewrite Ht.
  destruct (py_get_set _ _ _ (t + team_time_needed env (turns gm)) Ht)
    as (tt' & -> & Hget).
  replace (universe (play_bot_begin bot gm)) with (universe gm) by done.
  rewrite Hmv. eexists. split; [done|]. cbn. by repeat split.
Qed.

(** X4.  Every completed turn. The game state names the bot that moved; the
    universe is either as before, when the team was disconnected, or the
    result of [move_bot] for one move on the universe as it was: the move of
    the team, made on the universe it was shown, or a legal move after a
    timeout or a rejected move. The event lists hold the events of that move
    and nothing older. *)
Theorem turn_outcome bot gm gm' :
  _play_bot env bot gm = Ok gm' ->
  bot_id (game_state gm') = Some (Bot.index bot)
  /\ turns gm' = S (turns gm)
  /\ ((turn_failure env bot gm = None
       /\ exists player_team shown d mv ms,
            py_get (player_teams gm) (Bot.team_index bot) = Some player_team
            /\ shown_universe env bot gm = Some (shown, d)
            /\ get_move env (turns gm) player_team (Bot.index bot) shown
               = ReplyMove mv
            /\ move_bot (universe gm) (Bot.index bot) mv
               = Some (universe gm', ms)
            /\ events_of ms (game_state gm'))
      \/ (rejected_or_timeout env bot gm
          /\ exists mv ms,
               mv ∈ dom (get_legal_moves (universe gm) (Bot.current_pos bot))
               /\ move_bot (universe gm) (Bot.index bot) mv
                  = Some (universe gm', ms)
               /\ events_of ms (game_state gm'))
      \/ (turn_failure env bot gm = Some PlayerDisconnected
          /\ universe gm' = universe gm
          /\ events_of (mkMoveState [] [] []) (game_state gm'))).
Proof.
  intros Hplay.
  destruct (play_bot_frame env bot gm) as [_ Hturns].
  rewrite Hplay in Hturns. cbn in Hturns.
  apply play_bot_cases in Hplay
    as [(Hnone & pt & Hpt & Htry) | [(Hrej & d & tt & Hrec)
                                    | (Hdis & d & tt & ->)]].
  - apply play_bot_try_Ok in Htry
      as (shown & d & mv & t & tt' & ms & Hshown & Hmove & _ & _ & Hmv & ->).
    cbn in Hmv |- *. split; [done|]. split; [done|]. left.
    split; [done|]. exists pt, shown, d, mv, ms. by repeat split.
  - apply play_bot_recover_shape in Hrec
      as (n & tts' & mv & ms & _ & _ & Hlegal & Hmv & Hgs & _ & _).
    rewrite Hgs. cbn in Hlegal, Hmv. split; [by case_decide|].
    split; [done|]. right. left. split; [done|].
    exists mv, ms. split; [done|]. split; [done|].
    apply events_of_merge; by case_decide.
  - cbn. split; [done|]. split; [done|]. right. right. by repeat split.
Qed.

(** X5.  The winner after a completed turn. A turn changes [team_wins] only to
    disqualify the team of the bot: when the team is disconnected, or when a
    timeout or a rejected move brings its count to exactly [MAX_TIMEOUTS]. A
    timeout that brings the count to another number, higher ones included,
    leaves the winner as recorded; so does a turn without failure, which
    leaves the counts alone as well. *)
Theorem winner_changes_by_disqualification bot gm gm' :
  _play_bot env bot gm = Ok gm' ->
  (team_wins (game_state gm') ≠ team_wins (game_state gm) ->
   team_wins (game_state gm') = Some (1 - Bot.team_index bot)
   /\ (turn_failure env bot gm = Some PlayerDisconnected
       \/ (rejected_or_timeout env bot gm
           /\ py_get (timeout_teams (game_state gm')) (Bot.team_index bot)
              = Some MAX_TIMEOUTS)))
  /\ (forall n,
        rejected_or_timeout env bot gm ->
        py_get (timeout_teams (game_state gm)) (Bot.team_index bot) = Some n ->
        n + 1 ≠ MAX_TIMEOUTS ->
        py_get (timeout_teams (game_state gm')) (Bot.team_index bot)
        = Some (n + 1)
        /\ team_wins (game_state gm') = team_wins (game_state gm))
  /\ (turn_failure env bot gm = None ->
      timeout_teams (game_state gm') = timeout_teams (game_state gm)
      /\ team_wins (game_state gm') = team_wins (game_state gm)).
Proof.
  intros Hplay.
  apply play_bot_cases in Hplay
    as [(Hnone & pt & Hpt & Htry) | [(Hrej & d & tt & Hrec)
                                    | (Hdis & d & tt & ->)]].
  - assert (timeout_teams (game_state gm') = timeout_teams (game_state gm)
            /\ team_wins (game_state gm') = team_wins (game_state gm))
      as [Hto Hw].
    { apply play_bot_try_Ok in Htry
        as (shown & d & mv & t & tt' & ms & _ & _ & _ & _ & _ & ->).
      done. }
    split; [done|]. split; [|done].
    intros n [Hr|Hr]; by rewrite Hr in Hnone.
  - apply play_bot_recover_Ok in Hrec
      as (n & moves & mv & ms & Hn & Hn' & _ & _ & _ & Hw & _).
    cbn in Hn, Hw.
    split; [|split].
    + intros Hne. case_decide as Hmax; [|done].
      split; [done|]. right. split; [done|]. by rewrite Hn', Hmax.
    + intros n0 _ Hn0 Hmax. rewrite Hn in Hn0. injection Hn0 as ->.
      split; [done|]. by case_decide.
    + intros Hnone. destruct Hrej as [Hr|Hr]; by rewrite Hr in Hnone.
  - cbn. split; [|split].
    + intros _. split; [done|]. by left.
    + intros n [Hr|Hr]; by rewrite Hr in Hdis.
    + intros Hnone. by rewrite Hnone in Hdis.
Qed.

End Turns.

Section Counts.
Context {Maze Event Adjacency : Type}.
Context {DM : Datamodel Maze Event} {GR : Graph Adjacency}.
Variable env : Env Maze.

Implicit Type gm : GameMaster Maze Event Adjacency.

(** ** The counts of timeouts *)

Lemma py_set_grow (l l' : list Z) i n :
  py_get l i = Some n -> py_set l i (n + 1) = Some l' ->
  length l' = length l
  /\ forall j a b, l !! j = Some a -> l' !! j = Some b -> a <= b.
Proof.
  unfold py_get, py_set.
  destruct (py_index l i) as [k|]; cbn; [|done].
  intros Hk [= <-]. split; [apply length_insert|].
  intros j a b Ha. destruct (decide (j = k)) as [->|Hne].
  - rewrite list_lookup_insert_eq by (by eapply lookup_lt_Some).
    intros [= <-]. rewrite Hk in Ha. injection Ha as ->. lia.
  - rewrite list_lookup_insert_ne by done. intros Hb.
    rewrite Ha in Hb. injection Hb as ->. lia.
Qed.

#[local] Instance timeouts_grow_preorder :
  PreOrder (@timeouts_grow Maze Event Adjacency).
Proof.
  split.
  - intros gm. split; [done|]. intros i n n' -> [= ->]. lia.
  - intros gm1 gm2 gm3 [Hl12 H12] [Hl23 H23]. split; [congruence|].
    intros i n n'' Hn Hn''.
    destruct (timeout_teams (game_state gm2) !! i) as [n'|] eqn:Hn'.
    + specialize (H12 i n n' Hn Hn'). specialize (H23 i n' n'' Hn' Hn'').
      lia.
    + apply lookup_ge_None in Hn'. apply lookup_lt_Some in Hn. lia.
Qed.

Lemma timeouts_grow_same gm gm' :
  timeout_teams (game_state gm') = timeout_teams (game_state gm) ->
  timeouts_grow gm gm'.
Proof.
  intros H. unfold timeouts_grow. rewrite H. split; [done|].
  intros i n n' -> [= ->]. lia.
Qed.

Lemma play_bot_recover_timeouts bot gm :
  timeouts_grow gm (state_of (play_bot_recover env bot gm)).
Proof.
  unfold play_bot_recover.
  destruct (py_get _ _) as [n|] eqn:Hn; [|by apply timeouts_grow_same].
  destruct (py_set _ _ _) as [tts'|] eqn:Hset; [|by apply timeouts_grow_same].
  cbn -[fallback_moves].
  set (gm1 := if decide (n + 1 = MAX_TIMEOUTS) then _ else _).
  assert (timeout_teams (game_state gm1) = tts') as Ht
    by (subst gm1; by case_decide).
  assert (timeouts_grow gm gm1) as Hgrow.
  { unfold timeouts_grow. rewrite Ht. by eapply py_set_grow. }
  clearbody gm1. etrans; [done|]. apply timeouts_grow_same.
  destruct (fallback_moves _ _) as [moves|]; [|done].
  destruct (py_choice _ _) as [mv|]; [|done]. cbn.
  by destruct (move_bot _ _ _) as [[u' ms]|].
Qed.

Lemma play_bot_timeouts bot gm :
  timeouts_grow gm (state_of (_play_bot env bot gm)).
Proof.
  unfold _play_bot.
  replace (player_teams (play_bot_begin bot gm)) with (player_teams gm)
    by done.
  destruct (py_get (player_teams gm) (Bot.team_index bot)) as [pt|];
    [|by apply timeouts_grow_same].
  cbn -[play_bot_begin play_bot_try].
  destruct (play_bot_try _ _ _ _ _) as [gm1|e gm1] eqn:Htry.
  { apply play_bot_try_Ok in Htry
      as (shown & d & mv & t & tt' & ms & _ & _ & _ & _ & _ & ->).
    by apply timeouts_grow_same. }
  apply play_bot_try_Raise in Htry as (d & tt & ->).
  assert (timeouts_grow gm
            (set_draws d (upd (set_team_time tt) (play_bot_begin bot gm))))
    as H1 by (by apply timeouts_grow_same).
  destruct e; cbn; try done.
  - etrans; [done|]. apply play_bot_recover_timeouts.
  - etrans; [done|]. apply play_bot_recover_timeouts.
Qed.

Lemma timeouts_grow_run cs gm gm' :
  run env cs gm = Some gm' -> timeouts_grow gm gm'.
Proof.
  apply (run_keeps env timeouts_grow).
  - intros gm0 _. apply timeouts_grow_same.
    unfold prepare_next_round. destruct (finished (game_state gm0)); [done|].
    cbn. destruct (round_index (game_state gm0)); [|done]. by case_decide.
  - intros gm0 _. apply timeouts_grow_same.
    destruct (finish_checks_shape gm0) as (tw & gd & c & ->). cbn.
    unfold check_finished. cbn.
    destruct (not_none _ || not_none _); cbn;
      destruct (py2_ge _ _); cbn; try done; by destruct (negb _).
  - intros gm0. by apply timeouts_grow_same.
  - intros gm0 bot _. apply play_bot_timeouts.
  - intros gm0 n _. by apply timeouts_grow_same.
  - intros gm0 x. by apply timeouts_grow_same.
  - intros gm0. destruct (set_initial_state env gm0) as [vc ->].
    by apply timeouts_grow_same.
  - intros gm0 team team_name. unfold register_team. cbn.
    case_decide; [by apply timeouts_grow_same|].
    destruct (teams (universe gm0) !! _); by apply timeouts_grow_same.
  - intros gm0 viewer. by apply timeouts_grow_same.
Qed.

(** X6.  The counts of timeouts along every sequence of calls, raises
    included: every team keeps its count, and no count ever decreases or is
    reset. *)
Theorem timeouts_never_decrease cs gm gm' :
  run env cs gm = Some gm' ->
  length (timeout_teams (game_state gm'))
  = length (timeout_teams (game_state gm))
  /\ forall i n,
       timeout_teams (game_state gm) !! i = Some n ->
       exists n', timeout_teams (game_state gm') !! i = Some n' /\ n <= n'.
Proof.
  intros [Hlen Hgrow]%timeouts_grow_run. split; [done|].
  intros i n Hn.
  destruct (timeout_teams (game_state gm') !! i) as [n'|] eqn:Hn'.
  - exists n'. split; [done|]. by eapply Hgrow.
  - apply lookup_ge_None in Hn'. apply lookup_lt_Some in Hn. lia.
Qed.

(** ** The summary line *)

Lemma summaries_appended gm gm' ls :
  console gm' = console gm ++ ls ->
  Forall (λ l, is_summary l = false) ls ->
  summaries gm' = summaries gm.
Proof.
  unfold summaries. intros -> Hls. rewrite filter_app, length_app.
  replace (filter (λ l, is_summary l = true) ls) with (@nil Line);
    [cbn; lia|].
  symmetry. induction Hls as [|l ls Hl _ IH]; [done|].
  rewrite filter_cons_False by (by rewrite Hl). done.
Qed.

Lemma summaries_same gm gm' :
  console gm' = console gm -> summaries gm' = summaries gm.
Proof. unfold summaries. by intros ->. Qed.

Lemma summaries_written gm gm' l :
  console gm' = console gm ++ [l] -> is_summary l = true ->
  summaries gm' = S (summaries gm).
Proof.
  unfold summaries. intros -> Hl. rewrite filter_app, length_app.
  rewrite filter_cons_True by done. cbn. lia.
Qed.

Lemma play_bot_recover_summaries bot gm :
  summaries (state_of (play_bot_recover env bot gm)) = summaries gm.
Proof.
  unfold play_bot_recover.
  destruct (py_get _ _) as [n|] eqn:Hn; [|done].
  destruct (py_set _ _ _) as [tts'|] eqn:Hset; [|done].
  cbn -[fallback_moves].
  set (gm1 := if decide (n + 1 = MAX_TIMEOUTS) then _ else _).
  assert (summaries gm1 = summaries gm) as Hs.
  { subst gm1. case_decide.
    - eapply (summaries_appended _ _ [_]); [done|]. by repeat constructor.
    - eapply (summaries_appended _ _ [_]); [done|]. by repeat constructor. }
  clearbody gm1. rewrite <- Hs. apply summaries_same.
  destruct (fallback_moves _ _) as [moves|]; [|done].
  destruct (py_choice _ _) as [mv|]; [|done]. cbn.
  by destruct (move_bot _ _ _) as [[u' ms]|].
Qed.

Lemma play_bot_summaries bot gm :
  summaries (state_of (_play_bot env bot gm)) = summaries gm.
Proof.
  unfold _play_bot.
  replace (player_teams (play_bot_begin bot gm)) with (player_teams gm)
    by done.
  destruct (py_get (player_teams gm) (Bot.team_index bot)) as [pt|]; [|done].
  cbn -[play_bot_begin play_bot_try].
  destruct (play_bot_try _ _ _ _ _) as [gm1|e gm1] eqn:Htry.
  { by apply play_bot_try_Ok in Htry
      as (shown & d & mv & t & tt' & ms & _ & _ & _ & _ & _ & ->). }
  apply play_bot_try_Raise in Htry as (d & tt & ->).
  destruct e; cbn; try done.
  - by rewrite play_bot_recover_summaries.
  - by rewrite play_bot_recover_summaries.
  - apply (summaries_appended gm
             (play_bot_disconnected bot
                (set_draws d (upd (set_team_time tt) (play_bot_begin bot gm))))
             [MsgDisconnected (Bot.team_index bot) (Bot.index bot)]);
      [done | by repeat constructor].
Qed.

(** An outcome recorded after [check_finished] means a finished match. *)
Lemma check_finished_outcome gm :
  team_wins (game_state (check_finished gm)) ≠ None
  \/ game_draw (game_state (check_finished gm)) ≠ None ->
  finished (game_state (check_finished gm)) = true.
Proof.
  destruct (check_finished_quiet gm) as (_ & _ & _ & _ & _ & -> & ->).
  intros H. apply check_finished_true. by left.
Qed.

(** [check_winner] and [print_possible_winner], on a controller in which
    a recorded outcome means a finished match, as [check_finished] leaves
    it: when they return, the match is finished exactly if it was, and
    then the outcome is recorded and the summary line has been printed;
    otherwise nothing has changed. *)
Lemma checks_after gm :
  (team_wins (game_state gm) ≠ None \/ game_draw (game_state gm) ≠ None ->
   finished (game_state gm) = true) ->
  match gm1 ← check_winner gm; print_possible_winner gm1 with
  | Ok gm' =>
    if finished (game_state gm)
    then finished (game_state gm') = true
         /\ (team_wins (game_state gm') ≠ None
             \/ game_draw (game_state gm') ≠ None)
         /\ exists l, is_summary l = true /\ console gm' = console gm ++ [l]
    else gm' = gm
  | Raise e gm' =>
    console gm' = console gm
    /\ finished (game_state gm') = finished (game_state gm)
  end.
Proof.
  intros Hout. unfold check_winner, print_possible_winner.
  destruct (finished (game_state gm)) eqn:Hf; cbn.
  - destruct (team_wins (game_state gm)) as [w|] eqn:Hw; cbn.
    { rewrite Hw.
      destruct (py_get _ w); [|done]. destruct (py_get _ (1 - w)); [|done].
      cbn. rewrite Hf, Hw. split; [done|]. split; [by left|].
      eexists; split; [|reflexivity]; reflexivity. }
    destruct (game_draw (game_state gm)) as [g|] eqn:Hg; cbn.
    { rewrite Hw, Hg. cbn.
      destruct (py_get _ 0); [|done]. destruct (py_get _ 1); [|done].
      cbn. rewrite Hf, Hg. split; [done|]. split; [by right|].
      eexists; split; [|reflexivity]; reflexivity. }
    destruct (py_get _ 0) as [t0|] eqn:H0; [|done].
    destruct (py_get _ 1) as [t1|] eqn:H1; [|done].
    repeat case_decide; cbn; rewrite ?Hw, ?Hg; cbn;
      change (1 - 0) with 1; change (1 - 1) with 0; rewrite ?H0, ?H1; cbn;
      rewrite ?Hf, ?Hw.
    + split; [done|]. split; [by left|].
      eexists; split; [|reflexivity]; reflexivity.
    + split; [done|]. split; [by left|].
      eexists; split; [|reflexivity]; reflexivity.
    + split; [done|]. split; [by right|].
      eexists; split; [|reflexivity]; reflexivity.
  - destruct (team_wins (game_state gm)) as [w|] eqn:Hw.
    { assert (false = true) by (apply Hout; by left). done. }
    destruct (game_draw (game_state gm)) as [g|] eqn:Hg; [|done].
    assert (false = true) by (apply Hout; by right). done.
Qed.

Lemma check_finished_console gm : console (check_finished gm) = console gm.
Proof.
  unfold check_finished. cbn.
  destruct (not_none _ || not_none _); cbn;
    destruct (py2_ge _ _); cbn; try done; by destruct (negb _).
Qed.

(** The checks at the ends of a round, when they return. *)
Lemma finish_checks_Ok gm gm' :
  finish_checks gm = Ok gm' ->
  if finished (game_state (check_finished gm))
  then finished (game_state gm') = true
       /\ (team_wins (game_state gm') ≠ None
           \/ game_draw (game_state gm') ≠ None)
       /\ exists l, is_summary l = true /\ console gm' = console gm ++ [l]
  else gm' = check_finished gm.
Proof.
  unfold finish_checks. intros H.
  pose proof (checks_after (check_finished gm) (check_finished_outcome gm))
    as Hc.
  rewrite H in Hc. by rewrite check_finished_console in Hc.
Qed.

Lemma finish_checks_summary gm :
  summaries gm = 0%nat -> summary_once (state_of (finish_checks gm)).
Proof.
  intros Hs.
  pose proof (checks_after (check_finished gm) (check_finished_outcome gm))
    as Hc.
  unfold finish_checks.
  destruct (gm1 ← check_winner (check_finished gm); print_possible_winner gm1)
    as [gm'|e gm']; cbn.
  - destruct (finished (game_state (check_finished gm))).
    + destruct Hc as (Hf & _ & l & Hl & Hcon). right. split; [|done].
      rewrite check_finished_console in Hcon.
      by rewrite (summaries_written gm gm' l), Hs.
    + subst gm'. left.
      by rewrite (summaries_same gm), Hs by apply check_finished_console.
  - destruct Hc as [Hcon _]. left.
    rewrite check_finished_console in Hcon.
    by rewrite (summaries_same gm), Hs.
Qed.

#[local] Instance summary_kept_preorder :
  PreOrder (@summary_kept Maze Event Adjacency).
Proof.
  split; [intros gm H; exact H | intros gm1 gm2 gm3 H12 H23 H; auto].
Qed.

Lemma summary_once_same gm gm' :
  summaries gm' = summaries gm ->
  (finished (game_state gm) = true -> finished (game_state gm') = true) ->
  summary_kept gm gm'.
Proof.
  intros Hs Hf [H0 | [H1 Hfin]]; [left | right]; [congruence|].
  split; [congruence | auto].
Qed.

Lemma summary_kept_run cs gm gm' :
  run env cs gm = Some gm' -> summary_kept gm gm'.
Proof.
  apply (run_keeps env summary_kept).
  - intros gm0 Hf. apply summary_once_same; [|congruence].
    apply summaries_same. unfold prepare_next_round. rewrite Hf. cbn.
    destruct (round_index (game_state gm0)); [|done]. by case_decide.
  - intros gm0 Hf [H0 | [_ Hfin]]; [|congruence].
    by apply finish_checks_summary.
  - intros gm0. by apply summary_once_same.
  - intros gm0 bot Hf. apply summary_once_same; [|congruence].
    apply play_bot_summaries.
  - intros gm0 n Hf. by apply summary_once_same.
  - intros gm0 x. by apply summary_once_same.
  - intros gm0. destruct (set_initial_state env gm0) as [vc ->].
    by apply summary_once_same.
  - intros gm0 team team_name. unfold register_team. cbn.
    case_decide; [by apply summary_once_same|].
    destruct (teams (universe gm0) !! _); by apply summary_once_same.
  - intros gm0 viewer. by apply summary_once_same.
Qed.

(** X7.  The summary line that scripts parse ("Finished. ..."). Along every
    sequence of calls, raises included, from a controller that has printed
    none: at most one summary line is printed, and only for a match that is
    finished. *)
Theorem summary_printed_once cs gm gm' :
  summaries gm = 0%nat ->
  run env cs gm = Some gm' ->
  (summaries gm' <= 1)%nat
  /\ (summaries gm' = 1%nat -> finished (game_state gm') = true).
Proof.
  intros Hs Hrun%summary_kept_run.
  destruct Hrun as [H0 | [H1 Hf]]; [by left | |].
  - split; [lia|]. intros H1. lia.
  - split; [lia | done].
Qed.

End Counts.

Section NoiseLocal.
Context {Maze Adjacency : Type} {GR : Graph Adjacency}.

(** ** What the noiser leaves alone *)

Lemma noise_loop_frame (rnd : nat -> nat) nz k todo :
  forall d (u u' : CTFUniverse Maze) d',
    noise_loop rnd nz k todo d u = (Some u', d') ->
    maze u' = maze u /\ teams u' = teams u
    /\ (d' <= d + length todo)%nat.
Proof.
  induction todo as [|i todo IH]; intros d u u' d'; cbn.
  { intros [= <- <-]. split; [done|]. split; [done|]. lia. }
  destruct (bots u !! k) as [bot|]; [|done].
  destruct (bots u !! i) as [b|]; [|done].
  destruct (out_of_sight _ _).
  - destruct (py_choice _ _) as [p|]; [|done].
    intros (Hm & Ht & Hd)%IH. cbn in Hm, Ht. split; [done|].
    split; [done|]. lia.
  - intros (Hm & Ht & Hd)%IH. split; [done|]. split; [done|]. lia.
Qed.

(** X8.  The noise is local. The universe that [uniform_noise] returns has the
    maze, the teams and the number of bots of the one given; every bot keeps
    its index and its team; the bots of the mover's team, the mover included,
    are as they were; and a bot that has changed at all is marked noisy, so a
    bot that is not marked is where it was. At most one draw is made for each
    opponent. *)
Theorem uniform_noise_local (rnd : nat -> nat) nz d (u u' : CTFUniverse Maze)
    bot_index mover d' :
  py_get (bots u) bot_index = Some mover ->
  uniform_noise rnd nz d u bot_index = (Some u', d') ->
  maze u' = maze u
  /\ teams u' = teams u
  /\ length (bots u') = length (bots u)
  /\ (d <= d' <= d + length (enemy_bots u (Bot.team_index mover)))%nat
  /\ forall i b,
       bots u !! i = Some b ->
       exists b',
         bots u' !! i = Some b'
         /\ Bot.index b' = Bot.index b
         /\ Bot.team_index b' = Bot.team_index b
         /\ (Bot.team_index b = Bot.team_index mover -> b' = b)
         /\ (b' = b \/ Bot.noisy b' = true).
Proof.
  intros (k & Hk & Hmover)%py_get_Some_index.
  unfold uniform_noise. rewrite Hk, Hmover. intros Hloop.
  assert (k ∉ enemy_bots u (Bot.team_index mover)) as Hnotin.
  { intros (b & Hb & Hne)%enemy_bots_elem. congruence. }
  destruct (noise_loop_frame _ _ _ _ _ _ _ _ Hloop) as (Hm & Ht & Hd).
  eapply noise_loop_spec in Hloop as (Hd' & Hlen & Hout & Hin);
    [|apply enemy_bots_NoDup|done|done].
  split; [done|]. split; [done|]. split; [done|]. split; [lia|].
  intros i b Hb.
  destruct (decide (i ∈ enemy_bots u (Bot.team_index mover))) as [Hi|Hi].
  - pose proof Hi as (b0 & Hb0 & Hne)%enemy_bots_elem.
    rewrite Hb in Hb0. injection Hb0 as <-.
    specialize (Hin i b Hi Hb). cbn zeta in Hin.
    destruct (out_of_sight _ _).
    + destruct Hin as (r & p & _ & _ & _ & Hb').
      exists (Bot.set_noised p b). split; [done|]. repeat split; [done|].
      by right.
    + exists b. split; [done|]. repeat split. by left.
  - exists b. rewrite Hout by done. split; [done|]. repeat split. by left.
Qed.

End NoiseLocal.

Section Drivers.
Context {Maze Event Adjacency : Type}.
Context {DM : Datamodel Maze Event} {GR : Graph Adjacency}.
Variable env : Env Maze.

Implicit Type gm : GameMaster Maze Event Adjacency.

(** ** One resumption of the generator *)

Lemma prepare_next_round_clock gm :
  running_time (game_state (prepare_next_round gm))
  = running_time (game_state gm)
  /\ console (prepare_next_round gm) = console gm.
Proof.
  unfold prepare_next_round. destruct (finished (game_state gm)); [done|].
  cbn. destruct (round_index (game_state gm)); [|done]. by case_decide.
Qed.

Lemma check_finished_clock gm :
  running_time (game_state (check_finished gm))
  = running_time (game_state gm)
  /\ universe (check_finished gm) = universe gm.
Proof.
  unfold check_finished. cbn.
  destruct (not_none _ || not_none _); cbn;
    destruct (py2_ge _ _); cbn; try done; by destruct (negb _).
Qed.

Lemma finish_checks_clock gm :
  running_time (game_state (state_of (finish_checks gm)))
  = running_time (game_state gm).
Proof.
  destruct (finish_checks_shape gm) as (tw & gd & c & ->). cbn.
  apply check_finished_clock.
Qed.

(** The start of the generator, up to the loop over the bots, when the
    match goes on. *)
Lemma round_start_Ok gm gm' :
  finished (game_state gm) = false ->
  round_start env gm = Ok gm' ->
  exists gm0,
    finish_checks (prepare_next_round gm) = Ok gm0
    /\ finished (game_state (prepare_next_round gm)) = false
    /\ finished (game_state gm0) = false
    /\ round_loop env 0 gm0 = Ok gm'.
Proof.
  intros Hf. unfold round_start.
  destruct (finished (game_state (prepare_next_round gm))) eqn:Hf1; cbn.
  { by rewrite Hf1. }
  destruct (finish_checks (prepare_next_round gm)) as [gm0|] eqn:Hfc;
    cbn; [|done].
  destruct (finished (game_state gm0)) eqn:Hf0; [done|]. eauto.
Qed.

Lemma before_loop_same gm gm0 :
  finish_checks (prepare_next_round gm) = Ok gm0 ->
  universe gm0 = universe gm
  /\ turns gm0 = turns gm
  /\ running_time (game_state gm0) = running_time (game_state gm).
Proof.
  intros Hfc.
  destruct (finish_checks_universe (prepare_next_round gm)) as [Hu _].
  destruct (finish_checks_quiet (prepare_next_round gm)) as (_ & Ht & _).
  pose proof (finish_checks_clock (prepare_next_round gm)) as Hr.
  rewrite Hfc in Hu, Ht, Hr. cbn in Hu, Ht, Hr.
  rewrite Hu, Ht, Hr, prepare_next_round_universe.
  destruct (prepare_next_round_quiet gm) as (_ & -> & _).
  by destruct (prepare_next_round_clock gm) as [-> _].
Qed.

(** A resumption that reaches [yield]: the bot at the place of the
    generator, the first one for a generator not yet started, has had its
    turn, and the time of the turn has been added to the running time. *)
Lemma next_Ok_turn gm gm' :
  finished (game_state gm) = false ->
  next env gm = Ok gm' ->
  exists k bot,
    (_step_iter gm = Some (GenAt k)
     \/ (_step_iter gm = Some GenFresh /\ k = 0%nat))
    /\ bots (universe gm) !! k = Some bot
    /\ _step_iter gm' = Some (GenAt (S k))
    /\ bot_id (game_state gm') = Some (Bot.index bot)
    /\ running_time (game_state gm')
       = running_time (game_state gm) + turn_time env (turns gm).
Proof.
  intros Hf. unfold next.
  destruct (_step_iter gm) as [[|k|]|] eqn:Hiter; try done.
  - intros (gm0 & Hfc & _ & _ & Hloop)%ends_Ok%round_start_Ok; [|done].
    apply before_loop_same in Hfc as (Hu & Ht & Hr).
    apply round_loop_Ok in Hloop as (bot & gm1 & Hbot & Hplay & ->).
    exists 0%nat, bot. rewrite <- Hu. split; [by right|]. split; [done|].
    split; [done|]. cbn.
    destruct (play_bot_frame env bot gm0) as [Hfr _].
    rewrite Hplay in Hfr. cbn in Hfr. unfold turn_frame in Hfr.
    destruct_and!. split; [by eapply play_bot_bot_id|]. congruence.
  - intros (bot & gm1 & Hbot & Hplay & ->)%ends_Ok%round_loop_Ok.
    exists k, bot. split; [by left|]. split; [done|]. split; [done|]. cbn.
    destruct (play_bot_frame env bot gm) as [Hfr _].
    rewrite Hplay in Hfr. cbn in Hfr. unfold turn_frame in Hfr.
    destruct_and!. split; [by eapply play_bot_bot_id|]. congruence.
Qed.

Lemma round_end_StopIteration gm e gm' :
  round_end gm = Raise e gm' ->
  e = StopIteration ->
  universe gm' = universe gm
  /\ running_time (game_state gm') = running_time (game_state gm).
Proof.
  unfold round_end. intros Hr ->.
  destruct (finish_checks_universe gm) as [Hu _].
  pose proof (finish_checks_clock gm) as Hc.
  destruct (finish_checks gm) as [gm1|e1 gm1] eqn:Hfc; cbn in *.
  - injection Hr as <-. by destruct (finished (game_state gm1)).
  - injection Hr as -> <-. by apply finish_checks_Raise in Hfc.
Qed.

Lemma round_loop_StopIteration k gm gm' :
  round_loop env k gm = Raise StopIteration gm' ->
  (length (bots (universe gm)) <= k)%nat
  /\ universe gm' = universe gm
  /\ running_time (game_state gm') = running_time (game_state gm).
Proof.
  unfold round_loop.
  destruct (bots (universe gm) !! k) as [bot|] eqn:Hbot.
  - destruct (_play_bot env bot gm) as [|e gm1] eqn:Hplay; cbn; [done|].
    intros [= -> _]. by apply play_bot_Raise in Hplay as [?|[?|?]].
  - intros Hr. split; [by apply lookup_ge_None|].
    by eapply round_end_StopIteration.
Qed.

(** A generator that ends with StopIteration had no turn left to play;
    it leaves the universe and the running time as they were. *)
Lemma next_StopIteration gm gm' :
  finished (game_state gm) = false ->
  next env gm = Raise StopIteration gm' ->
  turns_left gm = 0%nat
  /\ universe gm' = universe gm
  /\ running_time (game_state gm') = running_time (game_state gm).
Proof.
  intros Hf. unfold next, turns_left.
  destruct (_step_iter gm) as [[|k|]|] eqn:Hiter; try done.
  - unfold round_start.
    destruct (finished (game_state (prepare_next_round gm))) eqn:Hf1; cbn.
    { by rewrite Hf1. }
    destruct (finish_checks (prepare_next_round gm)) as [gm0|e0 gm0] eqn:Hfc;
      cbn.
    + destruct (before_loop_same gm gm0 Hfc) as (Hu & _ & Hr).
      destruct (finished (game_state gm0)); [done|].
      destruct (round_loop env 0 gm0) as [|e1 gm1] eqn:Hloop; [done|].
      cbn. intros [= -> <-]. cbn.
      apply round_loop_StopIteration in Hloop as (Hlen & Hu1 & Hr1).
      rewrite Hu in Hlen. split; [lia|]. split; congruence.
    + intros [= -> _]. by apply finish_checks_Raise in Hfc.
  - destruct (round_loop env k gm) as [|e1 gm1] eqn:Hloop; [done|].
    cbn. intros [= -> <-]. cbn.
    apply round_loop_StopIteration in Hloop as (Hlen & Hu1 & Hr1).
    split; [lia | done].
  - by intros [= <-].
Qed.

(** Only a generator that starts a round ends with GameFinished. *)
Lemma next_GameFinished_fresh gm gm' :
  next env gm = Raise GameFinished gm' -> _step_iter gm = Some GenFresh.
Proof.
  unfold next. destruct (_step_iter gm) as [[|k|]|]; try done.
  destruct (round_loop env k gm) as [|e gm1] eqn:Hloop; [done|].
  cbn. intros [= -> _]. by apply round_loop_GameFinished in Hloop.
Qed.

Lemma ensure_step_iter_same gm :
  finished (game_state (ensure_step_iter gm)) = finished (game_state gm)
  /\ turns (ensure_step_iter gm) = turns gm
  /\ universe (ensure_step_iter gm) = universe gm
  /\ game_state (ensure_step_iter gm) = game_state gm
  /\ turns_left (ensure_step_iter gm) = turns_left gm
  /\ next_place (ensure_step_iter gm) = next_place gm
  /\ console (ensure_step_iter gm) = console gm
  /\ game_time (ensure_step_iter gm) = game_time gm
  /\ is_Some (_step_iter (ensure_step_iter gm)).
Proof.
  unfold ensure_step_iter, turns_left, next_place.
  destruct (_step_iter gm) as [it|] eqn:Hiter; cbn; rewrite ?Hiter; eauto 10.
Qed.

(** ** [play_step] *)

(** X9.  A step on a match that is not finished either finds the match
    finished, and plays no turn, or plays exactly one turn: that of the bot in
    line, at the place of the generator or at the first place when a round
    begins. The turn is counted, the game state names the bot, and the time of
    the turn is added to the running time. *)
Theorem play_step_one_turn fuel : forall gm gm',
  finished (game_state gm) = false ->
  play_step env fuel gm = Some (Ok gm') ->
  (finished (game_state gm') = true /\ turns gm' = turns gm)
  \/ (finished (game_state gm') = false
      /\ turns gm' = S (turns gm)
      /\ running_time (game_state gm')
         = running_time (game_state gm) + turn_time env (turns gm)
      /\ exists bot,
           bots (universe gm) !! next_place gm = Some bot
           /\ bot_id (game_state gm') = Some (Bot.index bot)
           /\ _step_iter gm' = Some (GenAt (S (next_place gm)))).
Proof.
  induction fuel as [|fuel IH]; intros gm gm' Hf; cbn; rewrite Hf.
  all: destruct (ensure_step_iter_same gm)
         as (Hfe & Hte & Hue & Hge & Hle & Hpe & _).
  all: rewrite Hf in Hfe.
  all: destruct (next env (ensure_step_iter gm)) as [gm1|e gm1] eqn:Hnext.
  - intros [= <-]. right.
    destruct (next_Ok env _ _ Hfe Hnext) as (Hf1 & Ht1 & _).
    destruct (next_Ok_turn _ _ Hfe Hnext)
      as (k & bot & Hk & Hbot & Hiter & Hid & Hrun).
    rewrite Hue in Hbot. rewrite Hte, Hge in Hrun.
    assert (next_place gm = k) as Hplace.
    { rewrite <- Hpe. unfold next_place.
      destruct Hk as [-> | [-> ->]]; [|done].
      apply lookup_lt_Some in Hbot. rewrite Hue. by rewrite decide_True. }
    rewrite Hplace. split; [done|]. split; [congruence|]. split; [done|].
    eauto.
  - destruct e; try done.
    intros [= <-]. left. split; [by eapply next_GameFinished|].
    destruct (next_end env _ _ _ Hfe Hnext) as (Ht1 & _); [by right|].
    congruence.
  - intros [= <-]. right.
    destruct (next_Ok env _ _ Hfe Hnext) as (Hf1 & Ht1 & _).
    destruct (next_Ok_turn _ _ Hfe Hnext)
      as (k & bot & Hk & Hbot & Hiter & Hid & Hrun).
    rewrite Hue in Hbot. rewrite Hte, Hge in Hrun.
    assert (next_place gm = k) as Hplace.
    { rewrite <- Hpe. unfold next_place.
      destruct Hk as [-> | [-> ->]]; [|done].
      apply lookup_lt_Some in Hbot. rewrite Hue. by rewrite decide_True. }
    rewrite Hplace. split; [done|]. split; [congruence|]. split; [done|].
    eauto.
  - destruct e; try done.
    + intros [= <-]. left. split; [by eapply next_GameFinished|].
      destruct (next_end env _ _ _ Hfe Hnext) as (Ht1 & _); [by right|].
      congruence.
    + destruct (next_end env _ _ _ Hfe Hnext) as (Ht1 & _); [by left|].
      destruct (next_StopIteration _ _ Hfe Hnext) as (Hleft & Hu1 & Hr1).
      rewrite Hle in Hleft. rewrite Hue in Hu1. rewrite Hge in Hr1.
      rewrite Hte in Ht1.
      assert (next_place gm = 0%nat) as Hplace.
      { unfold next_place, turns_left in *.
        destruct (_step_iter gm) as [[|k|]|]; try done.
        case_decide; [lia | done]. }
      destruct (finished (game_state gm1)) eqn:Hf1.
      { destruct fuel; cbn; rewrite Hf1; intros [= <-]; left; by split. }
      intros Hstep. apply IH in Hstep; [|done]. cbn in Hstep.
      destruct Hstep as [[Hfin Ht'] | (Hfin & Ht' & Hrun & bot & Hbot & Hid
                                        & Hiter)].
      * left. split; [done | congruence].
      * right. unfold next_place in Hbot, Hiter. cbn in Hbot, Hiter.
        rewrite Hplace. split; [done|]. split; [congruence|].
        split; [congruence|]. exists bot. rewrite <- Hu1. done.
Qed.

End Drivers.

Section Summary.
Context {Maze Event Adjacency : Type}.
Context {DM : Datamodel Maze Event} {GR : Graph Adjacency}.

Implicit Type gm : GameMaster Maze Event Adjacency.

(** [check_winner] and [print_possible_winner] on a finished match. *)
Lemma checks_report gm gm' :
  finished (game_state gm) = true ->
  (gm1 ← check_winner gm; print_possible_winner gm1) = Ok gm' ->
  universe gm' = universe gm
  /\ match team_wins (game_state gm') with
     | Some w =>
       exists winner loser,
         py_get (teams (universe gm)) w = Some winner
         /\ py_get (teams (universe gm)) (1 - w) = Some loser
         /\ console gm'
            = console gm
                ++ [MsgWon (Team.name winner) (Team.name loser)
                      (Team.score winner) (Team.score loser)]
         /\ (team_wins (game_state gm) = None ->
             game_draw (game_state gm) = None ->
             (w = 0 \/ w = 1) /\ Team.score winner > Team.score loser)
     | None =>
       exists t0 t1,
         py_get (teams (universe gm)) 0 = Some t0
         /\ py_get (teams (universe gm)) 1 = Some t1
         /\ console gm'
            = console gm
                ++ [MsgDraw (Team.name t0) (Team.name t1)
                      (Team.score t0) (Team.score t1)]
         /\ game_draw (game_state gm') ≠ None
         /\ (game_draw (game_state gm) = None ->
             Team.score t0 = Team.score t1)
     end.
Proof.
  intros Hf. unfold check_winner, print_possible_winner. rewrite Hf. cbn.
  destruct (team_wins (game_state gm)) as [w|] eqn:Hw; cbn.
  { rewrite Hw.
    destruct (py_get _ w) as [winner|] eqn:H0; [|done].
    destruct (py_get _ (1 - w)) as [loser|] eqn:H1; [|done].
    intros [= <-]. cbn. rewrite Hw. split; [done|].
    exists winner, loser. by repeat split. }
  destruct (game_draw (game_state gm)) as [g|] eqn:Hg; cbn.
  { rewrite Hw, Hg. cbn.
    destruct (py_get _ 0) as [t0|] eqn:H0; [|done].
    destruct (py_get _ 1) as [t1|] eqn:H1; [|done].
    intros [= <-]. cbn. rewrite Hw, Hg. split; [done|].
    exists t0, t1. by repeat split. }
  destruct (py_get _ 0) as [t0|] eqn:H0; [|done].
  destruct (py_get _ 1) as [t1|] eqn:H1; [|done].
  repeat case_decide; cbn; rewrite ?Hw, ?Hg; cbn;
    change (1 - 0) with 1; change (1 - 1) with 0; rewrite ?H0, ?H1; cbn;
    intros [= <-]; cbn; rewrite ?Hw; (split; [done|]).
  - exists t0, t1. change (1 - 0) with 1. repeat split; auto.
  - exists t1, t0. change (1 - 1) with 0. repeat split; auto. lia.
  - exists t0, t1. repeat split; [done|]. intros _. lia.
Qed.

(** X10.  The checks that end a match. When [check_finished], [check_winner]
    and [print_possible_winner] leave a finished match, the line printed is
    the last one and reports the outcome recorded: the winner, then the loser,
    each with its score, or the two teams of a draw. An outcome that was not
    recorded before, by a disqualification, is decided by the scores: the
    winner has the higher score, and a draw means equal scores. *)
Theorem summary_reports_outcome gm gm' :
  finish_checks gm = Ok gm' ->
  finished (game_state gm') = true ->
  universe gm' = universe gm
  /\ match team_wins (game_state gm') with
     | Some w =>
       exists winner loser,
         py_get (teams (universe gm)) w = Some winner
         /\ py_get (teams (universe gm)) (1 - w) = Some loser
         /\ console gm'
            = console gm
                ++ [MsgWon (Team.name winner) (Team.name loser)
                      (Team.score winner) (Team.score loser)]
         /\ (team_wins (game_state gm) = None ->
             game_draw (game_state gm) = None ->
             (w = 0 \/ w = 1) /\ Team.score winner > Team.score loser)
     | None =>
       exists t0 t1,
         py_get (teams (universe gm)) 0 = Some t0
         /\ py_get (teams (universe gm)) 1 = Some t1
         /\ console gm'
            = console gm
                ++ [MsgDraw (Team.name t0) (Team.name t1)
                      (Team.score t0) (Team.score t1)]
         /\ game_draw (game_state gm') ≠ None
         /\ (game_draw (game_state gm) = None ->
             Team.score t0 = Team.score t1)
     end.
Proof.
  intros Hfc Hfin.
  pose proof (finish_checks_Ok gm gm' Hfc) as Hok.
  destruct (finished (game_state (check_finished gm))) eqn:Hf1.
  2:{ subst gm'. congruence. }
  unfold finish_checks in Hfc. apply checks_report in Hfc; [|done].
  destruct (check_finished_quiet gm) as (_ & _ & _ & _ & _ & Hw & Hd).
  destruct (check_finished_clock gm) as [_ Hu].
  by rewrite Hw, Hd, Hu, check_finished_console in Hfc.
Qed.

End Summary.

Section Matches.
Context {Maze Event Adjacency : Type}.
Context {DM : Datamodel Maze Event} {GR : Graph Adjacency}.
Variable env : Env Maze.

Implicit Type gm : GameMaster Maze Event Adjacency.

(** ** The invariant of a match *)

Lemma match_invariant_same gm gm' :
  game_time gm' = game_time gm ->
  round_index (game_state gm') = round_index (game_state gm) ->
  finished (game_state gm') = finished (game_state gm) ->
  (finished (game_state gm) = true ->
   team_wins (game_state gm') = team_wins (game_state gm)
   /\ game_draw (game_state gm') = game_draw (game_state gm)) ->
  summaries gm' = summaries gm ->
  match_invariant gm -> match_invariant gm'.
Proof.
  intros Hg Hr Hf Hout Hs (Hp & Hk & Hsum).
  unfold match_invariant, rounds_pending, outcome_known in *.
  rewrite Hg, Hr, Hf, Hs. split; [done|]. split; [|done].
  intros Hfin. destruct (Hout Hfin) as [-> ->]. auto.
Qed.

(** The checks at the ends of a round establish the invariant. *)
Lemma finish_checks_invariant gm gm' :
  summaries gm = 0%nat ->
  finish_checks gm = Ok gm' ->
  match_invariant gm'.
Proof.
  intros Hs Hfc.
  destruct (finish_checks_quiet gm) as (Hg & _ & _ & _ & Hr).
  rewrite Hfc in Hg, Hr. cbn in Hg, Hr.
  pose proof (finish_checks_Ok gm gm' Hfc) as Hok.
  destruct (finished (game_state (check_finished gm))) eqn:Hf.
  - destruct Hok as (Hfin & Hout & l & Hl & Hcon).
    unfold match_invariant, rounds_pending, outcome_known.
    rewrite Hfin. split; [by destruct (round_index _)|]. split; [done|].
    by rewrite (summaries_written gm gm' l), Hs.
  - subst gm'. unfold match_invariant, rounds_pending, outcome_known.
    rewrite Hf. split; [|split; [done|]].
    + destruct (round_index (game_state (check_finished gm))) as [r|] eqn:Hr';
        [|done].
      intros _. rewrite Hr in Hr'. rewrite Hg.
      destruct (decide (r < game_time gm)) as [|Hge]; [done|].
      assert (finished (game_state (check_finished gm)) = true) as Hfin;
        [|congruence].
      apply check_finished_true. right. left. exists r. split; [done|]. lia.
    + by rewrite (summaries_same gm), Hs by apply check_finished_console.
Qed.

Lemma prepare_next_round_pending gm :
  finished (game_state gm) = false ->
  rounds_pending gm ->
  finished (game_state (prepare_next_round gm)) = false.
Proof.
  intros Hf Hp. unfold prepare_next_round, rounds_pending in *.
  rewrite Hf. cbn.
  destruct (round_index (game_state gm)) as [r|]; [|done].
  rewrite decide_True by auto. done.
Qed.

Lemma round_loop_invariant k gm :
  finished (game_state gm) = false ->
  match_invariant gm ->
  match round_loop env k gm with
  | Ok gm' => match_invariant gm' /\ finished (game_state gm') = false
  | Raise e gm' => e = StopIteration -> match_invariant gm'
  end.
Proof.
  intros Hf Hinv. unfold round_loop.
  destruct (bots (universe gm) !! k) as [bot|].
  - destruct (play_bot_frame env bot gm) as [Hfr _].
    pose proof (play_bot_summaries env bot gm) as Hs.
    destruct (_play_bot env bot gm) as [gm1|e gm1] eqn:Hplay; cbn in *.
    + unfold turn_frame in Hfr. destruct_and!. split; [|congruence].
      eapply (match_invariant_same gm); cbn; try done; congruence.
    + intros ->. by apply play_bot_Raise in Hplay as [?|[?|?]].
  - unfold round_end.
    destruct (finish_checks gm) as [gm1|e gm1] eqn:Hfc; cbn.
    + intros _. destruct Hinv as (_ & _ & Hs). rewrite Hf in Hs.
      apply finish_checks_invariant in Hfc; [|done].
      destruct (finished (game_state gm1)); [|done].
      by eapply (match_invariant_same gm1).
    + intros ->. by apply finish_checks_Raise in Hfc.
Qed.

(** One resumption of the generator keeps the invariant. *)
Lemma next_invariant gm :
  finished (game_state gm) = false ->
  match_invariant gm ->
  match next env gm with
  | Ok gm' => match_invariant gm' /\ finished (game_state gm') = false
  | Raise e gm' =>
    e = StopIteration \/ e = GameFinished -> match_invariant gm'
  end.
Proof.
  intros Hf Hinv. unfold next.
  assert (forall k gm0,
            finished (game_state gm0) = false -> match_invariant gm0 ->
            match ends (round_loop env k gm0) with
            | Ok gm' => match_invariant gm' /\ finished (game_state gm') = false
            | Raise e gm' =>
              e = StopIteration \/ e = GameFinished -> match_invariant gm'
            end) as Hloop.
  { intros k gm0 Hf0 Hinv0.
    pose proof (round_loop_invariant k gm0 Hf0 Hinv0) as H.
    destruct (round_loop env k gm0) as [gm1|e gm1] eqn:Hl; cbn; [done|].
    intros [-> | ->].
    - by eapply (match_invariant_same gm1); [..|apply H].
    - by apply round_loop_GameFinished in Hl. }
  destruct (_step_iter gm) as [[|k|]|]; try done.
  - unfold round_start.
    pose proof (prepare_next_round_pending gm Hf (proj1 Hinv)) as Hf1.
    destruct (prepare_next_round_clock gm) as [_ Hcon].
    rewrite Hf1. cbn.
    destruct (finish_checks (prepare_next_round gm)) as [gm0|e0 gm0] eqn:Hfc;
      cbn.
    + apply finish_checks_invariant in Hfc.
      2:{ destruct Hinv as (_ & _ & Hs). rewrite Hf in Hs.
          by rewrite (summaries_same gm). }
      destruct (finished (game_state gm0)) eqn:Hf0; cbn.
      * intros _. by eapply (match_invariant_same gm0).
      * by apply Hloop.
    + intros [-> | ->]; by apply finish_checks_Raise in Hfc.
  - by apply Hloop.
Qed.

Lemma match_invariant_iter x gm :
  match_invariant gm -> match_invariant (set_step_iter x gm).
Proof. done. Qed.

Lemma play_round_loop_invariant fuel : forall gm gm',
  finished (game_state gm) = false ->
  match_invariant gm ->
  play_round_loop env fuel gm = Some (Ok gm') -> match_invariant gm'.
Proof.
  induction fuel as [|fuel IH]; intros gm gm' Hf Hinv; [done|]. cbn.
  pose proof (next_invariant gm Hf Hinv) as Hn.
  destruct (next env gm) as [gm1|e gm1].
  - destruct Hn as [Hinv1 Hf1]. by apply IH.
  - destruct e; try done; intros [= <-].
    + apply Hn. by right.
    + apply match_invariant_iter, Hn. by left.
Qed.

Lemma play_round_invariant fuel gm gm' :
  match_invariant gm ->
  play_round env fuel gm = Some (Ok gm') -> match_invariant gm'.
Proof.
  intros Hinv. unfold play_round.
  destruct (finished (game_state gm)) eqn:Hf; [by intros [= <-]|].
  apply play_round_loop_invariant.
  - by destruct (ensure_step_iter_same gm) as (-> & _).
  - unfold ensure_step_iter. by destruct (_step_iter gm).
Qed.

Lemma play_loop_invariant fuel : forall gm gm',
  match_invariant gm ->
  play_loop env fuel gm = Some (Ok gm') ->
  match_invariant gm' /\ finished (game_state gm') = true.
Proof.
  induction fuel as [|fuel IH]; intros gm gm' Hinv; cbn;
    destruct (finished (game_state gm)) eqn:Hf; try done;
    try by intros [= <-].
  fold (play_round env (S fuel) gm).
  destruct (play_round env (S fuel) gm) as [[gm1|e gm1]|] eqn:Hpr; try done.
  apply IH. by eapply play_round_invariant.
Qed.

(** X11.  A match played to its end. [play] on a match that is not finished
    and in a round before [game_time], with no summary line printed so far:
    when it returns, the match is finished, a winner or a draw is recorded,
    and the summary line has been printed exactly once. *)
Theorem play_records_outcome fuel gm gm' :
  finished (game_state gm) = false ->
  rounds_pending gm ->
  summaries gm = 0%nat ->
  play env fuel gm = Some (Ok gm') ->
  finished (game_state gm') = true
  /\ (team_wins (game_state gm') ≠ None \/ game_draw (game_state gm') ≠ None)
  /\ summaries gm' = 1%nat.
Proof.
  intros Hf Hp Hs. unfold play.
  destruct (set_initial env gm) as [gm0|e gm0] eqn:Hi; [|done].
  apply set_initial_Ok in Hi.
  assert (match_invariant gm0) as Hinv.
  { subst gm0. unfold match_invariant, outcome_known. cbn. rewrite Hf.
    split; [done|]. split; [done|]. done. }
  destruct (play_loop env fuel gm0) as [[gm1|e gm1]|] eqn:Hloop; try done.
  intros [= <-]. apply play_loop_invariant in Hloop as [Hinv1 Hf1]; [|done].
  destruct Hinv1 as (_ & Hk & Hs1). rewrite Hf1 in Hs1. cbn.
  split; [done|]. split; [by apply Hk | done].
Qed.

(** ** The drivers do not depend on their fuel *)

Lemma play_round_loop_mono fuel : forall fuel' gm r,
  (fuel <= fuel')%nat ->
  play_round_loop env fuel gm = Some r -> play_round_loop env fuel' gm = Some r.
Proof.
  induction fuel as [|fuel IH]; intros fuel' gm r Hle; [done|].
  destruct fuel' as [|fuel']; [lia|]. cbn.
  destruct (next env gm) as [gm1|e gm1]; [|done].
  apply IH. lia.
Qed.

Lemma play_round_mono fuel fuel' gm r :
  (fuel <= fuel')%nat ->
  play_round env fuel gm = Some r -> play_round env fuel' gm = Some r.
Proof.
  intros Hle. unfold play_round.
  destruct (finished (game_state gm)); [done|].
  by apply play_round_loop_mono.
Qed.

Lemma play_step_mono fuel : forall fuel' gm r,
  (fuel <= fuel')%nat ->
  play_step env fuel gm = Some r -> play_step env fuel' gm = Some r.
Proof.
  induction fuel as [|fuel IH]; intros fuel' gm r Hle;
    destruct fuel' as [|fuel']; try lia; cbn;
    destruct (finished (game_state gm)); try done;
    destruct (next env (ensure_step_iter gm)) as [gm1|e gm1]; try done;
    destruct e; try done.
  apply IH. lia.
Qed.

Lemma play_loop_mono fuel : forall fuel' gm r,
  (fuel <= fuel')%nat ->
  play_loop env fuel gm = Some r -> play_loop env fuel' gm = Some r.
Proof.
  induction fuel as [|fuel IH]; intros fuel' gm r Hle;
    destruct fuel' as [|fuel']; try lia; cbn;
    destruct (finished (game_state gm)); try done.
  fold (play_round env (S fuel) gm). fold (play_round env (S fuel') gm).
  destruct (play_round env (S fuel) gm) as [[gm1|e gm1]|] eqn:Hpr; [| |done].
  - rewrite (play_round_mono (S fuel) (S fuel') gm (Ok gm1)) by (lia || done).
    apply IH. lia.
  - rewrite (play_round_mono (S fuel) (S fuel') gm (Raise e gm1))
      by (lia || done).
    done.
Qed.

Lemma play_mono fuel fuel' gm r :
  (fuel <= fuel')%nat ->
  play env fuel gm = Some r -> play env fuel' gm = Some r.
Proof.
  intros Hle. unfold play.
  destruct (set_initial env gm) as [gm0|e gm0]; [|done].
  destruct (play_loop env fuel gm0) as [[gm1|e gm1]|] eqn:Hloop; [| |done].
  - by rewrite (play_loop_mono fuel fuel' gm0 (Ok gm1)).
  - by rewrite (play_loop_mono fuel fuel' gm0 (Raise e gm1)).
Qed.

End Matches.

Section Rounds.
Context {Maze Event Adjacency : Type}.
Context {DM : Datamodel Maze Event} {GR : Graph Adjacency}.
Variable env : Env Maze.
Hypothesis keeps_bots : move_bot_keeps_bots.

Implicit Type gm : GameMaster Maze Event Adjacency.

(** X12.  The drivers return. In a universe in which [move_bot] keeps the
    bots, [play], [play_round] and [play_step] each return or raise: the loops
    over the generator end, and the result is the same for every bound on
    their length from the one given on. *)
Theorem drivers_return gm :
  (exists r, forall fuel,
      (length (bots (universe gm)) + rounds_left gm + 3 <= fuel)%nat ->
      play env fuel gm = Some r)
  /\ (exists r, forall fuel,
        (length (bots (universe gm)) + 2 <= fuel)%nat ->
        play_round env fuel gm = Some r)
  /\ (bots (universe gm) ≠ [] ->
      exists r, forall fuel, (1 <= fuel)%nat -> play_step env fuel gm = Some r).
Proof.
  split; [|split].
  - destruct (play_total env keeps_bots gm
                (length (bots (universe gm)) + rounds_left gm + 3))
      as [r Hr]; [lia|].
    exists r. intros fuel Hle. by eapply play_mono.
  - destruct (play_round_total env keeps_bots gm
                (length (bots (universe gm)) + 2)) as [r Hr]; [lia|].
    exists r. intros fuel Hle. by eapply play_round_mono.
  - intros Hne.
    destruct (play_step_total env keeps_bots gm 1) as [r Hr]; [done|lia|].
    exists r. intros fuel Hle. by eapply play_step_mono.
Qed.

(** ** [play_round] *)

Lemma play_round_loop_turns fuel : forall gm gm',
  finished (game_state gm) = false ->
  play_round_loop env fuel gm = Some (Ok gm') ->
  (finished (game_state gm') = true /\ turns gm' = turns gm
   /\ _step_iter gm = Some GenFresh)
  \/ (_step_iter gm' = None
      /\ turns gm' = (turns gm + turns_left gm)%nat
      /\ length (bots (universe gm')) = length (bots (universe gm))).
Proof.
  induction fuel as [|fuel IH]; intros gm gm' Hf; [done|]. cbn.
  destruct (next env gm) as [gm1|e gm1] eqn:Hnext.
  - destruct (next_Ok env _ _ Hf Hnext) as (Hf1 & Ht1 & _).
    destruct (next_Ok_iter env keeps_bots _ _ Hnext)
      as (k & Hiter1 & Hk & Hlen & Hiter).
    intros [(_ & _ & Hfresh) | (Hnone & Ht & Hl)]%IH; [|right|done].
    { by rewrite Hiter1 in Hfresh. }
    split; [done|]. split; [|congruence].
    rewrite Ht, Ht1. unfold turns_left. rewrite Hiter1, Hlen.
    destruct Hiter as [-> | [-> ->]]; lia.
  - destruct e; try done; intros [= <-].
    + left. split; [by eapply next_GameFinished|].
      destruct (next_end env _ _ _ Hf Hnext) as (Ht1 & _); [by right|].
      split; [done|]. by eapply next_GameFinished_fresh.
    + right. split; [done|].
      destruct (next_end env _ _ _ Hf Hnext) as (Ht1 & _); [by left|].
      destruct (next_StopIteration env _ _ Hf Hnext) as (Hleft & Hu & _).
      cbn. rewrite Hleft, Hu. split; [lia | done].
Qed.

(** X13.  A round played to its end. [play_round] on a match that is not
    finished either finds, before any turn, that the match is over, or plays
    the turns that the round has left, one for each bot from the place of the
    generator on, and leaves no generator behind: the next call starts the
    next round. *)
Theorem play_round_finishes_round fuel gm gm' :
  finished (game_state gm) = false ->
  play_round env fuel gm = Some (Ok gm') ->
  (finished (game_state gm') = true /\ turns gm' = turns gm)
  \/ (_step_iter gm' = None
      /\ turns gm' = (turns gm + turns_left gm)%nat
      /\ length (bots (universe gm')) = length (bots (universe gm))).
Proof.
  intros Hf. unfold play_round. rewrite Hf.
  destruct (ensure_step_iter_same gm)
    as (Hfe & Hte & Hue & _ & Hle & _).
  rewrite Hf in Hfe.
  intros [(Hfin & Ht & _) | (Hnone & Ht & Hl)]%play_round_loop_turns; [| |done].
  - left. split; [done | congruence].
  - right. split; [done|]. split; congruence.
Qed.

End Rounds.

Section Disqualification.
Context {Maze Event Adjacency : Type}.
Context {DM : Datamodel Maze Event} {GR : Graph Adjacency}.
Variable env : Env Maze.

Implicit Type gm : GameMaster Maze Event Adjacency.

(** ** A recorded winner stays recorded *)

#[local] Instance winner_kept_preorder :
  PreOrder (@winner_kept Maze Event Adjacency).
Proof.
  split.
  - intros gm Hw. exact Hw.
  - intros gm1 gm2 gm3 H12 H23 Hw. by apply H23, H12.
Qed.

(** A step that leaves [team_wins] as it is. *)
Lemma winner_kept_same gm gm' :
  team_wins (game_state gm') = team_wins (game_state gm) -> winner_kept gm gm'.
Proof. intros Hw. unfold winner_kept. by rewrite Hw. Qed.

Lemma play_bot_try_winner n bot player_team gm :
  team_wins (game_state (state_of (play_bot_try env n bot player_team gm)))
  = team_wins (game_state gm).
Proof.
  unfold play_bot_try.
  destruct (noiser gm) as [nz|]; cbn.
  - destruct (uniform_noise _ _ _ _ _) as [[u'|] d]; cbn; [|done].
    destruct (get_move _ _ _ _ _); cbn; [|done..].
    destruct (py_get _ _); cbn; [|done].
    destruct (py_set _ _ _); cbn; [|done].
    by destruct (move_bot _ _ _) as [[]|].
  - destruct (get_move _ _ _ _ _); cbn; [|done..].
    destruct (py_get _ _); cbn; [|done].
    destruct (py_set _ _ _); cbn; [|done].
    by destruct (move_bot _ _ _) as [[]|].
Qed.

Lemma play_bot_recover_winner bot gm :
  winner_kept gm (state_of (play_bot_recover env bot gm)).
Proof.
  unfold play_bot_recover.
  destruct (py_get _ _) as [n|]; [|by apply winner_kept_same].
  destruct (py_set _ _ _) as [tts'|]; [|by apply winner_kept_same].
  cbn -[fallback_moves].
  set (gm1 := if decide (n + 1 = MAX_TIMEOUTS) then _ else _).
  assert (winner_kept gm gm1) as Hk
    by (subst gm1; case_decide; intros Hw; cbn; done).
  clearbody gm1.
  destruct (fallback_moves _ _) as [moves|]; [|done].
  destruct (py_choice _ _) as [mv|]; cbn;
    [|etrans; [exact Hk|]; by apply winner_kept_same].
  destruct (move_bot _ _ _) as [[u' ms]|]; cbn;
    (etrans; [exact Hk|]; by apply winner_kept_same).
Qed.

(** A turn records a winner or leaves the one recorded; it never clears
    [team_wins]. *)
Lemma play_bot_winner bot gm :
  winner_kept gm (state_of (_play_bot env bot gm)).
Proof.
  unfold _play_bot.
  replace (player_teams (play_bot_begin bot gm)) with (player_teams gm)
    by done.
  destruct (py_get (player_teams gm) (Bot.team_index bot)) as [pt|];
    [|by apply winner_kept_same].
  cbn -[play_bot_begin play_bot_try].
  pose proof (play_bot_try_winner (turns gm) bot pt (play_bot_begin bot gm))
    as Htry.
  assert (winner_kept gm (play_bot_begin bot gm)) as Hbegin
    by (by apply winner_kept_same).
  destruct (play_bot_try _ _ _ _ _) as [gm1|e gm1]; cbn in Htry.
  { etrans; [done|]. by apply winner_kept_same. }
  assert (winner_kept gm gm1) as Hk
    by (etrans; [done|]; by apply winner_kept_same).
  pose proof (play_bot_recover_winner bot gm1) as Hrec.
  destruct e; cbn; try done; by etrans.
Qed.

Lemma prepare_next_round_winner gm :
  team_wins (game_state (prepare_next_round gm)) = team_wins (game_state gm).
Proof.
  unfold prepare_next_round. destruct (finished (game_state gm)); [done|].
  cbn. destruct (round_index (game_state gm)); [|done]. by case_decide.
Qed.

Lemma check_winner_winner gm : winner_kept gm (state_of (check_winner gm)).
Proof.
  intros Hw. unfold check_winner.
  destruct (finished (game_state gm)); cbn; [|done].
  pose proof Hw as Hn. apply not_none_true in Hn. rewrite Hn. done.
Qed.

Lemma finish_checks_winner gm : winner_kept gm (state_of (finish_checks gm)).
Proof.
  unfold finish_checks. rewrite state_of_bind.
  assert (winner_kept gm (check_finished gm)) as Hc.
  { apply winner_kept_same.
    by destruct (check_finished_quiet gm) as (_&_&_&_&_& -> &_). }
  pose proof (check_winner_winner (check_finished gm)) as Hw.
  destruct (check_winner (check_finished gm)) as [gm1|e gm1]; cbn in Hw;
    [|by etrans].
  destruct (print_possible_winner_shape gm1) as (c & ->). by etrans.
Qed.

Lemma next_winner gm :
  finished (game_state gm) = false -> winner_kept gm (state_of (next env gm)).
Proof.
  apply (next_keeps env winner_kept).
  - intros gm0 _. apply winner_kept_same, prepare_next_round_winner.
  - intros gm0 _. apply finish_checks_winner.
  - intros gm0. by apply winner_kept_same.
  - intros gm0 bot _. apply play_bot_winner.
  - intros gm0 n _. by apply winner_kept_same.
  - intros gm0 x. by apply winner_kept_same.
Qed.


(** ** The round of a disqualification *)

(** With a winner recorded, the checks at the end of the round finish the
    match. *)
Lemma round_end_winner gm :
  team_wins (game_state gm) ≠ None ->
  finished (game_state (state_of (round_end gm))) = true.
Proof.
  intros Hw. rewrite round_end_finished. by apply check_finished_winner.
Qed.

Lemma next_end_winner gm e gm' :
  finished (game_state gm) = false ->
  team_wins (game_state gm) ≠ None ->
  _step_iter gm ≠ Some GenDone ->
  next env gm = Raise e gm' ->
  e = StopIteration \/ e = GameFinished ->
  finished (game_state gm') = true.
Proof.
  intros Hf Hw Hiter Hnext [-> | ->]; [|by eapply next_GameFinished].
  unfold next in Hnext.
  destruct (_step_iter gm) as [[|k|]|]; try done.
  - unfold round_start in Hnext.
    pose proof (prepare_next_round_winner gm) as Hw1.
    set (gm1 := prepare_next_round gm) in *. clearbody gm1.
    destruct (finished (game_state gm1)) eqn:Hf1; cbn in Hnext.
    { by rewrite Hf1 in Hnext. }
    destruct (finish_checks_universe gm1) as [_ Hfin].
    rewrite check_finished_winner in Hfin by (by rewrite Hw1).
    destruct (finish_checks gm1) as [gm2|e2 gm2] eqn:Hfc; cbn in *.
    + by rewrite Hfin in Hnext.
    + injection Hnext as -> _. by apply finish_checks_Raise in Hfc.
  - destruct (round_loop env k gm) as [|e1 gm1] eqn:Hloop; [done|].
    cbn in Hnext. injection Hnext as -> <-. cbn.
    pose proof (round_end_winner gm Hw) as Hend.
    unfold round_loop in Hloop.
    destruct (bots (universe gm) !! k) as [bot|].
    + destruct (_play_bot env bot gm) as [|e2 gm2] eqn:Hplay; [done|].
      cbn in Hloop. injection Hloop as -> _.
      by apply play_bot_Raise in Hplay as [?|[?|?]].
    + by rewrite Hloop in Hend.
Qed.

(** The rest of a round with a winner recorded: the turns left record a
    winner or leave the one recorded, and the round ends on a finished
    match. *)
Lemma play_round_loop_winner fuel : forall gm gm',
  finished (game_state gm) = false ->
  team_wins (game_state gm) ≠ None ->
  _step_iter gm ≠ Some GenDone ->
  play_round_loop env fuel gm = Some (Ok gm') ->
  finished (game_state gm') = true
  /\ team_wins (game_state gm') ≠ None
  /\ (_step_iter gm ≠ Some GenFresh -> _step_iter gm' = None).
Proof.
  induction fuel as [|fuel IH]; intros gm gm' Hf Hw Hiter; [done|]. cbn.
  pose proof (next_winner gm Hf Hw) as Hw1.
  destruct (next env gm) as [gm1|e gm1] eqn:Hnext; cbn in Hw1.
  - destruct (next_Ok env _ _ Hf Hnext) as (Hf1 & _).
    destruct (next_Ok_turn env _ _ Hf Hnext) as (k & bot & _ & _ & Hiter1 & _).
    intros (Hfin & Hwin & Hnone)%IH; [|done|done|by rewrite Hiter1].
    split; [done|]. split; [done|]. intros _. apply Hnone.
    by rewrite Hiter1.
  - destruct e; try done; intros [= <-].
    + split; [by eapply next_GameFinished|]. split; [done|].
      intros Hfresh. by apply next_GameFinished_fresh in Hnext.
    + split; [|done]. cbn. eapply next_end_winner; eauto.
Qed.

Lemma play_round_winner fuel gm gm' :
  team_wins (game_state gm) ≠ None ->
  _step_iter gm ≠ Some GenDone ->
  play_round env fuel gm = Some (Ok gm') ->
  finished (game_state gm') = true
  /\ team_wins (game_state gm') ≠ None
  /\ (finished (game_state gm) = false ->
      (exists k, _step_iter gm = Some (GenAt k)) -> _step_iter gm' = None).
Proof.
  intros Hw Hiter. unfold play_round.
  destruct (finished (game_state gm)) eqn:Hf.
  { intros [= <-]. by rewrite Hf. }
  destruct (ensure_step_iter_same gm) as (Hfe & _ & _ & Hge & _).
  intros (Hfin & Hwin & Hnone)%play_round_loop_winner.
  - split; [done|]. split; [done|]. intros _ [k Hk]. apply Hnone.
    unfold ensure_step_iter. rewrite Hk. cbn. by rewrite Hk.
  - by rewrite Hfe.
  - by rewrite Hge.
  - unfold ensure_step_iter.
    destruct (_step_iter gm) as [it|] eqn:Hit; cbn; [by rewrite Hit | done].
Qed.

(** The turn at the place [k] of a round that leaves a winner recorded:
    the generator suspends after it on a match that is not finished, and
    the rest of the round, when [play_round] plays it to its end, ends on
    a finished match with a winner recorded. *)
Lemma disqualified_round k bot gm gm' w :
  finished (game_state gm) = false ->
  bots (universe gm) !! k = Some bot ->
  _play_bot env bot gm = Ok gm' ->
  team_wins (game_state gm') = Some w ->
  exists gm1,
    round_loop env k gm = Ok gm1
    /\ universe gm1 = universe gm'
    /\ team_wins (game_state gm1) = Some w
    /\ finished (game_state gm1) = false
    /\ _step_iter gm1 = Some (GenAt (S k))
    /\ (forall fuel gm2,
          play_round env fuel gm1 = Some (Ok gm2) ->
          finished (game_state gm2) = true
          /\ team_wins (game_state gm2) ≠ None
          /\ _step_iter gm2 = None
          /\ (move_bot_keeps_bots ->
              turns gm2
              = (turns gm1 + (length (bots (universe gm1)) - S k))%nat))
    /\ (move_bot_keeps_bots ->
        exists r, forall fuel,
          (length (bots (universe gm1)) + 2 <= fuel)%nat ->
          play_round env fuel gm1 = Some r).
Proof.
  intros Hf Hbot Hplay Hw.
  destruct (play_bot_frame env bot gm) as [Hfr _].
  rewrite Hplay in Hfr. cbn in Hfr. unfold turn_frame in Hfr.
  destruct Hfr as (_ & _ & _ & _ & _ & _ & _ & Hf' & _).
  eexists. split.
  { unfold round_loop. rewrite Hbot, Hplay. cbn. reflexivity. }
  set (gm1 := set_step_iter _ _).
  assert (finished (game_state gm1) = false) as Hf1 by (cbn; congruence).
  assert (_step_iter gm1 = Some (GenAt (S k))) as Hiter1 by done.
  do 4 (split; [done|]). split.
  - intros fuel gm2 Hround.
    destruct (play_round_winner fuel gm1 gm2) as (Hfin & Hwin & Hnone);
      [by cbn; rewrite Hw | by rewrite Hiter1 | done |].
    split; [done|]. split; [done|]. split; [apply Hnone; eauto|].
    intros Hkeeps. unfold play_round in Hround. rewrite Hf1 in Hround.
    apply (play_round_loop_turns env Hkeeps) in Hround
      as [(_ & _ & Hfresh) | (_ & Ht & _)]; [done| |done].
    by rewrite Ht.
  - intros Hkeeps.
    destruct (play_round_total env Hkeeps gm1
                (length (bots (universe gm1)) + 2)) as [r Hr]; [lia|].
    exists r. intros fuel Hle. by eapply play_round_mono.
Qed.

(** C1, as the code has it.  When the count of a team reaches
    [MAX_TIMEOUTS] on a timeout or a rejected move, the turn records the
    other team as winner and still applies a legal fallback move; it
    leaves [finished] as it was.  The match does not end with the turn:
    in the loop of the generator, at the place [k] of the bot, the
    generator suspends after the turn with the match not finished, and
    what is left of the round is played.  When [play_round] has played it
    to its end, one turn for each of the bots left if [move_bot] keeps
    the bots, the checks that end the round have set [finished], with a
    winner recorded; and [play_round] returns or raises. *)
Theorem timeout_limit_sets_winner bot gm n :
  rejected_or_timeout env bot gm ->
  py_get (timeout_teams (game_state gm)) (Bot.team_index bot) = Some n ->
  n + 1 = MAX_TIMEOUTS ->
  stop ∈ dom (get_legal_moves (universe gm) (Bot.current_pos bot)) ->
  (forall mv, mv ∈ dom (get_legal_moves (universe gm) (Bot.current_pos bot)) ->
              is_Some (move_bot (universe gm) (Bot.index bot) mv)) ->
  exists gm' mv ms,
    _play_bot env bot gm = Ok gm'
    /\ py_get (timeout_teams (game_state gm')) (Bot.team_index bot)
       = Some MAX_TIMEOUTS
    /\ team_wins (game_state gm') = Some (1 - Bot.team_index bot)
    /\ mv ∈ dom (get_legal_moves (universe gm) (Bot.current_pos bot))
    /\ move_bot (universe gm) (Bot.index bot) mv = Some (universe gm', ms)
    /\ finished (game_state gm') = finished (game_state gm)
    /\ finished (game_state (check_finished gm')) = true
    /\ forall k,
         finished (game_state gm) = false ->
         bots (universe gm) !! k = Some bot ->
         exists gm1,
           round_loop env k gm = Ok gm1
           /\ universe gm1 = universe gm'
           /\ team_wins (game_state gm1) = Some (1 - Bot.team_index bot)
           /\ finished (game_state gm1) = false
           /\ _step_iter gm1 = Some (GenAt (S k))
           /\ (forall fuel gm2,
                 play_round env fuel gm1 = Some (Ok gm2) ->
                 finished (game_state gm2) = true
                 /\ team_wins (game_state gm2) ≠ None
                 /\ _step_iter gm2 = None
                 /\ (move_bot_keeps_bots ->
                     turns gm2
                     = (turns gm1
                        + (length (bots (universe gm1)) - S k))%nat))
           /\ (move_bot_keeps_bots ->
               exists r, forall fuel,
                 (length (bots (universe gm1)) + 2 <= fuel)%nat ->
                 play_round env fuel gm1 = Some r).
Proof.
  intros (d & tt & Hplay)%play_bot_recovers Hn Hmax Hstop Hacc.
  destruct (play_bot_recover_total env bot
              (set_draws d (upd (set_team_time tt) (play_bot_begin bot gm))))
    as [gm' Hrec]; [cbn; rewrite Hn; by eexists | done | done |].
  exists gm'. rewrite Hplay, Hrec.
  assert (_play_bot env bot gm = Ok gm') as Hturn by (by rewrite Hplay).
  apply play_bot_recover_Ok in Hrec
    as (n' & moves & mv & ms & Hn' & Hcount & Hfb & Hch & Hmv & Hw & Hf).
  cbn in Hn', Hfb, Hmv, Hw, Hf. rewrite Hn in Hn'. injection Hn' as <-.
  rewrite decide_True in Hw by done.
  exists mv, ms. split; [done|]. split; [by rewrite Hcount, Hmax|].
  split; [done|]. split.
  { apply fallback_moves_Some in Hfb as [_ Hlegal].
    by apply py_choice_Some_elem, Hlegal in Hch as [? _]. }
  split; [done|]. split; [done|]. split.
  { apply check_finished_winner. by rewrite Hw. }
  intros k Hfin Hbot. by eapply disqualified_round.
Qed.

(** C2, as the code has it.  When the team is disconnected the turn
    records the other team as winner and applies no move to the universe;
    it leaves [finished] as it was.  The match does not end with the
    turn: in the loop of the generator, at the place [k] of the bot, the
    generator suspends after the turn with the match not finished, and
    what is left of the round is played.  When [play_round] has played it
    to its end, one turn for each of the bots left if [move_bot] keeps
    the bots, the checks that end the round have set [finished], with a
    winner recorded; and [play_round] returns or raises. *)
Theorem disconnected_sets_winner bot gm :
  turn_failure env bot gm = Some PlayerDisconnected ->
  exists gm',
    _play_bot env bot gm = Ok gm'
    /\ team_wins (game_state gm') = Some (1 - Bot.team_index bot)
    /\ universe gm' = universe gm
    /\ finished (game_state gm') = finished (game_state gm)
    /\ finished (game_state (check_finished gm')) = true
    /\ forall k,
         finished (game_state gm) = false ->
         bots (universe gm) !! k = Some bot ->
         exists gm1,
           round_loop env k gm = Ok gm1
           /\ universe gm1 = universe gm
           /\ team_wins (game_state gm1) = Some (1 - Bot.team_index bot)
           /\ finished (game_state gm1) = false
           /\ _step_iter gm1 = Some (GenAt (S k))
           /\ (forall fuel gm2,
                 play_round env fuel gm1 = Some (Ok gm2) ->
                 finished (game_state gm2) = true
                 /\ team_wins (game_state gm2) ≠ None
                 /\ _step_iter gm2 = None
                 /\ (move_bot_keeps_bots ->
                     turns gm2
                     = (turns gm1
                        + (length (bots (universe gm1)) - S k))%nat))
           /\ (move_bot_keeps_bots ->
               exists r, forall fuel,
                 (length (bots (universe gm1)) + 2 <= fuel)%nat ->
                 play_round env fuel gm1 = Some r).
Proof.
  intros (d & tt & Hplay)%play_bot_failure. eexists. split; [done|].
  do 3 (split; [done|]). split; [by apply check_finished_winner|].
  intros k Hfin Hbot.
  destruct (disqualified_round k bot gm _ (1 - Bot.team_index bot)
              Hfin Hbot Hplay eq_refl)
    as (gm1 & Hloop & Hu & Hw & Hf1 & Hiter & Hend & Htotal).
  exists gm1. split; [done|]. split; [by rewrite Hu|]. done.
Qed.


End Disqualification.

(** * Team specifications *)

Section TeamSpecifications.
Import LibPelita.

(** ** [firstNN] *)

Lemma firstNN_cons {A} (x : option A) (args : list (option A)) :
  firstNN (x :: args) = match x with Some v => Some v | None => firstNN args end.
Proof.
  unfold firstNN. destruct x as [v|].
  - rewrite filter_cons_True by done. done.
  - rewrite filter_cons_False by (by intros [? ?]). done.
Qed.

(** X14.  [firstNN] returns the first argument that is not [None], whatever
    comes after it, and [None] exactly when every argument is [None]. *)
Theorem firstNN_first {A} (args : list (option A)) :
  (forall v,
     firstNN args = Some v
     <-> exists before after,
           args = before ++ Some v :: after
           /\ Forall (λ x, x = None) before)
  /\ (firstNN args = None <-> Forall (λ x, x = None) args).
Proof.
  induction args as [|x args [IHv IHn]].
  { split.
    - intros v. split; [done|]. intros (before & after & H & _).
      by destruct before.
    - split; [by constructor | done]. }
  rewrite firstNN_cons. destruct x as [w|]; split.
  - intros v. split.
    + intros [= ->]. exists [], args. by split.
    + intros (before & after & H & Hnone).
      destruct before as [|b before]; [by injection H as -> _|].
      injection H as <- _. by inversion Hnone.
  - split; [done|]. intros H. by inversion H.
  - intros v. rewrite IHv. split.
    + intros (before & after & -> & Hnone).
      exists (None :: before), after. split; [done|]. by constructor.
    + intros (before & after & H & Hnone).
      destruct before as [|b before]; [done|].
      injection H as <- ->. exists before, after. split; [done|].
      by inversion Hnone.
  - rewrite IHn. split; [by constructor|]. intros H. by inversion H.
Qed.

(** ** Python strings *)

Lemma contains_char c s :
  contains (String c EmptyString) s = true <-> (0 < count c s)%nat.
Proof.
  induction s as [|b s IH]; cbn; [split; [done | lia]|].
  rewrite andb_true_r, orb_true_iff, IH, bool_decide_eq_true.
  split.
  - intros [-> | H]; [rewrite decide_True by done|]; lia.
  - destruct (decide (b = c)) as [->|Hne]; [by left|]. cbn. by right.
Qed.

Lemma contains_char_false c s :
  contains (String c EmptyString) s = false <-> count c s = 0%nat.
Proof.
  rewrite <- not_true_iff_false, contains_char. lia.
Qed.

Lemma split_length sep s : length (split sep s) = S (count sep s).
Proof.
  induction s as [|c s IH]; [done|]. cbn.
  case_decide; cbn; [by rewrite IH|].
  destruct (split sep s); cbn in *; [done | lia].
Qed.

Lemma join_cons sep piece pieces :
  pieces ≠ [] ->
  join sep (piece :: pieces)
  = String.append piece (String sep (join sep pieces)).
Proof. by destruct pieces. Qed.

Lemma split_join sep s : join sep (split sep s) = s.
Proof.
  induction s as [|c s IH]; [done|]. cbn.
  pose proof (split_length sep s) as Hlen.
  case_decide as Hc.
  - rewrite join_cons by (by destruct (split sep s)). cbn.
    by rewrite IH, Hc.
  - destruct (split sep s) as [|piece pieces]; [done|].
    destruct pieces as [|piece' pieces]; cbn in *; [by rewrite IH|].
    by rewrite <- IH.
Qed.

Lemma split_pieces sep s : Forall (λ p, count sep p = 0%nat) (split sep s).
Proof.
  induction s as [|c s IH]; cbn; [by repeat constructor|].
  case_decide as Hc; [by constructor|].
  destruct (split sep s) as [|piece pieces]; cbn.
  - repeat constructor. cbn. by rewrite decide_False.
  - inversion IH as [|? ? Hp Hps]; subst. constructor; [|done].
    cbn. by rewrite decide_False.
Qed.

Lemma count_append sep s1 s2 :
  count sep (String.append s1 s2) = (count sep s1 + count sep s2)%nat.
Proof.
  induction s1 as [|c s1 IH]; [done|].
  change (String.append (String c s1) s2)
    with (String c (String.append s1 s2)).
  cbn [count]. rewrite IH. lia.
Qed.

Lemma split_none sep s : count sep s = 0%nat -> split sep s = [s].
Proof.
  induction s as [|c s IH]; [done|]. cbn.
  case_decide; [done|]. cbn. intros Hs. by rewrite IH.
Qed.

Lemma split_append sep p m :
  count sep p = 0%nat ->
  split sep (String.append p (String sep m)) = p :: split sep m.
Proof.
  induction p as [|c p IH].
  - intros _. change (split sep (String sep m) = EmptyString :: split sep m).
    cbn [split]. by rewrite decide_True.
  - change (String.append (String c p) (String sep m))
      with (String c (String.append p (String sep m))).
    cbn [split count]. case_decide; [done|]. cbn. intros Hs. by rewrite IH.
Qed.

(** ** [strip_module_prefix] *)

(** What [strip_module_prefix] answers, by the number of [@]. *)
Lemma strip_module_prefix_cases module :
  match strip_module_prefix module with
  | Returns spec =>
    count "@" (ModuleSpec.module spec) = 0%nat
    /\ match ModuleSpec.prefix spec with
       | None => count "@" module = 0%nat /\ module = ModuleSpec.module spec
       | Some prefix =>
         count "@" module = 1%nat
         /\ count "@" prefix = 0%nat
         /\ module
            = String.append prefix (String "@" (ModuleSpec.module spec))
       end
  | Raises e =>
    (2 <= count "@" module)%nat
    /\ e = ValueError
             (String.append "Bad module definition: "
                (String.append module "."))
  end.
Proof.
  unfold strip_module_prefix.
  destruct (contains "@" module) eqn:Hc.
  2:{ apply contains_char_false in Hc. by cbn. }
  apply contains_char in Hc.
  pose proof (split_length "@" module) as Hlen.
  pose proof (split_join "@" module) as Hjoin.
  pose proof (split_pieces "@" module) as Hpieces.
  destruct (split "@" module) as [|prefix [|module' [|? ?]]]; cbn in Hlen.
  - done.
  - lia.
  - cbn. apply Forall_cons in Hpieces as [Hp Hps].
    apply Forall_cons in Hps as [Hm _].
    split; [done|]. split; [lia|]. split; [done|]. by rewrite <- Hjoin.
  - split; [lia | done].
Qed.

Lemma strip_module_prefix_plain module :
  count "@" module = 0%nat ->
  strip_module_prefix module = Returns (ModuleSpec.mk None module).
Proof.
  intros H%contains_char_false. unfold strip_module_prefix. by rewrite H.
Qed.

Lemma strip_module_prefix_prefixed prefix module :
  count "@" prefix = 0%nat -> count "@" module = 0%nat ->
  strip_module_prefix (String.append prefix (String "@" module))
  = Returns (ModuleSpec.mk (Some prefix) module).
Proof.
  intros Hp Hm. unfold strip_module_prefix.
  assert (contains "@" (String.append prefix (String "@" module)) = true)
    as ->.
  { apply contains_char. rewrite count_append. cbn [count].
    rewrite decide_True by done. lia. }
  by rewrite split_append, split_none.
Qed.

(** X15.  The prefix of a module. A string without [@] is a module without
    prefix. A string with one [@] is split there: [prefix@module] gives the
    prefix and the module back, and a specification returned spells the string
    it came from. A string with more than one [@] is refused with ValueError,
    and only such a string is. *)
Theorem strip_module_prefix_parts module :
  (count "@" module = 0%nat ->
   strip_module_prefix module = Returns (ModuleSpec.mk None module))
  /\ (forall prefix module',
        count "@" prefix = 0%nat -> count "@" module' = 0%nat ->
        module = String.append prefix (String "@" module') ->
        strip_module_prefix module
        = Returns (ModuleSpec.mk (Some prefix) module'))
  /\ (forall spec,
        strip_module_prefix module = Returns spec ->
        count "@" (ModuleSpec.module spec) = 0%nat
        /\ module
           = match ModuleSpec.prefix spec with
             | None => ModuleSpec.module spec
             | Some prefix =>
               String.append prefix (String "@" (ModuleSpec.module spec))
             end)
  /\ ((2 <= count "@" module)%nat
      <-> strip_module_prefix module
          = Raises (ValueError
                      (String.append "Bad module definition: "
                         (String.append module "."))))
  /\ forall e, strip_module_prefix module = Raises e ->
               (2 <= count "@" module)%nat.
Proof.
  pose proof (strip_module_prefix_cases module) as Hcases.
  split; [apply strip_module_prefix_plain|].
  split; [intros prefix module' Hp Hm ->;
          by apply strip_module_prefix_prefixed|].
  destruct (strip_module_prefix module) as [spec|e].
  - destruct Hcases as [Hm Hcases]. split; [|split; [|done]].
    + intros spec' [= <-]. split; [done|].
      by destruct (ModuleSpec.prefix spec); destruct_and!.
    + split; [|done]. intros Hcount.
      destruct (ModuleSpec.prefix spec); destruct_and!; lia.
  - destruct Hcases as [Hcount ->]. split; [done|]. split; [done|].
    by intros e' _.
Qed.

(** ** [prepare_team] *)

(** X16.  The team of an argument of [run_game]. [prepare_team] raises only
    for a string without [://] that has more than one [@]. A move function and
    a string with [://] are addresses: they are kept as they are, whatever
    else the string holds, and no module is recorded, so no player process is
    started for them. Any other string is a module with the local address, and
    the module recorded spells the string. *)
Theorem prepare_team_module team_spec :
  ((exists e, prepare_team team_spec = Raises e)
   <-> exists s, team_spec = Str s /\ contains "://" s = false
                 /\ (2 <= count "@" s)%nat)
  /\ forall t,
       prepare_team team_spec = Returns t ->
       match TeamSpec.module t with
       | None =>
         TeamSpec.address t = team_spec
         /\ ((exists f, team_spec = MoveFunction f)
             \/ exists s, team_spec = Str s /\ contains "://" s = true)
       | Some spec =>
         TeamSpec.address t = Str "tcp://127.0.0.1"
         /\ exists s,
              team_spec = Str s /\ contains "://" s = false
              /\ s = match ModuleSpec.prefix spec with
                     | None => ModuleSpec.module spec
                     | Some prefix =>
                       String.append prefix
                         (String "@" (ModuleSpec.module spec))
                     end
       end.
Proof.
  destruct team_spec as [f|s]; cbn.
  { split.
    - split; [by intros [? ?] | by intros (s & ? & _)].
    - intros t [= <-]. cbn. split; [done|]. left. eauto. }
  destruct (contains "://" s) eqn:Haddr.
  { split.
    - split; [by intros [? ?]|]. intros (s' & [= <-] & Hno & _). congruence.
    - intros t [= <-]. cbn. split; [done|]. right. eauto. }
  pose proof (strip_module_prefix_cases s) as Hparts.
  destruct (strip_module_prefix s) as [spec|e]; cbn.
  - split.
    + split; [by intros [? ?]|]. intros (s' & [= <-] & _ & Hcount).
      destruct Hparts as [_ Hparts].
      destruct (ModuleSpec.prefix spec); destruct_and!; lia.
    + intros t [= <-]. cbn. split; [done|]. exists s.
      split; [done|]. split; [done|]. destruct Hparts as [_ Hparts].
      by destruct (ModuleSpec.prefix spec); destruct_and!.
  - split; [|done]. destruct Hparts as [Hcount _].
    split; [|by eauto]. intros _. exists s. by repeat split.
Qed.

(** ** The command line of a player process *)

(** X17.  From the string of a team to the command line of its player process,
    as [run_game] goes: [prepare_team], then [call_pelita_player] on the
    module. A module without prefix, or with the prefix [py], is run by the
    Python executable as [pelita.scripts.pelita_player], with the module, the
    address and the color as arguments; with the prefix [bin] the module is
    the program, with the address as its only argument. A string with any
    other prefix, the empty one included, passes [prepare_team] and is refused
    when the process is to be started. *)
Theorem player_command py_proc address color :
  py_proc ≠ EmptyString ->
  let python module :=
    [py_proc; "-m"; "pelita.scripts.pelita_player"; module; address;
     "--color"; color]%string in
  let command s :=
    t ← prepare_team (Str s);
    match TeamSpec.module t with
    | Some spec => call_pelita_player (Some py_proc) spec address color
    | None => Returns []
    end in
  (forall module,
     contains "://" module = false -> count "@" module = 0%nat ->
     command module = Returns (python module))
  /\ (forall prefix module,
        contains "://" (String.append prefix (String "@" module)) = false ->
        count "@" prefix = 0%nat -> count "@" module = 0%nat ->
        command (String.append prefix (String "@" module))
        = if decide (prefix = "py"%string) then Returns (python module)
          else if decide (prefix = "bin"%string)
               then Returns [module; address]
               else Raises
                      (ValueError
                         (String.append "Unknown runner: "
                            (String.append prefix ":")))).
Proof.
  intros Hpy python command. subst python command. cbn beta. split.
  - intros module Haddr Hcount. unfold prepare_team. rewrite Haddr.
    rewrite strip_module_prefix_plain by done. cbn.
    by rewrite decide_False.
  - intros prefix module Haddr Hp Hm. unfold prepare_team. rewrite Haddr.
    rewrite strip_module_prefix_prefixed by done. cbn.
    unfold call_pelita_player, defined_runners. cbn.
    repeat case_decide; cbn; try done.
    by rewrite decide_False.
Qed.

End TeamSpecifications.

(** * Runs on the corridor *)

(** The corridor keeps its bots, so the drivers return on it. *)
Lemma corridor_keeps_bots : move_bot_keeps_bots (DM := Toy.datamodel).
Proof.
  intros u u' i mv ms. cbn. unfold Toy.apply_move.
  destruct (py_index (bots u) i) as [k|]; [|done]. cbn.
  destruct (bots u !! k) as [bot|]; [|done]. cbn.
  destruct (Toy.legal_moves u (Bot.current_pos bot) !! mv) as [q|]; [|done].
  cbn. intros [= <- _]. cbn. apply length_insert.
Qed.

Example play_returns :
  exists r,
    play (DM := Toy.datamodel) (GR := Toy.graph) Toy.env_timeout 16
      (Toy.controller 10) = Some r.
Proof. apply (play_total _ corridor_keeps_bots). vm_compute. lia. Qed.

(** From the left end of the corridor a bot may stop or step east; the
    recovery leaves it the step east. *)
Example fallback_moves_at_the_end :
  fallback_moves (DM := Toy.datamodel) Toy.universe0 Toy.bot0
  = Some [Toy.east].
Proof. vm_compute. reflexivity. Qed.

(** The short-sighted noiser, for the bot on the left: the bot on the
    right is five steps away, so it is marked and put on one of the two
    cells within a step of its place, by the first draw; here the draw
    falls on the cell where it stands. *)
Example uniform_noise_far :
  uniform_noise (GR := Toy.graph) (λ n, n) Toy.short_sighted 0
    Toy.universe0 0
  = (Some (set_bots [Toy.bot0; Bot.mk 1 1 (5, 0) true] Toy.universe0), 1%nat).
Proof. vm_compute. reflexivity. Qed.

(** The noiser of the controller sees five steps far: nothing changes and
    nothing is drawn. *)
Example uniform_noise_near :
  uniform_noise (GR := Toy.graph) (λ n, n) (mkNoiser 5 5 5) 0
    Toy.universe0 0
  = (Some Toy.universe0, 0%nat).
Proof. vm_compute. reflexivity. Qed.

(** A match of no rounds is finished by the first check, as a draw. *)
Example no_round_is_a_draw :
  exists gm,
    play_round (DM := Toy.datamodel) (GR := Toy.graph) Toy.env_stand 1
      (Toy.controller 0) = Some (Ok gm)
    /\ round_index (game_state gm) = Some 0
    /\ finished (game_state gm) = true
    /\ game_draw (game_state gm) = Some true
    /\ turns gm = 0%nat.
Proof. eexists. split; [vm_compute; reflexivity|]. by vm_compute. Qed.

(** Team [1] is gone when [set_initial] sends it the universe: the call
    raises what the team raised and no viewer is told; the next call, with
    the team back, returns and tells the viewer. *)
Example set_initial_team_absent :
  exists gm1 gm2,
    set_initial Toy.env_right_absent (Toy.controller 10)
    = Raise PlayerDisconnected gm1
    /\ viewer_calls gm1 = []
    /\ set_initial Toy.env_right_absent gm1 = Ok gm2
    /\ viewer_calls gm2 = [SetInitial 7%nat Toy.universe0].
Proof.
  eexists _, _. split; [vm_compute; reflexivity|].
  split; [vm_compute; reflexivity|].
  split; vm_compute; reflexivity.
Qed.

(** The fourth round has left team [0] with four timeouts; its bot then
    times out once more.  The turn records team [1] as winner, moves the
    bot all the same and leaves the match unfinished; the next step is the
    turn of the bot of team [1]. *)
Lemma timeout_limit_counterexample :
  exists gm gm1 gm2,
    Toy.after_four_rounds = Some gm
    /\ py_get (timeout_teams (game_state gm)) 0 = Some 4
    /\ rejected_or_timeout (DM := Toy.datamodel) (GR := Toy.graph)
         Toy.env_left_late (Toy.bot_at gm 0) gm
    /\ play_step (DM := Toy.datamodel) (GR := Toy.graph)
         Toy.env_left_late 1 gm = Some (Ok gm1)
    /\ py_get (timeout_teams (game_state gm1)) 0 = Some MAX_TIMEOUTS
    /\ team_wins (game_state gm1) = Some 1
    /\ finished (game_state gm1) = false
    /\ bot_moved (game_state gm1) = [(0, (1, 0))]
    /\ bots (universe gm1) ≠ bots (universe gm)
    /\ play_step (DM := Toy.datamodel) (GR := Toy.graph)
         Toy.env_left_late 1 gm1 = Some (Ok gm2)
    /\ bot_id (game_state gm2) = Some 1
    /\ turns gm2 = S (turns gm1).
Proof.
  eexists _, _, _.
  split; [vm_compute; reflexivity|].
  split; [vm_compute; reflexivity|].
  split; [left; vm_compute; reflexivity|].
  split; [vm_compute; reflexivity|].
  split; [vm_compute; reflexivity|].
  split; [vm_compute; reflexivity|].
  split; [vm_compute; reflexivity|].
  split; [vm_compute; reflexivity|].
  split; [vm_compute; discriminate|].
  split; [vm_compute; reflexivity|].
  split; vm_compute; reflexivity.
Qed.

Lemma timeout_limit_sets_winner_witness :
  exists gm' gm1 gm2,
    _play_bot (DM := Toy.datamodel) (GR := Toy.graph) Toy.env_left_late
      (Toy.bot_at Toy.four_timeouts 0) Toy.four_timeouts = Ok gm'
    /\ team_wins (game_state gm') = Some 1
    /\ finished (game_state gm') = false
    /\ finished (game_state (check_finished (DM := Toy.datamodel) gm')) = true
    /\ round_loop (DM := Toy.datamodel) (GR := Toy.graph) Toy.env_left_late
         0 Toy.four_timeouts = Ok gm1
    /\ finished (game_state gm1) = false
    /\ play_round (DM := Toy.datamodel) (GR := Toy.graph) Toy.env_left_late
         5 gm1 = Some (Ok gm2)
    /\ finished (game_state gm2) = true
    /\ team_wins (game_state gm2) ≠ None.
Proof.
  destruct (timeout_limit_sets_winner (DM := Toy.datamodel) (GR := Toy.graph)
              Toy.env_left_late (Toy.bot_at Toy.four_timeouts 0)
              Toy.four_timeouts 4)
    as (gm' & mv & ms & Hplay & _ & Hwins & _ & _ & Hfin & Hcheck & Hround).
  - left. vm_compute. reflexivity.
  - vm_compute. reflexivity.
  - reflexivity.
  - apply (bool_decide_unpack _). vm_compute. exact I.
  - apply (bool_decide_unpack (set_Forall _ _)). vm_compute. exact I.
  - destruct (Hround 0%nat) as (gm1 & Hloop & _ & _ & Hf1 & _ & Hend & _).
    + vm_compute. reflexivity.
    + vm_compute. reflexivity.
    + assert (gm1 = state_of (round_loop (DM := Toy.datamodel)
                                (GR := Toy.graph) Toy.env_left_late 0
                                Toy.four_timeouts)) as Hgm1
        by (rewrite Hloop; reflexivity).
      destruct (play_round (DM := Toy.datamodel) (GR := Toy.graph)
                  Toy.env_left_late 5 gm1) as [[gm2|e gm2]|] eqn:Hpr.
      * destruct (Hend 5%nat gm2 Hpr) as (Hfin2 & Hwin2 & _).
        exists gm', gm1, gm2.
        split; [exact Hplay|]. split; [exact Hwins|]. split; [exact Hfin|].
        split; [exact Hcheck|]. split; [exact Hloop|]. split; [exact Hf1|].
        split; [exact Hpr|]. split; [exact Hfin2 | exact Hwin2].
      * rewrite Hgm1 in Hpr. vm_compute in Hpr. discriminate Hpr.
      * rewrite Hgm1 in Hpr. vm_compute in Hpr. discriminate Hpr.
Defined.

(** The team of the first bot is disconnected.  The turn records team [1]
    as winner and leaves the match unfinished; the next step is the turn
    of the bot of team [1]. *)
Lemma disconnected_counterexample :
  exists gm1 gm2,
    turn_failure (DM := Toy.datamodel) (GR := Toy.graph)
      Toy.env_disconnected Toy.bot0 (Toy.controller 10)
    = Some PlayerDisconnected
    /\ play_step (DM := Toy.datamodel) (GR := Toy.graph)
         Toy.env_disconnected 1 (Toy.controller 10) = Some (Ok gm1)
    /\ team_wins (game_state gm1) = Some 1
    /\ finished (game_state gm1) = false
    /\ play_step (DM := Toy.datamodel) (GR := Toy.graph)
         Toy.env_disconnected 1 gm1 = Some (Ok gm2)
    /\ bot_id (game_state gm2) = Some 1
    /\ turns gm2 = S (turns gm1).
Proof.
  eexists _, _.
  split; [vm_compute; reflexivity|].
  split; [vm_compute; reflexivity|].
  split; [vm_compute; reflexivity|].
  split; [vm_compute; reflexivity|].
  split; [vm_compute; reflexivity|].
  split; vm_compute; reflexivity.
Qed.

Lemma disconnected_sets_winner_witness :
  exists gm' gm1 gm2,
    _play_bot (DM := Toy.datamodel) (GR := Toy.graph) Toy.env_disconnected
      Toy.bot0 (Toy.controller 10) = Ok gm'
    /\ team_wins (game_state gm') = Some 1
    /\ universe gm' = Toy.universe0
    /\ finished (game_state gm') = false
    /\ round_loop (DM := Toy.datamodel) (GR := Toy.graph)
         Toy.env_disconnected 0 (Toy.controller 10) = Ok gm1
    /\ finished (game_state gm1) = false
    /\ play_round (DM := Toy.datamodel) (GR := Toy.graph)
         Toy.env_disconnected 5 gm1 = Some (Ok gm2)
    /\ finished (game_state gm2) = true
    /\ team_wins (game_state gm2) ≠ None.
Proof.
  destruct (disconnected_sets_winner (DM := Toy.datamodel) (GR := Toy.graph)
              Toy.env_disconnected Toy.bot0 (Toy.controller 10))
    as (gm' & Hplay & Hwins & Hu & Hfin & _ & Hround).
  - vm_compute. reflexivity.
  - destruct (Hround 0%nat) as (gm1 & Hloop & _ & _ & Hf1 & _ & Hend & _).
    + vm_compute. reflexivity.
    + vm_compute. reflexivity.
    + assert (gm1 = state_of (round_loop (DM := Toy.datamodel)
                                (GR := Toy.graph) Toy.env_disconnected 0
                                (Toy.controller 10))) as Hgm1
        by (rewrite Hloop; reflexivity).
      destruct (play_round (DM := Toy.datamodel) (GR := Toy.graph)
                  Toy.env_disconnected 5 gm1) as [[gm2|e gm2]|] eqn:Hpr.
      * destruct (Hend 5%nat gm2 Hpr) as (Hfin2 & Hwin2 & _).
        exists gm', gm1, gm2.
        split; [exact Hplay|]. split; [exact Hwins|]. split; [exact Hu|].
        split; [exact Hfin|]. split; [exact Hloop|]. split; [exact Hf1|].
        split; [exact Hpr|]. split; [exact Hfin2 | exact Hwin2].
      * rewrite Hgm1 in Hpr. vm_compute in Hpr. discriminate Hpr.
      * rewrite Hgm1 in Hpr. vm_compute in Hpr. discriminate Hpr.
Defined.

Lemma check_winner_spec_witness :
  finished (game_state Toy.finished_match) = true
  /\ exists gm',
       check_winner Toy.finished_match = Ok gm'
       /\ team_wins (game_state gm') = Some 0
       /\ game_draw (game_state gm') = None.
Proof.
  split; [reflexivity|].
  destruct (check_winner_spec Toy.finished_match) as (_ & _ & Hscore & _).
  destruct (Hscore (Team.mk 0 "left" 2 [0]) (Team.mk 1 "right" 1 [1])
              eq_refl eq_refl eq_refl eq_refl eq_refl)
    as (gm' & Hcheck & Hleft & _).
  exists gm'. split; [exact Hcheck|]. apply Hleft. simpl. lia.
Defined.

Lemma fallback_move_legal_witness :
  exists gm',
    _play_bot (DM := Toy.datamodel) (GR := Toy.graph) Toy.env_timeout
      Toy.bot0 (Toy.controller 10) = Ok gm'.
Proof.
  destruct (fallback_move_legal (DM := Toy.datamodel) (GR := Toy.graph)
              Toy.env_timeout Toy.bot0 (Toy.controller 10)) as [_ Htotal].
  - left. vm_compute. reflexivity.
  - apply Htotal.
    + vm_compute. eexists. reflexivity.
    + apply (bool_decide_unpack _). vm_compute. exact I.
    + apply (bool_decide_unpack (set_Forall _ _)). vm_compute. exact I.
Defined.

Lemma recovery_needs_stop_witness :
  exists e gm',
    _play_bot (DM := Toy.restless) (GR := Toy.graph) Toy.env_timeout
      Toy.bot0 (Toy.controller 10) = Raise e gm'
    /\ universe gm' = Toy.universe0
    /\ e = ValueError.
Proof.
  destruct (recovery_needs_stop (DM := Toy.restless) (GR := Toy.graph)
              Toy.env_timeout Toy.bot0 (Toy.controller 10)) as [Hraise _].
  - left. vm_compute. reflexivity.
  - destruct Hraise as (e & gm' & Hplay & Hu & He).
    + apply (bool_decide_unpack _). vm_compute. exact I.
    + exists e, gm'. split; [exact Hplay|]. split; [exact Hu|].
      apply He. vm_compute. eexists. reflexivity.
Defined.

Lemma uniform_noise_spec_witness :
  exists u' d' b',
    uniform_noise (GR := Toy.graph) (λ n, n) Toy.short_sighted 0
      Toy.universe0 0 = (Some u', d')
    /\ bots u' !! 1%nat = Some b'
    /\ Bot.noisy b' = true
    /\ Bot.current_pos b'
       ∈ pos_within (Graph := Toy.graph) (adjacency Toy.short_sighted)
           (Bot.current_pos Toy.bot1) (noise_radius Toy.short_sighted).
Proof.
  destruct (uniform_noise_spec (GR := Toy.graph) (λ n, n) Toy.short_sighted
              0%nat Toy.universe0 0 Toy.bot0) as (Hspec & Htotal & _).
  - reflexivity.
  - destruct Htotal as (u' & d' & Hnoise).
    + intros b Hb _. apply list_elem_of_In in Hb. simpl in Hb.
      destruct Hb as [<- | [<- | []]];
        apply (bool_decide_unpack _); vm_compute; exact I.
    + destruct (Hspec u' d' Hnoise 1%nat Toy.bot1) as [_ Hfar].
      * reflexivity.
      * simpl. discriminate.
      * destruct Hfar as (r & p & b' & _ & _ & Hcell & Hb' & Hpos & Hn & _).
        -- right. eexists. split; [vm_compute; reflexivity|]. simpl. lia.
        -- exists u', d', b'. split; [exact Hnoise|]. split; [exact Hb'|].
           split; [exact Hn|]. rewrite Hpos. exact Hcell.
Defined.

(** A match with a game time of [-1]: the first step starts the round of
    index 0, which is above the game time, and ends the match. *)
Lemma round_index_counterexample :
  exists gm',
    run (DM := Toy.datamodel) (GR := Toy.graph) Toy.env_stand
      [CallPlayStep 1] (Toy.controller (-1)) = Some gm'
    /\ round_index (game_state (Toy.controller (-1))) = None
    /\ game_time gm' = -1
    /\ round_index (game_state gm') = Some 0
    /\ ~ (forall r, round_index (game_state gm') = Some r ->
                    r <= game_time gm').
Proof.
  eexists.
  split; [vm_compute; reflexivity|].
  split; [vm_compute; reflexivity|].
  split; [vm_compute; reflexivity|].
  split; [vm_compute; reflexivity|].
  intros Hle. specialize (Hle 0 eq_refl). vm_compute in Hle. by apply Hle.
Qed.

Lemma round_index_monotone_bounded_witness :
  game_time Toy.played = 1
  /\ round_index_le None (round_index (game_state Toy.played))
  /\ forall r, round_index (game_state Toy.played) = Some r ->
               0 <= r <= game_time Toy.played.
Proof.
  destruct (round_index_monotone_bounded (DM := Toy.datamodel)
              (GR := Toy.graph) Toy.env_stand [CallPlay 20]
              (Toy.controller 1) Toy.played) as (Hg & Hle & Hb).
  - vm_compute. reflexivity.
  - split; [exact Hg|]. split; [exact Hle|]. apply Hb.
    + simpl. lia.
    + simpl. intros r Hr. discriminate Hr.
Defined.



(** A match of one round, run by [play]: two turns, and four [observe]
    calls on the viewer, the last two after the last turn. *)
Lemma viewers_told_counterexample :
  exists gm',
    play (DM := Toy.datamodel) (GR := Toy.graph) Toy.env_stand 20
      (Toy.controller 1) = Some (Ok gm')
    /\ viewers gm' = [7%nat]
    /\ turns gm' = 2%nat
    /\ observations 7%nat gm' = 4%nat.
Proof.
  eexists.
  split; [vm_compute; reflexivity|].
  split; [vm_compute; reflexivity|].
  split; vm_compute; reflexivity.
Qed.

Lemma viewers_told_per_turn_witness :
  observations 7%nat Toy.played
  = (registrations 7%nat Toy.played * (turns Toy.played + 2))%nat.
Proof.
  destruct (viewers_told_per_turn (DM := Toy.datamodel) (GR := Toy.graph)
              Toy.env_stand (Toy.controller 1) Toy.played) as (_ & _ & Hplay).
  - intros viewer. unfold observations, registrations. simpl. lia.
  - apply (Hplay 20%nat). vm_compute. reflexivity.
Defined.

(** ** The further properties on the corridor *)

(** The first bot stands still: the move is applied to the universe of
    the controller, which it leaves as it is. *)
Lemma accepted_move_applied_witness :
  exists gm',
    _play_bot (DM := Toy.datamodel) (GR := Toy.graph) Toy.env_stand
      Toy.bot0 (Toy.controller 10) = Ok gm'
    /\ universe gm' = Toy.universe0
    /\ bot_id (game_state gm') = Some 0.
Proof.
  destruct (accepted_move_applied (DM := Toy.datamodel) (GR := Toy.graph)
              Toy.env_stand Toy.bot0 (Toy.controller 10) 0%nat Toy.universe0
              0%nat Toy.stand 0 Toy.universe0
              (mkMoveState [(0, (0, 0))] [] []))
    as (gm' & Hplay & Hu & _ & Hid & _).
  - reflexivity.
  - vm_compute. reflexivity.
  - reflexivity.
  - reflexivity.
  - vm_compute. reflexivity.
  - exists gm'. split; [exact Hplay|]. split; [exact Hu | exact Hid].
Defined.

Lemma turn_outcome_witness :
  bot_id (game_state (Toy.turn_of Toy.env_timeout)) = Some 0
  /\ turns (Toy.turn_of Toy.env_timeout) = 1%nat.
Proof.
  destruct (turn_outcome (DM := Toy.datamodel) (GR := Toy.graph)
              Toy.env_timeout Toy.bot0 (Toy.controller 10)
              (Toy.turn_of Toy.env_timeout)) as (Hid & Ht & _).
  - vm_compute. reflexivity.
  - split; [exact Hid | exact Ht].
Defined.

Lemma winner_changes_by_disqualification_witness :
  team_wins (game_state (Toy.turn_of Toy.env_disconnected)) = Some 1.
Proof.
  destruct (winner_changes_by_disqualification (DM := Toy.datamodel)
              (GR := Toy.graph) Toy.env_disconnected Toy.bot0
              (Toy.controller 10) (Toy.turn_of Toy.env_disconnected))
    as (Hchange & _).
  - vm_compute. reflexivity.
  - destruct Hchange as [Hwins _]; [vm_compute; discriminate | exact Hwins].
Defined.

Lemma timeouts_never_decrease_witness :
  length (timeout_teams (game_state Toy.four_timeouts)) = 2%nat
  /\ exists n',
       timeout_teams (game_state Toy.four_timeouts) !! 0%nat = Some n'
       /\ 0 <= n'.
Proof.
  destruct (timeouts_never_decrease (DM := Toy.datamodel) (GR := Toy.graph)
              Toy.env_left_late (replicate 8 (CallPlayStep 1))
              (Toy.controller 10) Toy.four_timeouts) as [Hlen Hgrow].
  - vm_compute. reflexivity.
  - split; [exact Hlen|]. apply (Hgrow 0%nat 0). reflexivity.
Defined.

Lemma summary_printed_once_witness : (summaries Toy.played <= 1)%nat.
Proof.
  destruct (summary_printed_once (DM := Toy.datamodel) (GR := Toy.graph)
              Toy.env_stand [CallPlay 20] (Toy.controller 1) Toy.played)
    as [Hle _].
  - reflexivity.
  - vm_compute. reflexivity.
  - exact Hle.
Defined.

Lemma uniform_noise_local_witness :
  exists b',
    bots (set_bots [Toy.bot0; Bot.mk 1 1 (5, 0) true] Toy.universe0) !! 1%nat
    = Some b'
    /\ Bot.index b' = 1 /\ Bot.team_index b' = 1.
Proof.
  destruct (uniform_noise_local (GR := Toy.graph) (λ n, n) Toy.short_sighted
              0%nat Toy.universe0
              (set_bots [Toy.bot0; Bot.mk 1 1 (5, 0) true] Toy.universe0)
              0 Toy.bot0 1%nat) as (_ & _ & _ & _ & Hbots).
  - reflexivity.
  - vm_compute. reflexivity.
  - destruct (Hbots 1%nat Toy.bot1 eq_refl) as (b' & Hb & Hi & Ht & _).
    exists b'. split; [exact Hb|]. split; [exact Hi | exact Ht].
Defined.

Lemma play_step_one_turn_witness : turns Toy.stepped = 1%nat.
Proof.
  destruct (play_step_one_turn (DM := Toy.datamodel) (GR := Toy.graph)
              Toy.env_stand 1 (Toy.controller 10) Toy.stepped)
    as [[Hfin _] | (_ & Ht & _)].
  - reflexivity.
  - vm_compute. reflexivity.
  - vm_compute in Hfin. discriminate Hfin.
  - exact Ht.
Defined.

Lemma summary_reports_outcome_witness :
  universe Toy.checked = universe Toy.last_round.
Proof.
  destruct (summary_reports_outcome (DM := Toy.datamodel) Toy.last_round
              Toy.checked) as [Hu _].
  - vm_compute. reflexivity.
  - reflexivity.
  - exact Hu.
Defined.

Lemma play_records_outcome_witness :
  finished (game_state Toy.played) = true /\ summaries Toy.played = 1%nat.
Proof.
  destruct (play_records_outcome (DM := Toy.datamodel) (GR := Toy.graph)
              Toy.env_stand 20 (Toy.controller 1) Toy.played)
    as (Hf & _ & Hs).
  - reflexivity.
  - exact I.
  - reflexivity.
  - vm_compute. reflexivity.
  - split; [exact Hf | exact Hs].
Defined.

Lemma drivers_return_witness :
  exists r, forall fuel,
    (1 <= fuel)%nat ->
    play_step (DM := Toy.datamodel) (GR := Toy.graph) Toy.env_timeout fuel
      (Toy.controller 10) = Some r.
Proof.
  destruct (drivers_return (DM := Toy.datamodel) (GR := Toy.graph)
              Toy.env_timeout corridor_keeps_bots (Toy.controller 10))
    as (_ & _ & Hstep).
  apply Hstep. vm_compute. discriminate.
Defined.

Lemma play_round_finishes_round_witness : turns Toy.round_played = 2%nat.
Proof.
  destruct (play_round_finishes_round (DM := Toy.datamodel) (GR := Toy.graph)
              Toy.env_stand corridor_keeps_bots 5 (Toy.controller 10)
              Toy.round_played) as [[Hfin _] | (_ & Ht & _)].
  - reflexivity.
  - vm_compute. reflexivity.
  - vm_compute in Hfin. discriminate Hfin.
  - exact Ht.
Defined.

(** The team [bin@./player] is run as the program [./player]. *)
Lemma player_command_witness :
  (t ← LibPelita.prepare_team (LibPelita.Str "bin@./player");
   match LibPelita.TeamSpec.module t with
   | Some spec =>
     LibPelita.call_pelita_player (Some "python3"%string) spec
       "tcp://127.0.0.1:5000" "Blue"
   | None => LibPelita.Returns []
   end)
  = LibPelita.Returns ["./player"; "tcp://127.0.0.1:5000"]%string.
Proof.
  assert ("python3"%string ≠ EmptyString) as Hpy by discriminate.
  pose proof (player_command "python3" "tcp://127.0.0.1:5000" "Blue" Hpy)
    as Hcommand.
  cbv zeta in Hcommand. destruct Hcommand as [_ Hprefix].
  exact (Hprefix "bin"%string "./player"%string eq_refl eq_refl eq_refl).
Defined.
